(** * QUBO encoding and decoding of the capacitated vehicle routing problem

    A shallow embedding of [quantumrouting]: the objective and constraint
    encoders and the QUBO wrappers of [wrappers/qubo.py], the solution
    decoder of [solvers/qbsolv.py] and the problem and solution records of
    [types.py] with the constructor [from_file].

    Modelling choices.
    - Python integers are [Z].  [demands] is a numpy array of 64-bit
      integers: its entries are [Z], and the product and the sum the source
      takes of two of them wrap around at 64 bits ([wrap_int64]).
    - Coefficients, distances and costs (floats in the source) are
      idealised as canonical rationals [Qc], so that sums are exact and
      equality is Leibniz equality.  A division by a capacity of 0, which
      gives an infinity or a NaN in the source, has no rational value:
      every statement about a quotient assumes a capacity other than 0.
    - A [defaultdict(int)] keyed by pairs of (step, destination) variables
      is a [gmap key Qc]; a missing key reads as 0.
    - Indexing a list or an array raises [IndexError] out of range and wraps
      negative indices, as Python and numpy do; the encoders and the decoder
      therefore live in a small error monad.
    - The sample handed to the decoder is the first sample of the
      sampler's result, as the ordered list of its items: the source
      iterates the keys of the sample in the sampler's order and reads the
      bit stored under the key it is visiting.
    - [compute_distances] and [FullQuboParams] belong to modules the
      encoders import but the repository does not hold; the first is a
      parameter of the encoders, the second a record of the two constants
      the wrappers read.
    - [np.array] on the decoded routes is that of numpy 1.24 and later: it
      raises [ValueError] on routes of different lengths (earlier versions
      warn and build an array of row objects).
    - [from_file] is modelled from the parsed file on: the parsed instance
      is a record, and [random.sample], seeded with a constant, is a
      parameter.  It sets no [costs]: its result is the problem up to the
      cost table, a function of the table set on it later. *)

From Stdlib Require Import ZArith QArith Qcanon Lia String.
From stdpp Require Import base numbers option list gmap.

Local Open Scope Z_scope.
Local Open Scope Qc_scope.

(** ** Exceptions *)

Inductive exn : Type :=
  | IndexError
  | ValueError.

Inductive result (A : Type) : Type :=
  | Ok (a : A)
  | Raise (e : exn).

Arguments Ok {A} a.
Arguments Raise {A} e.

#[global] Instance result_ret : MRet result := fun A a => Ok a.

#[global] Instance result_bind : MBind result := fun A B f r =>
  match r with
  | Ok a => f a
  | Raise e => Raise e
  end.

(** A [for] loop whose body may raise: the state is threaded from left to
    right and the first exception leaves the loop. *)
Fixpoint for_loop {S A : Type} (body : S -> A -> result S) (s : S)
    (l : list A) : result S :=
  match l with
  | [] => Ok s
  | a :: l' => s' ← body s a; for_loop body s' l'
  end.

(** ** Python containers *)

(** [l[i]]: valid for [-len(l) <= i < len(l)], negative indices count from
    the end. *)
Definition getitem {A : Type} (l : list A) (i : Z) : result A :=
  let n := Z.of_nat (length l) in
  let j := if decide (i < 0)%Z then (n + i)%Z else i in
  if decide (0 <= j < n)%Z then
    match l !! Z.to_nat j with
    | Some a => Ok a
    | None => Raise IndexError
    end
  else Raise IndexError.

(** [m[i][j]] on a matrix stored by rows. *)
Definition getitem2 {A : Type} (m : list (list A)) (i j : Z) : result A :=
  row ← getitem m i; getitem row j.

(** [range(a, b)]. *)
Definition range (a b : Z) : list Z := seqZ a (b - a).

(** [itertools.product(xs, ys)]. *)
Definition product {A B : Type} (xs : list A) (ys : list B) : list (A * B) :=
  x ← xs; pair x <$> ys.

(** [itertools.combinations(xs, 2)]: pairs of positions [i < j], in
    lexicographic order of positions. *)
Fixpoint combinations2 {A : Type} (xs : list A) : list (A * A) :=
  match xs with
  | [] => []
  | x :: xs' => (pair x <$> xs') ++ combinations2 xs'
  end.

(** A binary variable [(step, destination)] and a QUBO key, a pair of
    variables. *)
Definition var : Type := (Z * Z)%type.
Definition key : Type := (var * var)%type.

(** [d[k] += c] and [d[k] -= c] on a [defaultdict(int)]. *)
Definition dict_add (d : gmap key Qc) (k : key) (c : Qc) : gmap key Qc :=
  <[k := default 0 (d !! k) + c]> d.

Definition dict_sub (d : gmap key Qc) (k : key) (c : Qc) : gmap key Qc :=
  <[k := default 0 (d !! k) - c]> d.

(** [d.get(k, 0)]. *)
Definition dict_get (d : gmap key Qc) (k : key) : Qc := default 0 (d !! k).

(** An integer read as a coefficient. *)
Definition ZtoQc (z : Z) : Qc := Q2Qc (inject_Z z).

(** ** numpy *)

(** The value a signed 64-bit integer takes when the exact result of an
    operation is [z]: the arithmetic of [int64] wraps around. *)
Definition wrap_int64 (z : Z) : Z :=
  ((z + 2 ^ 63) mod 2 ^ 64 - 2 ^ 63)%Z.

(** [np.array(rows)] on a list of lists of integers: the array of the rows
    when they have one length, [ValueError] when they do not. *)
Definition np_array (rows : list (list Z)) : result (list (list Z)) :=
  match rows with
  | [] => Ok rows
  | row :: rows' =>
    if decide (Forall (fun row' => length row' = length row) rows')
    then Ok rows else Raise ValueError
  end.

(** ** types.py *)

(** [CVRPProblem].  [costs] is the cost table the decoder reads as
    [problem.costs]; the dataclass of [types.py] does not declare it, so it
    is carried here as one more field of the problem. *)
Record CVRPProblem : Type := {
  problem_identifier : string;
  location_idx : list Z;
  coords : list (Qc * Qc);
  vehicle_capacity : Z;
  num_vehicles : Z;
  demands : list Z;
  max_deliveries : Z;
  depot_idx : Z;
  costs : list (list Qc)
}.

(** [CVRPSolution]. *)
Record CVRPSolution : Type := {
  solution_identifier : string;
  routes : list (list Z);
  cost : Qc;
  total_demands : list Z
}.

(** The constants of the QUBO formulation ([FullQuboParams], with the
    fields of [QBSolvParams]). *)
Record FullQuboParams : Type := {
  constraint_const : Qc;
  cost_const : Qc
}.

(** ** types.py: [from_file] *)

Definition INSTANCE_MAX_SIZE : Z := 5.

Definition MAX_NUM_VEHICLES : Z := 1.

(** One entry of [data['deliveries']]: its point and its size. *)
Record Package : Type := {
  point_lat : Qc;
  point_lng : Qc;
  package_size : Z
}.

(** The parsed instance file [data]: [name], [origin], [vehicle_capacity]
    and [deliveries]. *)
Record InstanceData : Type := {
  data_name : string;
  data_origin : Qc * Qc;
  data_vehicle_capacity : Z;
  data_deliveries : list Package
}.

Section FromFile.

(** [random.sample] after [seed(a=INSTANCE_MAX_SIZE, version=2)]: a fixed
    choice of [k] of the packages, and nothing where the source raises
    [ValueError] because there are fewer than [k]. *)
Variable sample : list Package -> Z -> option (list Package).

(** [CVRPProblem.from_file] on the parsed file.  The source sets the eight
    fields the dataclass declares and no [costs]: the result is the problem
    up to its cost table, as a function of the table an assignment
    [problem.costs = table] gives it afterwards.  Without such an
    assignment the decoder cannot read [problem.costs] at all. *)
Definition from_file (data : InstanceData)
    : option (list (list Qc) -> CVRPProblem) :=
  let packages := data_deliveries data in
  sampled_packages ← sample packages INSTANCE_MAX_SIZE;
  let coords :=
    (fun package_info => (point_lat package_info, point_lng package_info))
      <$> sampled_packages in
  let demands := package_size <$> sampled_packages in
  let coords := data_origin data :: coords in
  let demands := 0%Z :: demands in
  Some (fun table =>
       {| problem_identifier := data_name data;
          location_idx := range 0 (Z.of_nat (length sampled_packages) + 1);
          coords := coords;
          vehicle_capacity := data_vehicle_capacity data;
          num_vehicles := MAX_NUM_VEHICLES;
          max_deliveries := Z.of_nat (length sampled_packages);
          demands := demands;
          depot_idx := 0%Z;
          costs := table |}).

End FromFile.

(** ** wrappers/qubo.py *)

Section Encoders.

(** [compute_distances] of [src.quantumrouting.distances]: the matrix of
    pairwise distances of the coordinates, stored by rows. *)
Variable compute_distances : list (Qc * Qc) -> list (list Qc).

(** The body of the loop over vehicles of [vrp_objective_function]; the
    state is the coefficient map and [start]. *)
Definition vrp_vehicle_pass (problem : CVRPProblem)
    (distances : list (list Qc)) (cost_const : Qc)
    (st : gmap key Qc * Z) (vehicle : Z) : result (gmap key Qc * Z) :=
  let '(variables, start) := st in
  let min_final := (start - 1)%Z in
  let max_final :=
    (start + Z.of_nat (length (location_idx problem)) - 2)%Z in
  variables ←
    for_loop (fun variables step =>
      for_loop (fun variables '(node1, node2) =>
        let idx := ((step, node1), ((step + 1)%Z, node2)) in
        cost ← getitem2 distances node1 node2;
        Ok (dict_add variables idx (cost * cost_const)))
      variables (product (location_idx problem) (location_idx problem)))
    variables (range (min_final + 1) max_final);
  variables ←
    for_loop (fun variables destination =>
      let idx := ((start, destination), (start, destination)) in
      cost ← getitem2 distances (depot_idx problem) destination;
      let variables := dict_add variables idx (cost * cost_const) in
      let idx := ((max_final, destination), (max_final, destination)) in
      cost ← getitem2 distances destination (depot_idx problem);
      Ok (dict_add variables idx (cost_const * cost)))
    variables (location_idx problem);
  Ok (variables, (max_final + 1)%Z).

Definition vrp_objective_function (problem : CVRPProblem) (cost_const : Qc)
    : result (gmap key Qc) :=
  let distances := compute_distances (coords problem) in
  st ← for_loop (vrp_vehicle_pass problem distances cost_const) (∅, 0%Z)
         (range 0 (num_vehicles problem));
  Ok st.1.

(** The body of the loop over vehicles of [cvrp_objective_function].  The
    product of the two demands is that of two 64-bit integers.  The
    quotient is exact in [Qc]; the source divides floats, which for a zero
    capacity gives an infinity or a NaN instead: the coefficients this
    definition gives for a capacity of 0 are not those of the source. *)
Definition cvrp_vehicle_pass (problem : CVRPProblem) (cost_const : Qc)
    (st : gmap key Qc * Z) (vehicle : Z) : result (gmap key Qc * Z) :=
  let '(variables, start) := st in
  let max_final :=
    (start + Z.of_nat (length (location_idx problem)) - 2)%Z in
  let capacity := vehicle_capacity problem in
  variables ←
    for_loop (fun variables '(d1, d2) =>
      for_loop (fun variables '(s1, s2) =>
        let idx := ((s1, d1), (s2, d2)) in
        let idx2 := ((s1, d2), (s2, d1)) in
        x1 ← getitem (demands problem) d1;
        x2 ← getitem (demands problem) d2;
        let cost := ZtoQc (wrap_int64 (x1 * x2)) / ZtoQc (capacity ^ 2) in
        let variables := dict_add variables idx (cost_const * cost) in
        Ok (dict_add variables idx2 (cost_const * cost)))
      variables (combinations2 (range start (max_final + 1))))
    variables (combinations2 (drop 1 (location_idx problem)));
  Ok (variables, (max_final + 1)%Z).

Definition cvrp_objective_function (problem : CVRPProblem) (cost_const : Qc)
    : result (gmap key Qc) :=
  variables ← vrp_objective_function problem cost_const;
  st ← for_loop (cvrp_vehicle_pass problem cost_const) (variables, 0%Z)
         (range 0 (num_vehicles problem));
  Ok st.1.

(** The two statements both loops of [constraints] run on their list
    [variables]. *)
Definition one_hot (constraint_const : Qc) (constraints_dict : gmap key Qc)
    (variables : list var) : gmap key Qc :=
  let constraints_dict :=
    foldl (fun d v => dict_sub d (v, v) (2 * constraint_const))
      constraints_dict variables in
  foldl (fun d vv => dict_add d vv constraint_const)
    constraints_dict (product variables variables).

Definition constraints (problem : CVRPProblem) (constraint_const : Qc)
    : gmap key Qc :=
  let constraints_dict : gmap key Qc := ∅ in
  let steps := (num_vehicles problem * max_deliveries problem)%Z in
  let constraints_dict :=
    foldl (fun d dest =>
      let variables := (fun step => (step, dest)) <$> range 0 steps in
      one_hot constraint_const d variables)
    constraints_dict (drop 1 (location_idx problem)) in
  foldl (fun d step =>
    let variables := (fun dest => (step, dest)) <$> location_idx problem in
    one_hot constraint_const d variables)
  constraints_dict (range 0 steps).

(** The dictionary comprehension shared by [_wrap_vrp_qubo_problem] and
    [_wrap_cvrp_qubo_problem]. *)
Definition merge_repr (objective_repr constraints_repr : gmap key Qc)
    : gmap key Qc :=
  set_to_map
    (fun k => (k, dict_get objective_repr k + dict_get constraints_repr k))
    (dom objective_repr ∪ dom constraints_repr).

Definition wrap_vrp_qubo_problem (params : FullQuboParams)
    (problem : CVRPProblem) : result (gmap key Qc) :=
  objective_repr ← vrp_objective_function problem (cost_const params);
  let constraints_repr := constraints problem (constraint_const params) in
  Ok (merge_repr objective_repr constraints_repr).

Definition wrap_cvrp_qubo_problem (params : FullQuboParams)
    (problem : CVRPProblem) : result (gmap key Qc) :=
  objective_repr ← cvrp_objective_function problem (cost_const params);
  let constraints_repr := constraints problem (constraint_const params) in
  Ok (merge_repr objective_repr constraints_repr).

End Encoders.

(** ** solvers/qbsolv.py *)

(** The decoding loop of [_unwrap_qbsolv_solution] over the items of the
    sample; returning [all_vehicles_results] early is the [break]. *)
Fixpoint decode_loop (problem : CVRPProblem) (sample : list (var * Z))
    (all_vehicles_results : list (list Z)) (vehicle_result : list Z)
    (vehicle step : Z) : list (list Z) :=
  match sample with
  | [] => all_vehicles_results
  | ((_, dest), bit) :: sample' =>
    if decide (bit = 1%Z) then
      let vehicle_result :=
        if decide (dest ≠ 0%Z) then vehicle_result ++ [dest]
        else vehicle_result in
      let step := (step + 1)%Z in
      if decide (max_deliveries problem = step) then
        let vehicle_result := depot_idx problem :: vehicle_result in
        let vehicle_result := vehicle_result ++ [depot_idx problem] in
        let all_vehicles_results :=
          all_vehicles_results ++ [vehicle_result] in
        let vehicle := (vehicle + 1)%Z in
        if decide (num_vehicles problem <= vehicle)%Z
        then all_vehicles_results
        else decode_loop problem sample' all_vehicles_results [] vehicle 0%Z
      else
        decode_loop problem sample' all_vehicles_results vehicle_result
          vehicle step
    else
      decode_loop problem sample' all_vehicles_results vehicle_result
        vehicle step
  end.

(** The body of the loop over routes that recomputes the cost and the
    demand of each vehicle; the state is [cost] and [total_demands_size].
    [demands_size] is a 64-bit integer from the first demand added on. *)
Definition route_pass (problem : CVRPProblem) (st : Qc * list Z)
    (vehicle_route : list Z) : result (Qc * list Z) :=
  let '(cost, total_demands_size) := st in
  match vehicle_route with
  | [] => Ok (cost, total_demands_size)
  | prev :: rest =>
    '(cost, demands_size, prev) ←
      for_loop (fun '(cost, demands_size, prev) dest =>
        c ← getitem2 (costs problem) prev dest;
        d ← getitem (demands problem) dest;
        Ok (cost + c, wrap_int64 (demands_size + d), dest))
      (cost, 0%Z, prev) rest;
    let total_demands_size := total_demands_size ++ [demands_size] in
    c ← getitem2 (costs problem) prev (depot_idx problem);
    Ok (cost + c, total_demands_size)
  end.

(** [_unwrap_qbsolv_solution], on the first sample of the result. *)
Definition unwrap_qbsolv_solution (problem : CVRPProblem)
    (sample : list (var * Z)) : result CVRPSolution :=
  let all_vehicles_results := decode_loop problem sample [] [] 0%Z 0%Z in
  '(cost, total_demands_size) ←
    for_loop (route_pass problem) (0, []) all_vehicles_results;
  routes ← np_array all_vehicles_results;
  Ok {| solution_identifier := problem_identifier problem;
        routes := routes;
        cost := cost;
        total_demands := total_demands_size |}.

(** * Specification vocabulary

    The definitions below are not part of the source: they are the
    vocabulary in which the behaviour of the encoders and of the decoder is
    stated and proved. *)

(** ** Table lookups *)

(** [i] is an index [l[i]] accepts. *)
Definition indexable {A : Type} (l : list A) (i : Z) : Prop :=
  (- Z.of_nat (length l) <= i < Z.of_nat (length l))%Z.

(** [d] indexes the rows of the matrix [m] and every row of it. *)
Definition covers (m : list (list Qc)) (d : Z) : Prop :=
  indexable m d /\ Forall (fun row => indexable row d) m.

(** [d] indexes both tables the decoder reads. *)
Definition in_tables (problem : CVRPProblem) (d : Z) : Prop :=
  indexable (demands problem) d /\ covers (costs problem) d.

(** The value [m[a][b]] reads where it does not raise. *)
Definition entry (m : list (list Qc)) (a b : Z) : Qc :=
  match getitem2 m a b with Ok c => c | Raise _ => 0 end.

Definition cost_at (problem : CVRPProblem) (a b : Z) : Qc :=
  entry (costs problem) a b.

(** The value [problem.demands[d]] reads where it does not raise. *)
Definition demand_at (problem : CVRPProblem) (d : Z) : Z :=
  match getitem (demands problem) d with Ok x => x | Raise _ => 0%Z end.

Definition sumQc (l : list Qc) : Qc := foldr Qcplus 0 l.

Definition sumZ (l : list Z) : Z := foldr Z.add 0%Z l.

(** ** Integers of 64 bits, arrays and exceptions *)

(** [z] is a value of a signed 64-bit integer: an operation with the exact
    result [z] does not wrap. *)
Definition fits_int64 (z : Z) : Prop := (- 2 ^ 63 <= z < 2 ^ 63)%Z.

(** Rows of one length: the lists of rows [np.array] accepts. *)
Definition rectangular (rows : list (list Z)) : Prop :=
  match rows with
  | [] => True
  | row :: rows' => Forall (fun row' => length row' = length row) rows'
  end.

(** A computation that raises nothing but [IndexError]. *)
Definition index_errors_only {A : Type} (r : result A) : Prop :=
  forall e, r = Raise e -> e = IndexError.

(** ** Decoded routes *)

(** The destinations, and the steps, of the variables the sample sets to 1,
    in the order of the sample. *)
Definition selected (sample : list (var * Z)) : list Z :=
  (fun x => x.1.2) <$> filter (fun x => x.2 = 1%Z) sample.

Definition selected_steps (sample : list (var * Z)) : list Z :=
  (fun x => x.1.1) <$> filter (fun x => x.2 = 1%Z) sample.

(** The [v]-th run of [n] selected destinations: the block the decoder
    closes as the route of vehicle [v]. *)
Definition block_of (n : nat) (sel : list Z) (v : nat) : list Z :=
  take n (drop (v * n)%nat sel).

(** The complete blocks of [n] selected destinations; a shorter rest is
    left out. *)
Definition full_blocks (n : nat) (sel : list Z) : list (list Z) :=
  block_of n sel <$> seq 0 (length sel / n)%nat.

(** A block closed as a route: the stops other than destination 0 between
    two copies of the depot. *)
Definition close_route (problem : CVRPProblem) (blk : list Z) : list Z :=
  depot_idx problem :: filter (fun d => d ≠ 0%Z) blk ++ [depot_idx problem].

Definition decoded_routes (problem : CVRPProblem) (sample : list (var * Z))
    : list (list Z) :=
  close_route problem <$>
    take (Z.to_nat (Z.max (num_vehicles problem) 1))
      (full_blocks (Z.to_nat (max_deliveries problem)) (selected sample)).

(** Consecutive entries of a route, and the sum of their costs. *)
Definition legs (route : list Z) : list (Z * Z) := zip route (drop 1 route).

Definition route_cost (problem : CVRPProblem) (route : list Z) : Qc :=
  sumQc ((fun ab => cost_at problem ab.1 ab.2) <$> legs route).

(** The stops of a route between its first and its last entry, and the sum
    of their demands. *)
Definition interior (route : list Z) : list Z :=
  drop 1 (take (length route - 1) route).

Definition route_demand (problem : CVRPProblem) (route : list Z) : Z :=
  sumZ (demand_at problem <$> interior route).

(** The depot and every selected destination index the cost and demand
    tables. *)
Definition tables_cover (problem : CVRPProblem) (sample : list (var * Z))
    : Prop :=
  in_tables problem (depot_idx problem) /\
  Forall (in_tables problem) (selected sample).

(** A perfect bit assignment: bits over the variable space, each variable
    listed once, exactly one destination selected per step with the steps
    met in increasing order, and each destination other than the depot
    selected exactly once. *)
Definition perfect (problem : CVRPProblem) (sample : list (var * Z)) : Prop :=
  Forall (fun x =>
            (x.2 = 0%Z \/ x.2 = 1%Z) /\
            (0 <= x.1.1 < num_vehicles problem * max_deliveries problem)%Z /\
            x.1.2 ∈ location_idx problem) sample /\
  NoDup sample.*1 /\
  selected_steps sample =
    seqZ 0 (num_vehicles problem * max_deliveries problem) /\
  Forall (fun d => d ≠ depot_idx problem ->
                   length (filter (fun x => x = d) (selected sample)) = 1%nat)
    (location_idx problem).

(** The malformed problems of the specification: tables of different
    lengths, or a capacity, a number of vehicles or a number of deliveries
    that is not positive. *)
Definition malformed (problem : CVRPProblem) : Prop :=
  length (location_idx problem) ≠ length (demands problem) \/
  (vehicle_capacity problem <= 0)%Z \/
  (num_vehicles problem <= 0)%Z \/
  (max_deliveries problem <= 0)%Z.

(** ** Coefficient maps as accumulated terms *)

(** The map reached from [d] by adding the terms one after the other, and
    the sum of the terms of a list that fall on the key [k]. *)
Definition emit (d : gmap key Qc) (terms : list (key * Qc)) : gmap key Qc :=
  foldl (fun d kc => dict_add d kc.1 kc.2) d terms.

Definition total (k : key) (terms : list (key * Qc)) : Qc :=
  sumQc (snd <$> filter (fun kc => kc.1 = k) terms).

(** ** The blocks of the objective encoders *)

Definition num_locations (problem : CVRPProblem) : Z :=
  Z.of_nat (length (location_idx problem)).

(** The values [start] and [max_final] take in the pass of vehicle [v]. *)
Definition first_step (problem : CVRPProblem) (v : Z) : Z :=
  (v * (num_locations problem - 1))%Z.

Definition last_step (problem : CVRPProblem) (v : Z) : Z :=
  (first_step problem v + num_locations problem - 2)%Z.

(** Two steps [s1 < s2] of the block of one vehicle. *)
Definition same_block (problem : CVRPProblem) (s1 s2 : Z) : Prop :=
  exists v, (0 <= v < num_vehicles problem)%Z /\
    (first_step problem v <= s1)%Z /\ (s1 < s2)%Z /\
    (s2 <= last_step problem v)%Z.

(** ** The terms of [vrp_objective_function] *)

Definition adjacent_term (distances : list (list Qc)) (cost_const : Qc)
    (x : Z * (Z * Z)) : key * Qc :=
  (((x.1, x.2.1), ((x.1 + 1)%Z, x.2.2)),
   entry distances x.2.1 x.2.2 * cost_const).

Definition first_term (problem : CVRPProblem) (distances : list (list Qc))
    (cost_const : Qc) (x : Z * Z) : key * Qc :=
  (((x.1, x.2), (x.1, x.2)),
   entry distances (depot_idx problem) x.2 * cost_const).

Definition last_term (problem : CVRPProblem) (distances : list (list Qc))
    (cost_const : Qc) (x : Z * Z) : key * Qc :=
  (((x.1, x.2), (x.1, x.2)),
   cost_const * entry distances x.2 (depot_idx problem)).

(** The terms one pass adds, in the order of the pass, and those of all
    passes. *)
Definition vrp_block_terms (problem : CVRPProblem)
    (distances : list (list Qc)) (cost_const : Qc) (start : Z)
    : list (key * Qc) :=
  let max_final := (start + num_locations problem - 2)%Z in
  (adjacent_term distances cost_const <$>
     product (range start max_final)
       (product (location_idx problem) (location_idx problem))) ++
  (location_idx problem ≫= fun d =>
     [first_term problem distances cost_const (start, d);
      last_term problem distances cost_const (max_final, d)]).

Definition vrp_terms (problem : CVRPProblem) (distances : list (list Qc))
    (cost_const : Qc) : list (key * Qc) :=
  range 0 (num_vehicles problem) ≫= fun v =>
    vrp_block_terms problem distances cost_const (first_step problem v).

(** The same terms sorted into three families: adjacent steps, first step
    and last step of a block. *)
Definition adj_steps (problem : CVRPProblem) : list Z :=
  range 0 (num_vehicles problem) ≫= fun v =>
    range (first_step problem v) (last_step problem v).

Definition adjacent_terms (problem : CVRPProblem)
    (distances : list (list Qc)) (cost_const : Qc) : list (key * Qc) :=
  adjacent_term distances cost_const <$>
    product (adj_steps problem)
      (product (location_idx problem) (location_idx problem)).

Definition first_terms (problem : CVRPProblem)
    (distances : list (list Qc)) (cost_const : Qc) : list (key * Qc) :=
  first_term problem distances cost_const <$>
    product (first_step problem <$> range 0 (num_vehicles problem))
      (location_idx problem).

Definition last_terms (problem : CVRPProblem)
    (distances : list (list Qc)) (cost_const : Qc) : list (key * Qc) :=
  last_term problem distances cost_const <$>
    product (last_step problem <$> range 0 (num_vehicles problem))
      (location_idx problem).

(** ** The terms [cvrp_objective_function] adds *)

(** The quotient the source takes for two destinations: the 64-bit
    product of their demands over the square of the capacity. *)
Definition capacity_cost (problem : CVRPProblem) (d1 d2 : Z) : Qc :=
  ZtoQc (wrap_int64 (demand_at problem d1 * demand_at problem d2))
  / ZtoQc (vehicle_capacity problem ^ 2).

(** The terms on [idx] and on [idx2] for a pair of destinations and a pair
    of steps. *)
Definition capacity_term1 (problem : CVRPProblem) (cost_const : Qc)
    (x : (Z * Z) * (Z * Z)) : key * Qc :=
  (((x.2.1, x.1.1), (x.2.2, x.1.2)),
   cost_const * capacity_cost problem x.1.1 x.1.2).

Definition capacity_term2 (problem : CVRPProblem) (cost_const : Qc)
    (x : (Z * Z) * (Z * Z)) : key * Qc :=
  (((x.2.1, x.1.2), (x.2.2, x.1.1)),
   cost_const * capacity_cost problem x.1.1 x.1.2).

Definition block_pairs (problem : CVRPProblem) (start : Z)
    : list ((Z * Z) * (Z * Z)) :=
  product (combinations2 (drop 1 (location_idx problem)))
    (combinations2 (range start (start + num_locations problem - 2 + 1))).

Definition cvrp_block_terms (problem : CVRPProblem) (cost_const : Qc)
    (start : Z) : list (key * Qc) :=
  block_pairs problem start ≫= fun x =>
    [capacity_term1 problem cost_const x;
     capacity_term2 problem cost_const x].

Definition all_pairs (problem : CVRPProblem) : list ((Z * Z) * (Z * Z)) :=
  range 0 (num_vehicles problem) ≫= fun v =>
    block_pairs problem (first_step problem v).

Definition cvrp_terms (problem : CVRPProblem) (cost_const : Qc)
    : list (key * Qc) :=
  range 0 (num_vehicles problem) ≫= fun v =>
    cvrp_block_terms problem cost_const (first_step problem v).

(** The keys the capacity terms fall on. *)
Definition capacity_pair (problem : CVRPProblem) (k : key) : Prop :=
  exists s1 s2 a b, k = ((s1, a), (s2, b)) /\ same_block problem s1 s2 /\
    a ∈ drop 1 (location_idx problem) /\
    b ∈ drop 1 (location_idx problem) /\ a ≠ b.

(** ** The terms of [constraints] *)

Definition num_steps (problem : CVRPProblem) : Z :=
  (num_vehicles problem * max_deliveries problem)%Z.

Definition diagonal_term (constraint_const : Qc) (v : var) : key * Qc :=
  ((v, v), - (2 * constraint_const)).

Definition pair_term (constraint_const : Qc) (vv : key) : key * Qc :=
  (vv, constraint_const).

Definition one_hot_terms (constraint_const : Qc) (variables : list var)
    : list (key * Qc) :=
  (diagonal_term constraint_const <$> variables) ++
  (pair_term constraint_const <$> product variables variables).

(** The list [variables] of the first and of the second loop. *)
Definition dest_variables (problem : CVRPProblem) (dest : Z) : list var :=
  (fun step => (step, dest)) <$> range 0 (num_steps problem).

Definition step_variables (problem : CVRPProblem) (step : Z) : list var :=
  (fun dest => (step, dest)) <$> location_idx problem.

Definition constraint_terms (problem : CVRPProblem) (constraint_const : Qc)
    : list (key * Qc) :=
  (drop 1 (location_idx problem) ≫= fun dest =>
     one_hot_terms constraint_const (dest_variables problem dest)) ++
  (range 0 (num_steps problem) ≫= fun step =>
     one_hot_terms constraint_const (step_variables problem step)).

(** The variables and the pairs of variables of each family. *)
Definition dest_vars (problem : CVRPProblem) : list var :=
  drop 1 (location_idx problem) ≫= dest_variables problem.

Definition dest_pairs (problem : CVRPProblem) : list key :=
  drop 1 (location_idx problem) ≫= fun dest =>
    product (dest_variables problem dest) (dest_variables problem dest).

Definition step_vars (problem : CVRPProblem) : list var :=
  range 0 (num_steps problem) ≫= step_variables problem.

Definition step_pairs (problem : CVRPProblem) : list key :=
  range 0 (num_steps problem) ≫= fun step =>
    product (step_variables problem step) (step_variables problem step).

(** ** The value of a coefficient map *)

(** The value of a coefficient map at an assignment [x] of its variables,
    the quantity the solver of [solve] minimises: the sum over the keys
    [(u, v)] of [q[(u, v)] * x u * x v]. *)
Definition term_value (x : var -> Qc) (kc : key * Qc) : Qc :=
  kc.2 * x kc.1.1 * x kc.1.2.

Definition value (x : var -> Qc) (terms : list (key * Qc)) : Qc :=
  sumQc (term_value x <$> terms).

Definition energy (q : gmap key Qc) (x : var -> Qc) : Qc :=
  value x (map_to_list q).

Definition binary (x : var -> Qc) : Prop := forall v, x v = 0 \/ x v = 1.

(** The assignment a sample denotes: 1 on the variables it sets to 1. *)
Definition bits (sample : list (var * Z)) (v : var) : Qc :=
  if decide ((v, 1%Z) ∈ sample) then 1 else 0.

(** The destination [choice[s]] of step [s]. *)
Definition chosen (choice : list Z) (s : Z) : Z :=
  default 0%Z (choice !! Z.to_nat s).

(** Over the steps of the objective encoders, [x] sets among the variables
    of step [s] exactly that of the location [r s]. *)
Definition selects (problem : CVRPProblem) (x : var -> Qc) (r : Z -> Z)
    : Prop :=
  forall s d,
    (0 <= s < num_vehicles problem * (num_locations problem - 1))%Z ->
    d ∈ location_idx problem ->
    x (s, d) = if decide (d = r s) then 1 else 0.

(** ** The one-hot penalty *)

(** How often [x] selects the destination [dest] over the steps of
    [constraints], and how many locations it selects at the step [step]. *)
Definition visits (problem : CVRPProblem) (x : var -> Qc) (dest : Z) : Qc :=
  sumQc (x <$> dest_variables problem dest).

Definition occupancy (problem : CVRPProblem) (x : var -> Qc) (step : Z)
    : Qc :=
  sumQc (x <$> step_variables problem step).

(** The squared distance of the counts from 1, summed over the deliveries
    and over the steps. *)
Definition penalty (problem : CVRPProblem) (x : var -> Qc) : Qc :=
  sumQc ((fun d => (visits problem x d - 1) * (visits problem x d - 1))
           <$> drop 1 (location_idx problem)) +
  sumQc ((fun s => (occupancy problem x s - 1) * (occupancy problem x s - 1))
           <$> range 0 (num_steps problem)).

(** The number of one-hot families: one per delivery and one per step. *)
Definition num_families (problem : CVRPProblem) : Z :=
  Z.of_nat (length (drop 1 (location_idx problem)) +
            length (range 0 (num_steps problem))).

(** Every delivery selected once and one location selected per step. *)
Definition feasible (problem : CVRPProblem) (x : var -> Qc) : Prop :=
  (forall d, d ∈ drop 1 (location_idx problem) -> visits problem x d = 1) /\
  (forall s, s ∈ range 0 (num_steps problem) -> occupancy problem x s = 1).

(** ** Tours and loads *)

(** The sum of the entries of the matrix [m] along the legs of a route. *)
Definition path_cost (m : list (list Qc)) (route : list Z) : Qc :=
  sumQc ((fun ab => entry m ab.1 ab.2) <$> legs route).

(** The tour of vehicle [v] when step [s] goes to [r s]: the depot, the
    locations of the steps of the block of [v], the depot. *)
Definition tour (problem : CVRPProblem) (r : Z -> Z) (v : Z) : list Z :=
  depot_idx problem ::
    (r <$> range (first_step problem v) (last_step problem v + 1)) ++
    [depot_idx problem].

(** The capacity charge of two stops: [capacity_cost] for two different
    deliveries, nothing otherwise. *)
Definition pair_load (problem : CVRPProblem) (a b : Z) : Qc :=
  if decide (a ∈ drop 1 (location_idx problem) /\
             b ∈ drop 1 (location_idx problem) /\ a ≠ b)
  then capacity_cost problem a b else 0.

(** The charges of the pairs of stops of vehicle [v], and those of all
    pairs of deliveries. *)
Definition block_load (problem : CVRPProblem) (r : Z -> Z) (v : Z) : Qc :=
  sumQc ((fun ss => pair_load problem (r ss.1) (r ss.2)) <$>
           combinations2 (range (first_step problem v)
                                (last_step problem v + 1))).

Definition pairs_load (problem : CVRPProblem) : Qc :=
  sumQc ((fun dd => capacity_cost problem dd.1 dd.2) <$>
           combinations2 (drop 1 (location_idx problem))).

(** ** Distance matrices *)

(** An [n] by [n] matrix. *)
Definition square (m : list (list Qc)) (n : nat) : Prop :=
  length m = n /\ Forall (fun row => length row = n) m.

(** ** Concrete problems and samples *)

(** A distance provider that ignores the coordinates and returns a fixed
    symmetric table with a zero diagonal. *)
Definition table_distances (_ : list (Qc * Qc)) : list (list Qc) :=
  [ [ZtoQc 0; ZtoQc 1; ZtoQc 2];
    [ZtoQc 1; ZtoQc 0; ZtoQc 3];
    [ZtoQc 2; ZtoQc 3; ZtoQc 0] ].

Definition unit_params : FullQuboParams :=
  {| constraint_const := ZtoQc 10; cost_const := ZtoQc 1 |}.

(** A depot and two deliveries, two vehicles with two slots each. *)
Definition problem_two_by_two : CVRPProblem :=
  {| problem_identifier := "two-by-two";
     location_idx := [0; 1; 2]%Z;
     coords := [];
     vehicle_capacity := 10%Z;
     num_vehicles := 2%Z;
     demands := [0; 3; 4]%Z;
     max_deliveries := 2%Z;
     depot_idx := 0%Z;
     costs := table_distances [] |}.

(** A depot and two deliveries, two vehicles with one slot each. *)
Definition problem_one_each : CVRPProblem :=
  {| problem_identifier := "one-each";
     location_idx := [0; 1; 2]%Z;
     coords := [];
     vehicle_capacity := 10%Z;
     num_vehicles := 2%Z;
     demands := [0; 3; 4]%Z;
     max_deliveries := 1%Z;
     depot_idx := 0%Z;
     costs := table_distances [] |}.

(** Three locations but one demand, a negative capacity and no delivery
    slot. *)
Definition problem_malformed : CVRPProblem :=
  {| problem_identifier := "malformed";
     location_idx := [0; 1; 2]%Z;
     coords := [];
     vehicle_capacity := (-5)%Z;
     num_vehicles := 1%Z;
     demands := [0%Z];
     max_deliveries := 0%Z;
     depot_idx := 0%Z;
     costs := table_distances [] |}.

(** Three locations with their demands, a negative capacity and no
    delivery slot. *)
Definition problem_negative_capacity : CVRPProblem :=
  {| problem_identifier := "negative-capacity";
     location_idx := [0; 1; 2]%Z;
     coords := [];
     vehicle_capacity := (-5)%Z;
     num_vehicles := 1%Z;
     demands := [0; 3; 4]%Z;
     max_deliveries := 0%Z;
     depot_idx := 0%Z;
     costs := table_distances [] |}.

(** The sample over the steps [0 .. len(choice) - 1] that selects
    destination [choice[s]] at step [s] and nothing else, its variables
    listed step by step. *)
Definition one_hot_sample (problem : CVRPProblem) (choice : list Z)
    : list (var * Z) :=
  sc ← zip (seqZ 0 (Z.of_nat (length choice))) choice;
  d ← location_idx problem;
  [((sc.1, d), if decide (d = sc.2) then 1%Z else 0%Z)].

Definition sample_with_depot_stays : list (var * Z) :=
  one_hot_sample problem_two_by_two [1; 0; 2; 0]%Z.

Definition sample_with_idle_vehicle : list (var * Z) :=
  one_hot_sample problem_two_by_two [1; 2; 0; 0]%Z.

(** Both vehicles stay at the depot at every step. *)
Definition sample_all_idle : list (var * Z) :=
  one_hot_sample problem_two_by_two [0; 0; 0; 0]%Z.

(** A depot and two deliveries, one vehicle with two slots. *)
Definition problem_single_vehicle : CVRPProblem :=
  {| problem_identifier := "single-vehicle";
     location_idx := [0; 1; 2]%Z;
     coords := [];
     vehicle_capacity := 10%Z;
     num_vehicles := 1%Z;
     demands := [0; 3; 4]%Z;
     max_deliveries := 2%Z;
     depot_idx := 0%Z;
     costs := table_distances [] |}.

(** The same problem with the demand of the depot only. *)
Definition problem_short_demands : CVRPProblem :=
  {| problem_identifier := "short-demands";
     location_idx := [0; 1; 2]%Z;
     coords := [];
     vehicle_capacity := 10%Z;
     num_vehicles := 1%Z;
     demands := [0%Z];
     max_deliveries := 2%Z;
     depot_idx := 0%Z;
     costs := table_distances [] |}.

(** The same problem without a vehicle. *)
Definition problem_no_vehicle : CVRPProblem :=
  {| problem_identifier := "no-vehicle";
     location_idx := [0; 1; 2]%Z;
     coords := [];
     vehicle_capacity := 10%Z;
     num_vehicles := 0%Z;
     demands := [0; 3; 4]%Z;
     max_deliveries := 2%Z;
     depot_idx := 0%Z;
     costs := table_distances [] |}.

(** A distance provider that returns an empty matrix. *)
Definition no_distances (_ : list (Qc * Qc)) : list (list Qc) := [].

(** A distance provider defined on all coordinates: the squares of the
    Euclidean distances. *)
Definition squared_distances (cs : list (Qc * Qc)) : list (list Qc) :=
  (fun a => (fun b => (a.1 - b.1) * (a.1 - b.1) + (a.2 - b.2) * (a.2 - b.2))
              <$> cs) <$> cs.

(** A sampler that takes the first [k] packages. *)
Definition take_sample (l : list Package) (k : Z) : option (list Package) :=
  if decide (0 <= k <= Z.of_nat (length l))%Z
  then Some (take (Z.to_nat k) l) else None.

(** An instance file with six deliveries, and the distances of the
    locations [from_file] keeps of it. *)
Definition instance_six_deliveries : InstanceData :=
  {| data_name := "six-deliveries";
     data_origin := (ZtoQc 0, ZtoQc 0);
     data_vehicle_capacity := 10%Z;
     data_deliveries :=
       [ {| point_lat := ZtoQc 1; point_lng := ZtoQc 0; package_size := 2%Z |};
         {| point_lat := ZtoQc 0; point_lng := ZtoQc 1; package_size := 3%Z |};
         {| point_lat := ZtoQc 1; point_lng := ZtoQc 1; package_size := 1%Z |};
         {| point_lat := ZtoQc 2; point_lng := ZtoQc 0; package_size := 4%Z |};
         {| point_lat := ZtoQc 0; point_lng := ZtoQc 2; package_size := 2%Z |};
         {| point_lat := ZtoQc 3; point_lng := ZtoQc 3; package_size := 5%Z |}
       ] |}.

Definition instance_costs : list (list Qc) :=
  squared_distances
    (data_origin instance_six_deliveries ::
     ((fun pk => (point_lat pk, point_lng pk)) <$>
        take 5 (data_deliveries instance_six_deliveries))).

(** * Auxiliary facts about lists *)

Lemma filter_none {A : Type} (P : A -> Prop) `{!forall x, Decision (P x)}
    (l : list A) :
  Forall (fun x => ~ P x) l -> filter P l = [].
Proof.
  induction 1 as [|x l Hx _ IH]; [done|].
  by rewrite filter_cons_False.
Qed.

Lemma filter_all {A : Type} (P : A -> Prop) `{!forall x, Decision (P x)}
    (l : list A) :
  Forall P l -> filter P l = l.
Proof.
  induction 1 as [|x l Hx _ IH]; [done|].
  rewrite filter_cons_True by done. by rewrite IH.
Qed.

Lemma sumZ_app (l1 l2 : list Z) : sumZ (l1 ++ l2) = (sumZ l1 + sumZ l2)%Z.
Proof.
  unfold sumZ. induction l1 as [|x l1 IH]; [done|].
  cbn [app foldr]. rewrite IH. lia.
Qed.

Lemma sumQc_app (l1 l2 : list Qc) : sumQc (l1 ++ l2) = sumQc l1 + sumQc l2.
Proof.
  unfold sumQc. induction l1 as [|x l1 IH]; cbn [app foldr]; [ring|].
  rewrite IH. ring.
Qed.

Lemma sumQc_perm (l1 l2 : list Qc) : l1 ≡ₚ l2 -> sumQc l1 = sumQc l2.
Proof.
  unfold sumQc. induction 1 as [|x l1 l2 _ IH|x y l|l1 l2 l3 _ IH1 _ IH2];
    cbn [foldr]; [done|by rewrite IH|ring|by rewrite IH1].
Qed.

Lemma bind_ret_fmap {A B : Type} (g : A -> B) (l : list A) :
  l ≫= (fun x => [g x]) = g <$> l.
Proof. induction l as [|x l IH]; [done|]. by rewrite bind_cons, fmap_cons, IH. Qed.

Lemma fmap_bind {A B C : Type} (f : B -> C) (g : A -> list B) (l : list A) :
  f <$> (l ≫= g) = l ≫= (fun x => f <$> g x).
Proof.
  induction l as [|x l IH]; [done|]. by rewrite !bind_cons, fmap_app, IH.
Qed.

Lemma bind_app_perm {A B : Type} (f g : A -> list B) (l : list A) :
  l ≫= (fun x => f x ++ g x) ≡ₚ (l ≫= f) ++ (l ≫= g).
Proof.
  induction l as [|x l IH]; [done|].
  rewrite !bind_cons, IH.
  rewrite <- !(assoc_L (++)). f_equiv.
  rewrite !(assoc_L (++)). f_equiv. apply Permutation_app_comm.
Qed.

Lemma bind_perm_ext {A B : Type} (f g : A -> list B) (l : list A) :
  (forall x, f x ≡ₚ g x) -> l ≫= f ≡ₚ l ≫= g.
Proof.
  intros H. induction l as [|x l IH]; [done|].
  by rewrite !bind_cons, IH, H.
Qed.

Lemma bind_bind {A B C : Type} (f : A -> list B) (g : B -> list C)
    (l : list A) :
  (l ≫= f) ≫= g = l ≫= (fun x => f x ≫= g).
Proof.
  induction l as [|x l IH]; [done|]. by rewrite !bind_cons, bind_app, IH.
Qed.

(** [product] and [range]. *)

Lemma elem_of_product {A B : Type} (xs : list A) (ys : list B) (x : A) (y : B) :
  (x, y) ∈ product xs ys <-> x ∈ xs /\ y ∈ ys.
Proof.
  unfold product. rewrite list_elem_of_bind. split.
  - intros (x' & (y' & [= -> ->] & Hy)%list_elem_of_fmap & Hx). done.
  - intros [Hx Hy]. exists x. split; [|done]. by apply list_elem_of_fmap_2.
Qed.

Lemma NoDup_product {A B : Type} (xs : list A) (ys : list B) :
  NoDup xs -> NoDup ys -> NoDup (product xs ys).
Proof.
  intros Hxs Hys. unfold product. apply NoDup_bind; [| |done].
  - intros x1 x2 [a b] _ _ (y1 & [= -> ->] & _)%list_elem_of_fmap
      (y2 & [= -> _] & _)%list_elem_of_fmap. done.
  - intros x _. apply NoDup_fmap_2; [|done]. by intros y1 y2 [= ->].
Qed.

Lemma fmap_product {A B C : Type} (f : A * B -> C) (xs : list A)
    (ys : list B) :
  f <$> product xs ys = xs ≫= (fun x => f <$> (pair x <$> ys)).
Proof. unfold product. apply fmap_bind. Qed.

Lemma product_bind_l {A B C : Type} (f : A -> list B) (l : list A)
    (ys : list C) :
  product (l ≫= f) ys = l ≫= (fun x => product (f x) ys).
Proof. unfold product. apply bind_bind. Qed.

Lemma product_fmap_l {A B C : Type} (f : A -> B) (l : list A) (ys : list C) :
  product (f <$> l) ys = l ≫= (fun x => pair (f x) <$> ys).
Proof. unfold product. by rewrite list_fmap_bind. Qed.

Lemma product_bind {A B C : Type} (h : A * B -> list C) (xs : list A)
    (ys : list B) :
  product xs ys ≫= h = xs ≫= (fun x => ys ≫= (fun y => h (x, y))).
Proof.
  unfold product. rewrite bind_bind. apply list_bind_ext; [|done].
  intros x. by rewrite list_fmap_bind.
Qed.

Lemma elem_of_range (a b k : Z) : k ∈ range a b <-> (a <= k < b)%Z.
Proof. unfold range. rewrite elem_of_seqZ. lia. Qed.

Lemma NoDup_range (a b : Z) : NoDup (range a b).
Proof. apply NoDup_seqZ. Qed.

(** [combinations2] lists each unordered pair of a duplicate-free list
    once, in the order of the list. *)

Lemma elem_of_combinations2_cons {A : Type} (a : A) (l : list A) (x y : A) :
  (x, y) ∈ combinations2 (a :: l) <->
  (x = a /\ y ∈ l) \/ (x, y) ∈ combinations2 l.
Proof.
  cbn [combinations2]. rewrite elem_of_app, list_elem_of_fmap.
  split.
  - intros [(y' & [= -> ->] & Hy)|H]; [left|right]; done.
  - intros [[-> Hy]|H]; [left|right]; eauto.
Qed.

Lemma combinations2_elem {A : Type} (l : list A) (x y : A) :
  (x, y) ∈ combinations2 l -> x ∈ l /\ y ∈ l.
Proof.
  induction l as [|a l IH]; [by intros ?%elem_of_nil|].
  rewrite elem_of_combinations2_cons, !elem_of_cons.
  intros [[-> Hy]|H]; [auto|]. apply IH in H as [? ?]. auto.
Qed.

Lemma combinations2_NoDup {A : Type} (l : list A) :
  NoDup l -> NoDup (combinations2 l).
Proof.
  induction 1 as [|a l Ha Hnd IH]; [constructor|].
  cbn [combinations2]. apply NoDup_app. split_and!.
  - apply NoDup_fmap_2; [|done]. by intros y1 y2 [= ->].
  - intros [x y] (y' & [= -> ->] & Hy)%list_elem_of_fmap
      [Hx _]%combinations2_elem. done.
  - done.
Qed.

Lemma combinations2_distinct {A : Type} (l : list A) (x y : A) :
  NoDup l -> (x, y) ∈ combinations2 l ->
  x ≠ y /\ (y, x) ∉ combinations2 l.
Proof.
  induction 1 as [|a l Ha Hnd IH]; [by intros ?%elem_of_nil|].
  rewrite !elem_of_combinations2_cons.
  intros [[-> Hy]|H].
  - split; [by intros ->|]. intros [[-> _]|[_ Hx]%combinations2_elem]; done.
  - pose proof (combinations2_elem _ _ _ H) as [Hx Hy].
    apply IH in H as [Hne Hyx]. split; [done|].
    intros [[-> _]|?]; done.
Qed.

Lemma combinations2_total {A : Type} (l : list A) (x y : A) :
  x ∈ l -> y ∈ l -> x ≠ y ->
  (x, y) ∈ combinations2 l \/ (y, x) ∈ combinations2 l.
Proof.
  induction l as [|a l IH]; [by intros ?%elem_of_nil|].
  rewrite !elem_of_cons, !elem_of_combinations2_cons.
  intros [->|Hx] [->|Hy] Hne; try done; auto.
  destruct (IH Hx Hy Hne); auto.
Qed.

Lemma elem_of_combinations2_seqZ (n : nat) :
  forall (a s1 s2 : Z),
  (s1, s2) ∈ combinations2 (seqZ a (Z.of_nat n)) <->
  (a <= s1 < s2)%Z /\ (s2 < a + Z.of_nat n)%Z.
Proof.
  induction n as [|n IH]; intros a s1 s2.
  - cbn. split; [by intros ?%elem_of_nil|lia].
  - rewrite seqZ_cons by lia.
    replace (Z.pred (Z.of_nat (S n))) with (Z.of_nat n) by lia.
    rewrite elem_of_combinations2_cons, IH, elem_of_seqZ. lia.
Qed.

Lemma elem_of_combinations2_range (a b s1 s2 : Z) :
  (s1, s2) ∈ combinations2 (range a b) <-> (a <= s1 < s2)%Z /\ (s2 < b)%Z.
Proof.
  unfold range. destruct (decide (0 <= b - a)%Z) as [H|H].
  - rewrite <- (Z2Nat.id (b - a)) by done.
    rewrite elem_of_combinations2_seqZ. lia.
  - unfold seqZ. replace (Z.to_nat (b - a)) with 0%nat by lia. cbn.
    split; [by intros ?%elem_of_nil|lia].
Qed.

(** * Table lookups *)

Lemma getitem_ok {A : Type} (l : list A) (i : Z) :
  indexable l i -> exists a, getitem l i = Ok a.
Proof.
  unfold indexable, getitem. intros H.
  destruct (decide (i < 0)%Z).
  - rewrite decide_True by lia.
    destruct (lookup_lt_is_Some_2 l (Z.to_nat (Z.of_nat (length l) + i))) as [a Ha];
      [lia|]. rewrite Ha. eauto.
  - rewrite decide_True by lia.
    destruct (lookup_lt_is_Some_2 l (Z.to_nat i)) as [a Ha]; [lia|].
    rewrite Ha. eauto.
Qed.

Lemma getitem_elem_of {A : Type} (l : list A) (i : Z) (a : A) :
  getitem l i = Ok a -> a ∈ l.
Proof.
  unfold getitem. case_decide; [|done].
  destruct (l !! _) eqn:E; [|done]. intros [= ->].
  by eapply list_elem_of_lookup_2.
Qed.

Lemma getitem2_covers (m : list (list Qc)) (a b : Z) :
  covers m a -> covers m b -> getitem2 m a b = Ok (entry m a b).
Proof.
  intros [Ha _] [_ Hb]. unfold entry, getitem2.
  destruct (getitem_ok _ _ Ha) as [row Hrow]. rewrite Hrow. cbn.
  rewrite Forall_forall in Hb.
  destruct (getitem_ok row b) as [c ->]; [|done].
  apply Hb. by eapply getitem_elem_of.
Qed.

Lemma getitem2_ok (p : CVRPProblem) (a b : Z) :
  in_tables p a -> in_tables p b -> exists c, getitem2 (costs p) a b = Ok c.
Proof. intros [_ Ha] [_ Hb]. rewrite getitem2_covers by done. eauto. Qed.

Lemma cost_at_ok (p : CVRPProblem) (a b : Z) (c : Qc) :
  getitem2 (costs p) a b = Ok c -> cost_at p a b = c.
Proof. unfold cost_at, entry. by intros ->. Qed.

Lemma demand_at_ok (p : CVRPProblem) (d x : Z) :
  getitem (demands p) d = Ok x -> demand_at p d = x.
Proof. unfold demand_at. by intros ->. Qed.

Lemma demand_at_getitem (p : CVRPProblem) (d : Z) :
  indexable (demands p) d -> getitem (demands p) d = Ok (demand_at p d).
Proof.
  intros H. unfold demand_at. by destruct (getitem_ok _ _ H) as [x ->].
Qed.

(** The hypotheses of the theorems below can be decided on concrete
    problems and samples. *)

#[global] Instance indexable_dec {A : Type} (l : list A) (i : Z) :
  Decision (indexable l i).
Proof. unfold indexable. apply _. Defined.

#[global] Instance covers_dec (m : list (list Qc)) (d : Z) :
  Decision (covers m d).
Proof. unfold covers. apply _. Defined.

#[global] Instance in_tables_dec (p : CVRPProblem) (d : Z) :
  Decision (in_tables p d).
Proof. unfold in_tables. apply _. Defined.

#[global] Instance tables_cover_dec (p : CVRPProblem) (s : list (var * Z)) :
  Decision (tables_cover p s).
Proof. unfold tables_cover. apply _. Defined.

#[global] Instance perfect_dec (p : CVRPProblem) (s : list (var * Z)) :
  Decision (perfect p s).
Proof. unfold perfect. apply _. Defined.

(** * Coefficient maps as sums of terms

    A loop that only ever runs [variables[idx] += c] builds the map whose
    keys are the keys it touched and whose value at a key is the sum of
    the terms added there. *)

Lemma total_cons (k k' : key) (c : Qc) (l : list (key * Qc)) :
  total k ((k', c) :: l) = (if decide (k' = k) then c else 0) + total k l.
Proof.
  unfold total. destruct (decide (k' = k)) as [->|Hne].
  - rewrite filter_cons_True by done. reflexivity.
  - rewrite filter_cons_False by done. ring.
Qed.

Lemma total_app (k : key) (l1 l2 : list (key * Qc)) :
  total k (l1 ++ l2) = total k l1 + total k l2.
Proof. unfold total. by rewrite filter_app, fmap_app, sumQc_app. Qed.

Lemma total_absent (k : key) (l : list (key * Qc)) :
  k ∉ l.*1 -> total k l = 0.
Proof.
  induction l as [|[k' c] l IH]; [done|]. cbn [fmap list_fmap fst].
  intros [Hne Hl]%not_elem_of_cons. rewrite total_cons, IH by done.
  rewrite decide_False by done. ring.
Qed.

Lemma total_zero (k : key) (l : list (key * Qc)) :
  Forall (fun kc => kc.2 = 0) l -> total k l = 0.
Proof.
  induction 1 as [|[k' c] l Hc _ IH]; [done|].
  rewrite total_cons, IH. cbn in Hc. subst c.
  destruct (decide (k' = k)); ring.
Qed.

Lemma total_perm (k : key) (l1 l2 : list (key * Qc)) :
  l1 ≡ₚ l2 -> total k l1 = total k l2.
Proof. intros H. unfold total. apply sumQc_perm. by rewrite H. Qed.

Lemma keys_perm (k : key) (l1 l2 : list (key * Qc)) :
  l1 ≡ₚ l2 -> k ∈ l1.*1 <-> k ∈ l2.*1.
Proof. intros H. by rewrite H. Qed.

Lemma total_fmap_hit {A : Type} (f : A -> key) (g : A -> Qc) (l : list A)
    (a : A) :
  NoDup l -> (forall x y, x ∈ l -> y ∈ l -> f x = f y -> x = y) -> a ∈ l ->
  total (f a) ((fun x => (f x, g x)) <$> l) = g a.
Proof.
  induction 1 as [|x l Hx Hnd IH]; intros Hinj Ha; [by apply elem_of_nil in Ha|].
  rewrite fmap_cons, total_cons.
  apply elem_of_cons in Ha as [->|Ha].
  - rewrite decide_True by done. rewrite total_absent; [ring|].
    rewrite <- list_fmap_compose. intros (y & Hy & Hyl)%list_elem_of_fmap.
    cbn in Hy. apply Hinj in Hy; [by subst| |]; apply elem_of_cons; auto.
  - rewrite decide_False.
    + rewrite IH; [ring| |done].
      intros; apply Hinj; [apply elem_of_cons..|]; auto.
    + intros Heq. apply Hinj in Heq; [by subst| |]; apply elem_of_cons; auto.
Qed.

Lemma total_hit {A : Type} (h : A -> key * Qc) (l : list A) (a : A) :
  NoDup l -> (forall x y, x ∈ l -> y ∈ l -> (h x).1 = (h y).1 -> x = y) ->
  a ∈ l -> total (h a).1 (h <$> l) = (h a).2.
Proof.
  intros Hnd Hinj Ha.
  rewrite <- (total_fmap_hit (fun x => (h x).1) (fun x => (h x).2) l a)
    by done.
  f_equal. apply list_fmap_ext. intros _ x _. by destruct (h x).
Qed.

Lemma total_const {A : Type} (f : A -> key) (c : Qc) (l : list A) (k : key) :
  NoDup l -> (forall x y, x ∈ l -> y ∈ l -> f x = f y -> x = y) ->
  total k ((fun x => (f x, c)) <$> l) =
    if decide (k ∈ f <$> l) then c else 0.
Proof.
  intros Hnd Hinj. destruct (decide (k ∈ f <$> l)) as [Hk|Hk].
  - apply list_elem_of_fmap in Hk as (a & -> & Ha).
    by apply (total_hit (fun x => (f x, c)) l a).
  - apply total_absent. by rewrite <- list_fmap_compose.
Qed.

Lemma dict_add_lookup (d : gmap key Qc) (k0 k : key) (c : Qc) :
  dict_add d k0 c !! k =
    if decide (k0 = k) then Some (dict_get d k + c) else d !! k.
Proof.
  unfold dict_add, dict_get. destruct (decide (k0 = k)) as [->|Hne].
  - by rewrite lookup_insert_eq.
  - by rewrite lookup_insert_ne.
Qed.

Lemma dict_get_add (d : gmap key Qc) (k0 k : key) (c : Qc) :
  dict_get (dict_add d k0 c) k =
    dict_get d k + (if decide (k0 = k) then c else 0).
Proof.
  unfold dict_get at 1. rewrite dict_add_lookup.
  destruct (decide (k0 = k)); cbn; [done|]. unfold dict_get. ring.
Qed.

Lemma dict_get_empty (k : key) : dict_get ∅ k = 0.
Proof. unfold dict_get. by rewrite lookup_empty. Qed.

Lemma emit_lookup (terms : list (key * Qc)) :
  forall (d : gmap key Qc) (k : key),
  emit d terms !! k =
    if decide (k ∈ terms.*1) then Some (dict_get d k + total k terms)
    else d !! k.
Proof.
  induction terms as [|[k0 c0] terms IH]; intros d k.
  - cbn. rewrite decide_False; [done|]. apply not_elem_of_nil.
  - change (emit d ((k0, c0) :: terms)) with (emit (dict_add d k0 c0) terms).
    rewrite IH, total_cons, dict_get_add, dict_add_lookup.
    cbn [fmap list_fmap fst].
    destruct (decide (k ∈ terms.*1)) as [Hin|Hnin].
    + rewrite (decide_True (P := k ∈ k0 :: terms.*1))
        by (apply elem_of_cons; by right).
      f_equal. ring.
    + destruct (decide (k0 = k)) as [->|Hne].
      * rewrite (decide_True (P := k ∈ k :: terms.*1))
          by (apply elem_of_cons; by left).
        rewrite total_absent by done. f_equal. ring.
      * rewrite (decide_False (P := k ∈ k0 :: terms.*1)); [done|].
        intros [->|?]%elem_of_cons; done.
Qed.

Lemma emit_app (d : gmap key Qc) (l1 l2 : list (key * Qc)) :
  emit d (l1 ++ l2) = emit (emit d l1) l2.
Proof. unfold emit. by rewrite foldl_app. Qed.

Lemma for_loop_emit {A : Type} (body : gmap key Qc -> A -> result (gmap key Qc))
    (g : A -> list (key * Qc)) (l : list A) :
  (forall d a, a ∈ l -> body d a = Ok (emit d (g a))) ->
  forall d, for_loop body d l = Ok (emit d (l ≫= g)).
Proof.
  induction l as [|a l IH]; intros Hbody d; [done|].
  cbn [for_loop]. rewrite Hbody by (apply elem_of_cons; by left).
  cbn [mbind result_bind].
  rewrite IH by (intros; apply Hbody, elem_of_cons; by right).
  by rewrite bind_cons, emit_app.
Qed.

Lemma foldl_emit {A : Type} (f : gmap key Qc -> A -> gmap key Qc)
    (g : A -> list (key * Qc)) (l : list A) :
  (forall d a, f d a = emit d (g a)) ->
  forall d, foldl f d l = emit d (l ≫= g).
Proof.
  intros Hf. induction l as [|a l IH]; intros d; [done|].
  cbn [foldl]. rewrite Hf, IH. by rewrite bind_cons, emit_app.
Qed.

Lemma for_loop_product_emit {A B : Type}
    (body : gmap key Qc -> A * B -> result (gmap key Qc))
    (g : A * B -> key * Qc) (l : list (A * B)) :
  (forall d x, x ∈ l -> body d x = Ok (dict_add d (g x).1 (g x).2)) ->
  forall d, for_loop body d l = Ok (emit d (g <$> l)).
Proof.
  intros Hbody d.
  rewrite (for_loop_emit body (fun x => [g x])).
  - by rewrite bind_ret_fmap.
  - intros d' x Hx. by rewrite Hbody.
Qed.

(** A loop over vehicles whose pass adds the terms of a block and moves
    [start] by [n]. *)
Section BlockLoop.

Variable pass : gmap key Qc * Z -> Z -> result (gmap key Qc * Z).
Variable block : Z -> list (key * Qc).
Variable n : Z.
Hypothesis Hpass : forall variables start vehicle,
  pass (variables, start) vehicle =
    Ok (emit variables (block start), (start + n)%Z).

Lemma block_loop_emit (vs : list Z) :
  forall (variables : gmap key Qc) (j : Z),
  for_loop pass (variables, (j * n)%Z) vs =
    Ok (emit variables
          (seqZ j (Z.of_nat (length vs)) ≫= fun v => block (v * n)%Z),
        ((j + Z.of_nat (length vs)) * n)%Z).
Proof.
  induction vs as [|v vs IH]; intros variables j.
  - cbn. by rewrite Z.add_0_r.
  - cbn [for_loop]. rewrite Hpass. cbn [mbind result_bind].
    replace (j * n + n)%Z with ((j + 1) * n)%Z by lia.
    rewrite IH. rewrite (seqZ_cons j) by (cbn [length]; lia).
    rewrite bind_cons, emit_app.
    replace (Z.pred (Z.of_nat (length (v :: vs)))) with (Z.of_nat (length vs))
      by (cbn [length]; lia).
    replace (Z.succ j) with (j + 1)%Z by lia.
    do 2 f_equal. cbn [length]. f_equal. lia.
Qed.

Lemma block_loop_range (variables : gmap key Qc) (V : Z) :
  exists stop,
  for_loop pass (variables, 0%Z) (range 0 V) =
    Ok (emit variables (range 0 V ≫= fun v => block (v * n)%Z), stop).
Proof.
  pose proof (block_loop_emit (range 0 V) variables 0) as H.
  rewrite Z.mul_0_l in H. rewrite H. eexists. do 3 f_equal.
  unfold range. rewrite length_seqZ, Z.sub_0_r.
  unfold seqZ. by rewrite Nat2Z.id.
Qed.

End BlockLoop.

(** * The decoder *)

(** ** The routes are the closed complete blocks *)
Section DecoderRoutes.

Local Open Scope Z_scope.

Lemma full_blocks_short (n : nat) (l : list Z) :
  (length l < n)%nat -> full_blocks n l = [].
Proof.
  intros H. unfold full_blocks. rewrite Nat.div_small by lia. done.
Qed.

Lemma full_blocks_app (n : nat) (c l : list Z) :
  (0 < n)%nat -> length c = n -> full_blocks n (c ++ l) = c :: full_blocks n l.
Proof.
  intros Hn Hc. unfold full_blocks.
  rewrite length_app, Hc.
  replace ((n + length l) / n)%nat with (S (length l / n)).
  2:{ replace (n + length l)%nat with (1 * n + length l)%nat by lia.
      rewrite Nat.div_add_l by lia. lia. }
  cbn [seq fmap list_fmap]. f_equal.
  - unfold block_of. rewrite Nat.mul_0_l, drop_0, take_app_length'; done.
  - rewrite <- fmap_S_seq, <- list_fmap_compose.
    apply list_fmap_ext. intros _ i _. unfold block_of; simpl.
    rewrite <- drop_drop, drop_app_length'; done.
Qed.

Lemma full_blocks_length (n : nat) (sel : list Z) :
  length (full_blocks n sel) = (length sel / n)%nat.
Proof. unfold full_blocks. by rewrite length_fmap, length_seq. Qed.

Lemma full_blocks_lookup (n : nat) (sel : list Z) (v : nat) :
  (v < length sel / n)%nat ->
  full_blocks n sel !! v = Some (block_of n sel v).
Proof.
  intros Hv. unfold full_blocks. rewrite list_lookup_fmap, lookup_seq_lt by done.
  done.
Qed.

Lemma full_blocks_elem (n : nat) (sel blk : list Z) :
  blk ∈ full_blocks n sel ->
  exists v, (v < length sel / n)%nat /\ blk = block_of n sel v.
Proof.
  unfold full_blocks. intros (v & -> & Hv)%list_elem_of_fmap.
  apply elem_of_seq in Hv. exists v. split; [lia|done].
Qed.

Lemma block_of_subseteq (n : nat) (sel : list Z) (v : nat) :
  block_of n sel v ⊆ sel.
Proof.
  unfold block_of. intros x Hx.
  apply subseteq_take in Hx. by apply subseteq_drop in Hx.
Qed.

Lemma block_of_length (n : nat) (sel : list Z) (v : nat) :
  ((v + 1) * n <= length sel)%nat -> length (block_of n sel v) = n.
Proof.
  intros H. unfold block_of. rewrite length_take, length_drop. lia.
Qed.

Lemma selected_cons_1 s dest sample :
  selected (((s, dest), 1) :: sample) = dest :: selected sample.
Proof. unfold selected. rewrite filter_cons_True; done. Qed.

Lemma selected_cons_0 s dest bit sample :
  bit ≠ 1 -> selected (((s, dest), bit) :: sample) = selected sample.
Proof. intros H. unfold selected. rewrite filter_cons_False; done. Qed.

Lemma selected_length_steps (sample : list (var * Z)) :
  length (selected sample) = length (selected_steps sample).
Proof. unfold selected, selected_steps. by rewrite !length_fmap. Qed.

Lemma decode_loop_inv (p : CVRPProblem) (sample : list (var * Z)) :
  0 < max_deliveries p ->
  forall (all : list (list Z)) (pend : list Z) (k : Z),
  (length pend < Z.to_nat (max_deliveries p))%nat ->
  0 <= k < Z.max (num_vehicles p) 1 ->
  decode_loop p sample all (filter (fun d => d ≠ 0) pend) k
      (Z.of_nat (length pend)) =
    all ++ (close_route p <$>
      take (Z.to_nat (Z.max (num_vehicles p) 1 - k))
        (full_blocks (Z.to_nat (max_deliveries p)) (pend ++ selected sample))).
Proof.
  intros HM. induction sample as [|[[s dest] bit] sample IH];
    intros all pend k Hpend Hk.
  - cbn [decode_loop]. unfold selected; cbn. rewrite app_nil_r.
    rewrite full_blocks_short by done. rewrite take_nil. cbn.
    by rewrite app_nil_r.
  - cbn [decode_loop]. destruct (decide (bit = 1)) as [->|Hbit].
    2:{ rewrite selected_cons_0 by done. by apply IH. }
    rewrite selected_cons_1.
    replace (pend ++ dest :: selected sample)
      with ((pend ++ [dest]) ++ selected sample) by (by rewrite <- app_assoc).
    assert (Hvr :
      (if decide (dest ≠ 0) then filter (fun d => d ≠ 0) pend ++ [dest]
       else filter (fun d => d ≠ 0) pend)
      = filter (fun d => d ≠ 0) (pend ++ [dest])).
    { rewrite filter_app. destruct (decide (dest ≠ 0)).
      - by rewrite filter_cons_True.
      - rewrite filter_cons_False by done. cbn. by rewrite app_nil_r. }
    rewrite Hvr.
    assert (Hst : Z.of_nat (length pend) + 1
                  = Z.of_nat (length (pend ++ [dest]))).
    { rewrite length_app; cbn; lia. }
    rewrite Hst.
    destruct (decide (max_deliveries p = Z.of_nat (length (pend ++ [dest]))))
      as [HeqM|HneM].
    + rewrite full_blocks_app by lia.
      replace (Z.to_nat (Z.max (num_vehicles p) 1 - k))
        with (S (Z.to_nat (Z.max (num_vehicles p) 1 - (k + 1)))) by lia.
      cbn [take fmap list_fmap].
      destruct (decide (num_vehicles p <= k + 1)) as [Hbreak|Hcont].
      * replace (Z.to_nat (Z.max (num_vehicles p) 1 - (k + 1)))
          with 0%nat by lia.
        rewrite take_0. done.
      * change
          (decode_loop p sample (all ++ [close_route p (pend ++ [dest])])
             [] (k + 1) 0 =
           all ++ close_route p (pend ++ [dest]) ::
             (close_route p <$>
                take (Z.to_nat (Z.max (num_vehicles p) 1 - (k + 1)))
                  (full_blocks (Z.to_nat (max_deliveries p))
                     (selected sample)))).
        rewrite (IH _ [] (k + 1)) by (cbn; lia).
        rewrite <- app_assoc. reflexivity.
    + rewrite <- Hst. rewrite Hst. apply IH; [|done].
      rewrite length_app in *; cbn in *; lia.
Qed.

Lemma decode_loop_never (p : CVRPProblem) (sample : list (var * Z)) :
  max_deliveries p <= 0 ->
  forall (all : list (list Z)) (vr : list Z) (k step : Z),
  0 <= step -> decode_loop p sample all vr k step = all.
Proof.
  intros HM. induction sample as [|[[s dest] bit] sample IH];
    intros all vr k step Hstep; cbn [decode_loop]; [done|].
  destruct (decide (bit = 1)); [|by apply IH].
  destruct (decide (max_deliveries p = step + 1)); [lia|].
  apply IH; lia.
Qed.

Lemma decode_loop_spec (p : CVRPProblem) (sample : list (var * Z)) :
  decode_loop p sample [] [] 0 0 = decoded_routes p sample.
Proof.
  unfold decoded_routes. destruct (decide (0 < max_deliveries p)) as [HM|HM].
  - pose proof (decode_loop_inv p sample HM [] [] 0) as H.
    rewrite Z.sub_0_r in H. apply H; cbn; lia.
  - rewrite decode_loop_never by lia.
    replace (Z.to_nat (max_deliveries p)) with 0%nat by lia.
    unfold full_blocks. rewrite Nat.div_0_r. cbn. by rewrite take_nil.
Qed.

Lemma decoded_routes_length (p : CVRPProblem) (sample : list (var * Z)) :
  length (decoded_routes p sample) =
    Nat.min (Z.to_nat (Z.max (num_vehicles p) 1))
      (length (selected sample) / Z.to_nat (max_deliveries p))%nat.
Proof.
  unfold decoded_routes. by rewrite length_fmap, length_take, full_blocks_length.
Qed.

Lemma decoded_routes_lookup (p : CVRPProblem) (sample : list (var * Z))
    (v : nat) :
  (v < Z.to_nat (Z.max (num_vehicles p) 1))%nat ->
  (v < length (selected sample) / Z.to_nat (max_deliveries p))%nat ->
  decoded_routes p sample !! v =
    Some (close_route p (block_of (Z.to_nat (max_deliveries p))
                           (selected sample) v)).
Proof.
  intros Hv Hq. unfold decoded_routes.
  rewrite list_lookup_fmap, lookup_take_lt by done.
  by rewrite full_blocks_lookup.
Qed.

Lemma decoded_routes_elem (p : CVRPProblem) (sample : list (var * Z))
    (r : list Z) :
  r ∈ decoded_routes p sample ->
  exists v, (v < length (selected sample) / Z.to_nat (max_deliveries p))%nat /\
    r = close_route p (block_of (Z.to_nat (max_deliveries p))
                         (selected sample) v).
Proof.
  unfold decoded_routes. intros (blk & -> & Hblk)%list_elem_of_fmap.
  apply subseteq_take in Hblk.
  apply full_blocks_elem in Hblk as (v & Hv & ->). eauto.
Qed.

Lemma close_route_ends (p : CVRPProblem) (blk : list Z) :
  head (close_route p blk) = Some (depot_idx p) /\
  last (close_route p blk) = Some (depot_idx p).
Proof.
  unfold close_route. split; [done|].
  by rewrite app_comm_cons, last_snoc.
Qed.

Lemma close_route_length (p : CVRPProblem) (blk : list Z) :
  length (close_route p blk) =
    (2 + length (filter (fun d => d ≠ 0%Z) blk))%nat.
Proof. unfold close_route. cbn. rewrite length_app. cbn. lia. Qed.

Lemma perfect_selected_length (p : CVRPProblem) (sample : list (var * Z)) :
  0 < max_deliveries p -> 0 <= num_vehicles p -> perfect p sample ->
  length (selected sample) =
    (Z.to_nat (num_vehicles p) * Z.to_nat (max_deliveries p))%nat.
Proof.
  intros HM HV (_ & _ & Hsteps & _).
  rewrite selected_length_steps, Hsteps, length_seqZ.
  rewrite Z2Nat.inj_mul by lia. done.
Qed.

End DecoderRoutes.

(** ** Recomputing the cost and the demands *)

Lemma route_cost_cons (p : CVRPProblem) (a b : Z) (r : list Z) :
  route_cost p (a :: b :: r) = cost_at p a b + route_cost p (b :: r).
Proof. reflexivity. Qed.

Lemma route_cost_single (p : CVRPProblem) (a : Z) : route_cost p [a] = 0.
Proof. reflexivity. Qed.

Lemma wrap_int64_fits (z : Z) : fits_int64 z -> wrap_int64 z = z.
Proof.
  unfold fits_int64, wrap_int64. intros H.
  rewrite Z.mod_small; lia.
Qed.

Lemma wrap_int64_add (a b : Z) :
  wrap_int64 (wrap_int64 a + b) = wrap_int64 (a + b).
Proof.
  unfold wrap_int64. f_equal.
  replace ((a + 2 ^ 63) mod 2 ^ 64 - 2 ^ 63 + b + 2 ^ 63)%Z
    with ((a + 2 ^ 63) mod 2 ^ 64 + b)%Z by lia.
  rewrite Zplus_mod_idemp_l. f_equal. lia.
Qed.

Lemma wrap_int64_range (z : Z) : fits_int64 (wrap_int64 z).
Proof.
  unfold fits_int64, wrap_int64.
  pose proof (Z.mod_pos_bound (z + 2 ^ 63) (2 ^ 64)) as H. lia.
Qed.

Lemma leg_loop_ok (p : CVRPProblem) (rest : list Z) :
  forall (c : Qc) (ds prev : Z) (c' : Qc) (ds' prev' : Z),
  for_loop (fun '(cost, demands_size, prev) dest =>
        c ← getitem2 (costs p) prev dest;
        d ← getitem (demands p) dest;
        Ok (cost + c, wrap_int64 (demands_size + d), dest)) (c, ds, prev) rest
    = Ok (c', ds', prev') ->
  c' = c + route_cost p (prev :: rest) /\
  ds' = match rest with
        | [] => ds
        | _ => wrap_int64 (ds + sumZ (demand_at p <$> rest))
        end /\
  prev' = default prev (last rest).
Proof.
  induction rest as [|dest rest IH]; intros c ds prev c' ds' prev'.
  - cbn [for_loop]. intros [= <- <- <-]. rewrite route_cost_single. cbn.
    split; [ring|]. done.
  - cbn [for_loop].
    destruct (getitem2 (costs p) prev dest) as [x|] eqn:Ex; [|done].
    destruct (getitem (demands p) dest) as [y|] eqn:Ey; [|done].
    intros H. cbn in H. apply IH in H as (-> & -> & ->).
    rewrite route_cost_cons, (cost_at_ok _ _ _ _ Ex).
    change (sumZ (demand_at p <$> dest :: rest))
      with (demand_at p dest + sumZ (demand_at p <$> rest))%Z.
    rewrite (demand_at_ok _ _ _ Ey).
    split; [ring|]. split.
    + destruct rest as [|dest' rest'].
      * cbn. f_equal. lia.
      * rewrite wrap_int64_add. f_equal. lia.
    + rewrite last_cons. by destruct (last rest).
Qed.

Lemma interior_close_route (p : CVRPProblem) (blk : list Z) :
  interior (close_route p blk) = filter (fun d => d ≠ 0%Z) blk.
Proof.
  unfold interior, close_route. cbn [length].
  rewrite length_app. cbn [length].
  replace (S (length (filter (fun d => d ≠ 0%Z) blk) + 1) - 1)%nat
    with (S (length (filter (fun d => d ≠ 0%Z) blk))) by lia.
  cbn [take drop]. rewrite drop_0. by rewrite take_app_length.
Qed.

Lemma route_pass_closed (p : CVRPProblem) (blk : list Z) (c c' : Qc)
    (td td' : list Z) :
  route_pass p (c, td) (close_route p blk) = Ok (c', td') ->
  c' = c + route_cost p (close_route p blk)
         + cost_at p (depot_idx p) (depot_idx p) /\
  td' = td ++ [wrap_int64 (route_demand p (close_route p blk)
                           + demand_at p (depot_idx p))].
Proof.
  unfold route_pass. unfold close_route at 1.
  destruct (for_loop _ _ _) as [[[c1 ds1] prev1]|] eqn:E; [|done].
  apply leg_loop_ok in E as (-> & -> & ->).
  rewrite last_snoc.
  change (default (depot_idx p) (Some (depot_idx p))) with (depot_idx p).
  cbn [mbind result_bind].
  destruct (getitem2 _ _ _) as [x|] eqn:Ex; [|done].
  intros [= <- <-]. rewrite (cost_at_ok _ _ _ _ Ex).
  split; [done|]. unfold route_demand. rewrite interior_close_route.
  destruct (filter (fun d => d ≠ 0%Z) blk ++ [depot_idx p]) as [|d0 l0] eqn:El.
  { by destruct (filter (fun d => d ≠ 0%Z) blk). }
  rewrite <- El. rewrite fmap_app, sumZ_app. cbn. do 3 f_equal. lia.
Qed.

Lemma routes_loop_closed (p : CVRPProblem) (blks : list (list Z)) :
  forall (c c' : Qc) (td td' : list Z),
  for_loop (route_pass p) (c, td) (close_route p <$> blks) = Ok (c', td') ->
  c' = c + sumQc ((fun r => route_cost p r
                     + cost_at p (depot_idx p) (depot_idx p))
                   <$> (close_route p <$> blks)) /\
  td' = td ++ ((fun r => wrap_int64 (route_demand p r
                                     + demand_at p (depot_idx p)))
                 <$> (close_route p <$> blks)).
Proof.
  induction blks as [|blk blks IH]; intros c c' td td'.
  - cbn. intros [= <- <-]. split; [ring|by rewrite app_nil_r].
  - rewrite fmap_cons. cbn [for_loop].
    destruct (route_pass p (c, td) (close_route p blk)) as [[c1 td1]|] eqn:E;
      [|done].
    apply route_pass_closed in E as [-> ->].
    intros H. cbn [mbind result_bind] in H. apply IH in H as [-> ->].
    rewrite !fmap_cons.
    split; [|by rewrite <- app_assoc].
    unfold sumQc. cbn [foldr]. ring.
Qed.

Lemma leg_loop_total (p : CVRPProblem) (rest : list Z) :
  forall (c : Qc) (ds prev : Z),
  Forall (in_tables p) (prev :: rest) ->
  exists st, for_loop (fun '(cost, demands_size, prev) dest =>
        c ← getitem2 (costs p) prev dest;
        d ← getitem (demands p) dest;
        Ok (cost + c, wrap_int64 (demands_size + d), dest)) (c, ds, prev) rest
    = Ok st.
Proof.
  induction rest as [|dest rest IH]; intros c ds prev H.
  - cbn. eauto.
  - apply Forall_cons in H as [Hp H].
    pose proof H as Hd%Forall_cons_1. destruct Hd as [Hd _].
    cbn [for_loop].
    destruct (getitem2_ok p prev dest Hp Hd) as [x ->].
    destruct Hd as [Hd' _]. destruct (getitem_ok _ _ Hd') as [y ->].
    cbn. by apply IH.
Qed.

Lemma route_pass_total (p : CVRPProblem) (st : Qc * list Z) (r : list Z) :
  in_tables p (depot_idx p) -> Forall (in_tables p) r ->
  exists st', route_pass p st r = Ok st'.
Proof.
  intros Hdep Hr. destruct st as [c td]. destruct r as [|prev rest]; cbn.
  - eauto.
  - destruct (leg_loop_total p rest c 0%Z prev Hr) as [[[c1 ds1] prev1] E].
    pose proof (leg_loop_ok _ _ _ _ _ _ _ _ E) as (_ & _ & Hprev).
    rewrite E. cbn.
    assert (Hin : in_tables p prev1).
    { rewrite Forall_forall in Hr. apply Hr. subst prev1.
      destruct (last rest) as [z|] eqn:El; cbn.
      - right. by eapply last_Some_elem_of.
      - left. }
    destruct (getitem2_ok p prev1 (depot_idx p) Hin Hdep) as [x ->].
    cbn. eauto.
Qed.

Lemma routes_loop_total (p : CVRPProblem) (rs : list (list Z)) :
  in_tables p (depot_idx p) -> Forall (Forall (in_tables p)) rs ->
  forall st, exists st', for_loop (route_pass p) st rs = Ok st'.
Proof.
  intros Hdep. induction rs as [|r rs IH]; intros H st.
  - cbn. eauto.
  - apply Forall_cons in H as [Hr H]. cbn [for_loop].
    destruct (route_pass_total p st r Hdep Hr) as [st1 ->]. cbn. by apply IH.
Qed.

Lemma decoded_routes_in_tables (p : CVRPProblem) (sample : list (var * Z)) :
  tables_cover p sample ->
  Forall (Forall (in_tables p)) (decoded_routes p sample).
Proof.
  intros [Hdep Hsel]. rewrite Forall_forall. intros r Hr.
  apply decoded_routes_elem in Hr as (v & _ & ->).
  unfold close_route. apply Forall_cons. split; [done|].
  apply Forall_app. split; [|by apply Forall_singleton].
  rewrite Forall_forall in *. intros d Hd.
  apply list_elem_of_filter in Hd as [_ Hd].
  apply Hsel. by eapply block_of_subseteq.
Qed.

#[global] Instance rectangular_dec (rows : list (list Z)) :
  Decision (rectangular rows).
Proof. destruct rows; apply _. Defined.

Lemma np_array_ok (rows : list (list Z)) :
  rectangular rows -> np_array rows = Ok rows.
Proof.
  destruct rows as [|row rows]; [done|]. cbn. intros H.
  by rewrite decide_True.
Qed.

Lemma rectangular_same_length (rows : list (list Z)) (n : nat) :
  Forall (fun row => length row = n) rows -> rectangular rows.
Proof.
  destruct rows as [|row rows]; [done|]. cbn.
  intros [Hrow Hrows]%Forall_cons.
  eapply Forall_impl; [exact Hrows|]. cbn. congruence.
Qed.

Lemma np_array_inv (rows arr : list (list Z)) :
  np_array rows = Ok arr -> arr = rows /\ rectangular rows.
Proof.
  destruct rows as [|row rows]; cbn.
  - by intros [= <-].
  - destruct (decide _); [|done]. by intros [= <-].
Qed.

Lemma np_array_raise (rows : list (list Z)) (e : exn) :
  np_array rows = Raise e -> e = ValueError /\ ~ rectangular rows.
Proof.
  destruct rows as [|row rows]; cbn; [done|].
  destruct (decide _); [done|]. by intros [= <-].
Qed.

Lemma recompute_total (p : CVRPProblem) (sample : list (var * Z)) :
  tables_cover p sample ->
  exists st, for_loop (route_pass p) (0, [])
               (decode_loop p sample [] [] 0%Z 0%Z) = Ok st.
Proof.
  intros H. rewrite decode_loop_spec.
  apply routes_loop_total; [apply H|by apply decoded_routes_in_tables].
Qed.

Lemma unwrap_total (p : CVRPProblem) (sample : list (var * Z)) :
  tables_cover p sample -> rectangular (decoded_routes p sample) ->
  exists sol, unwrap_qbsolv_solution p sample = Ok sol.
Proof.
  intros H Hrect. unfold unwrap_qbsolv_solution.
  destruct (recompute_total p sample H) as [[c td] ->].
  rewrite decode_loop_spec, (np_array_ok _ Hrect). cbn. eauto.
Qed.

Lemma unwrap_rectangular (p : CVRPProblem) (sample : list (var * Z))
    (sol : CVRPSolution) :
  unwrap_qbsolv_solution p sample = Ok sol ->
  rectangular (decoded_routes p sample).
Proof.
  unfold unwrap_qbsolv_solution. rewrite decode_loop_spec.
  destruct (for_loop _ _ _) as [[c td]|]; [|done]. cbn.
  destruct (np_array _) as [arr|] eqn:E; [|done].
  intros _. by apply np_array_inv in E as [_ ?].
Qed.

Lemma decoded_routes_rectangular (p : CVRPProblem)
    (sample : list (var * Z)) :
  Forall (fun d => d ≠ 0%Z) (selected sample) ->
  rectangular (decoded_routes p sample).
Proof.
  intros Hnz.
  apply (rectangular_same_length _ (2 + Z.to_nat (max_deliveries p))).
  rewrite Forall_forall. intros r (v & Hv & ->)%decoded_routes_elem.
  rewrite close_route_length, filter_all.
  - rewrite block_of_length; [done|].
    pose proof (Nat.Div0.mul_div_le (length (selected sample))
                  (Z.to_nat (max_deliveries p))). nia.
  - rewrite Forall_forall in *. intros d Hd. apply Hnz.
    by eapply block_of_subseteq.
Qed.

Lemma unwrap_inv (p : CVRPProblem) (sample : list (var * Z))
    (sol : CVRPSolution) :
  unwrap_qbsolv_solution p sample = Ok sol ->
  routes sol = decoded_routes p sample /\
  cost sol = sumQc ((fun r => route_cost p r
                      + cost_at p (depot_idx p) (depot_idx p))
                    <$> decoded_routes p sample) /\
  total_demands sol =
    (fun r => wrap_int64 (route_demand p r + demand_at p (depot_idx p)))
      <$> decoded_routes p sample.
Proof.
  unfold unwrap_qbsolv_solution. rewrite decode_loop_spec.
  destruct (for_loop _ _ _) as [[c td]|] eqn:E; [|done].
  cbn. destruct (np_array _) as [arr|] eqn:Ea; [|done].
  apply np_array_inv in Ea as [-> _].
  cbn. intros [= <-]. cbn.
  unfold decoded_routes in E |- *.
  apply routes_loop_closed in E as [-> ->].
  split; [done|]. split; [ring|done].
Qed.

(** * The routing objective *)

(** ** [vrp_objective_function] adds [vrp_terms] *)
Section VrpEmit.

Variables (p : CVRPProblem) (distances : list (list Qc)) (cc : Qc).
Hypothesis Hloc : forall d, d ∈ location_idx p -> covers distances d.
Hypothesis Hdepot : location_idx p ≠ [] -> covers distances (depot_idx p).

Lemma vrp_vehicle_pass_emit (variables : gmap key Qc) (start vehicle : Z) :
  vrp_vehicle_pass p distances cc (variables, start) vehicle =
    Ok (emit variables (vrp_block_terms p distances cc start),
        (start + (num_locations p - 1))%Z).
Proof.
  unfold vrp_vehicle_pass, vrp_block_terms, num_locations.
  set (max_final := (start + Z.of_nat (length (location_idx p)) - 2)%Z).
  replace (start - 1 + 1)%Z with start by lia.
  rewrite (for_loop_emit _ (fun step => adjacent_term distances cc <$>
             (pair step <$> product (location_idx p) (location_idx p)))).
  2:{ intros d step _.
      rewrite (for_loop_product_emit _
                 (fun x => adjacent_term distances cc (step, x))).
      - by rewrite <- list_fmap_compose.
      - intros d' [n1 n2] [H1 H2]%elem_of_product.
        rewrite getitem2_covers by auto. done. }
  cbn [mbind result_bind].
  rewrite (for_loop_emit _ (fun d =>
             [first_term p distances cc (start, d);
              last_term p distances cc (max_final, d)])).
  2:{ intros d x Hx.
      assert (location_idx p ≠ [])
        by (intros E; rewrite E in Hx; inversion Hx).
      rewrite !getitem2_covers by auto. done. }
  cbn [mbind result_bind]. rewrite emit_app.
  f_equal. f_equal; [|lia].
  f_equal. f_equal. by rewrite fmap_product.
Qed.

Lemma vrp_loop_range :
  exists stop,
  for_loop (vrp_vehicle_pass p distances cc) (∅, 0%Z)
      (range 0 (num_vehicles p)) =
    Ok (emit ∅ (vrp_terms p distances cc), stop).
Proof using Hloc Hdepot.
  apply (block_loop_range _ (vrp_block_terms p distances cc)
           (num_locations p - 1)).
  apply vrp_vehicle_pass_emit.
Qed.

End VrpEmit.

Lemma vrp_objective_function_emit
    (compute_distances : list (Qc * Qc) -> list (list Qc))
    (p : CVRPProblem) (cc : Qc) :
  Forall (covers (compute_distances (coords p))) (location_idx p) ->
  (location_idx p ≠ [] -> covers (compute_distances (coords p)) (depot_idx p)) ->
  vrp_objective_function compute_distances p cc =
    Ok (emit ∅ (vrp_terms p (compute_distances (coords p)) cc)).
Proof.
  intros Hloc Hdep. unfold vrp_objective_function.
  destruct (vrp_loop_range p (compute_distances (coords p)) cc)
    as [stop ->]; [by apply Forall_forall|done|done].
Qed.

(** ** The three families of terms *)

Lemma vrp_terms_families (p : CVRPProblem) (distances : list (list Qc))
    (cc : Qc) :
  vrp_terms p distances cc ≡ₚ
    adjacent_terms p distances cc ++ first_terms p distances cc
      ++ last_terms p distances cc.
Proof.
  unfold vrp_terms, vrp_block_terms.
  rewrite bind_app_perm. f_equiv.
  - unfold adjacent_terms, adj_steps.
    rewrite product_bind_l, fmap_bind. done.
  - etrans.
    { apply (bind_perm_ext _ (fun v =>
        (first_term p distances cc <$>
           (pair (first_step p v) <$> location_idx p)) ++
        (last_term p distances cc <$>
           (pair (last_step p v) <$> location_idx p)))).
      intros v. unfold last_step.
      change (location_idx p ≫= _) with
        (location_idx p ≫= (fun d =>
           [first_term p distances cc (first_step p v, d)] ++
           [last_term p distances cc
              ((first_step p v + num_locations p - 2)%Z, d)])).
      rewrite bind_app_perm.
      rewrite !bind_ret_fmap, <- !list_fmap_compose. done. }
    rewrite bind_app_perm. unfold first_terms, last_terms.
    rewrite !product_fmap_l, !fmap_bind. done.
Qed.

Lemma elem_of_adj_steps (p : CVRPProblem) (s : Z) :
  s ∈ adj_steps p <->
  exists v, (0 <= v < num_vehicles p)%Z /\
            (first_step p v <= s < last_step p v)%Z.
Proof.
  unfold adj_steps. rewrite list_elem_of_bind. split.
  - intros (v & Hs%elem_of_range & Hv%elem_of_range). eauto.
  - intros (v & Hv & Hs). exists v. by rewrite !elem_of_range.
Qed.

Lemma NoDup_adj_steps (p : CVRPProblem) : NoDup (adj_steps p).
Proof.
  apply NoDup_bind; [|intros; apply NoDup_range|apply NoDup_range].
  intros v1 v2 s _ _ H1%elem_of_range H2%elem_of_range.
  unfold last_step, first_step in *. nia.
Qed.

Section VrpEntries.

Variables (p : CVRPProblem) (distances : list (list Qc)) (cc : Qc).
Hypothesis Hnodup : NoDup (location_idx p).
Hypothesis Hsize : (2 <= num_locations p)%Z.

Lemma first_step_inj (v1 v2 : Z) :
  first_step p v1 = first_step p v2 -> v1 = v2.
Proof using Hsize. unfold first_step. nia. Qed.

Lemma last_step_inj (v1 v2 : Z) :
  last_step p v1 = last_step p v2 -> v1 = v2.
Proof using Hsize. unfold last_step, first_step. nia. Qed.

Lemma first_last_step (v1 v2 : Z) :
  first_step p v1 = last_step p v2 <-> v1 = v2 /\ num_locations p = 2%Z.
Proof using Hsize.
  unfold last_step, first_step. split; [|intros [-> ?]; lia].
  intros H.
  assert (Hn : (1 <= num_locations p - 1)%Z) by lia.
  assert (Hprod : ((v2 + 1 - v1) * (num_locations p - 1) = 1)%Z) by lia.
  assert (v2 + 1 - v1 = 1)%Z by nia. nia.
Qed.

Lemma adjacent_keys (k : key) :
  k ∈ (adjacent_terms p distances cc).*1 <->
  exists s d1 d2, k = ((s, d1), ((s + 1)%Z, d2)) /\ s ∈ adj_steps p /\
    d1 ∈ location_idx p /\ d2 ∈ location_idx p.
Proof.
  unfold adjacent_terms. rewrite <- list_fmap_compose, list_elem_of_fmap.
  split.
  - intros ([s [d1 d2]] & -> & [Hs [H1 H2]%elem_of_product]%elem_of_product).
    by exists s, d1, d2.
  - intros (s & d1 & d2 & -> & Hs & H1 & H2). exists (s, (d1, d2)).
    split; [done|]. by rewrite !elem_of_product.
Qed.

Lemma first_keys (k : key) :
  k ∈ (first_terms p distances cc).*1 <->
  exists v d, (0 <= v < num_vehicles p)%Z /\ d ∈ location_idx p /\
    k = ((first_step p v, d), (first_step p v, d)).
Proof.
  unfold first_terms. rewrite <- list_fmap_compose, list_elem_of_fmap.
  split.
  - intros ([s d] & -> & [(v & -> & Hv%elem_of_range)%list_elem_of_fmap Hd]
                          %elem_of_product).
    by exists v, d.
  - intros (v & d & Hv & Hd & ->). exists (first_step p v, d).
    split; [done|]. rewrite elem_of_product. split; [|done].
    apply list_elem_of_fmap_2. by apply elem_of_range.
Qed.

Lemma last_keys (k : key) :
  k ∈ (last_terms p distances cc).*1 <->
  exists v d, (0 <= v < num_vehicles p)%Z /\ d ∈ location_idx p /\
    k = ((last_step p v, d), (last_step p v, d)).
Proof.
  unfold last_terms. rewrite <- list_fmap_compose, list_elem_of_fmap.
  split.
  - intros ([s d] & -> & [(v & -> & Hv%elem_of_range)%list_elem_of_fmap Hd]
                          %elem_of_product).
    by exists v, d.
  - intros (v & d & Hv & Hd & ->). exists (last_step p v, d).
    split; [done|]. rewrite elem_of_product. split; [|done].
    apply list_elem_of_fmap_2. by apply elem_of_range.
Qed.

Lemma total_adjacent (s d1 d2 : Z) :
  s ∈ adj_steps p -> d1 ∈ location_idx p -> d2 ∈ location_idx p ->
  total ((s, d1), ((s + 1)%Z, d2)) (adjacent_terms p distances cc) =
    entry distances d1 d2 * cc.
Proof using Hnodup.
  intros Hs H1 H2. unfold adjacent_terms.
  apply (total_hit (adjacent_term distances cc) _ (s, (d1, d2))).
  - apply NoDup_product; [apply NoDup_adj_steps|by apply NoDup_product].
  - intros [s1 [a1 b1]] [s2 [a2 b2]] _ _ [= -> -> _ ->]. done.
  - by rewrite !elem_of_product.
Qed.

Lemma total_first (v d : Z) :
  (0 <= v < num_vehicles p)%Z -> d ∈ location_idx p ->
  total ((first_step p v, d), (first_step p v, d))
    (first_terms p distances cc) = entry distances (depot_idx p) d * cc.
Proof using Hnodup Hsize.
  intros Hv Hd. unfold first_terms.
  apply (total_hit (first_term p distances cc) _ (first_step p v, d)).
  - apply NoDup_product; [|done]. apply NoDup_fmap_2_strong.
    + intros ? ? _ _. apply first_step_inj.
    + apply NoDup_range.
  - intros [s1 a1] [s2 a2] _ _ [= -> ->]. done.
  - rewrite elem_of_product. split; [|done].
    apply list_elem_of_fmap_2. by apply elem_of_range.
Qed.

Lemma total_last (v d : Z) :
  (0 <= v < num_vehicles p)%Z -> d ∈ location_idx p ->
  total ((last_step p v, d), (last_step p v, d))
    (last_terms p distances cc) = cc * entry distances d (depot_idx p).
Proof using Hnodup Hsize.
  intros Hv Hd. unfold last_terms.
  apply (total_hit (last_term p distances cc) _ (last_step p v, d)).
  - apply NoDup_product; [|done]. apply NoDup_fmap_2_strong.
    + intros ? ? _ _. apply last_step_inj.
    + apply NoDup_range.
  - intros [s1 a1] [s2 a2] _ _ [= -> ->]. done.
  - rewrite elem_of_product. split; [|done].
    apply list_elem_of_fmap_2. by apply elem_of_range.
Qed.

Lemma vrp_keys (k : key) :
  k ∈ (vrp_terms p distances cc).*1 <->
  k ∈ (adjacent_terms p distances cc).*1 \/
  k ∈ (first_terms p distances cc).*1 \/
  k ∈ (last_terms p distances cc).*1.
Proof.
  rewrite (keys_perm k _ _ (vrp_terms_families p distances cc)).
  by rewrite !fmap_app, !elem_of_app.
Qed.

Lemma vrp_total (k : key) :
  total k (vrp_terms p distances cc) =
    total k (adjacent_terms p distances cc)
    + total k (first_terms p distances cc)
    + total k (last_terms p distances cc).
Proof.
  rewrite (total_perm k _ _ (vrp_terms_families p distances cc)).
  rewrite !total_app. ring.
Qed.

Lemma vrp_lookup_adjacent (v step d1 d2 : Z) :
  (0 <= v < num_vehicles p)%Z ->
  (first_step p v <= step < last_step p v)%Z ->
  d1 ∈ location_idx p -> d2 ∈ location_idx p ->
  emit ∅ (vrp_terms p distances cc) !! ((step, d1), ((step + 1)%Z, d2)) =
    Some (entry distances d1 d2 * cc).
Proof using Hnodup Hsize.
  intros Hv Hstep H1 H2.
  assert (Hs : step ∈ adj_steps p) by (apply elem_of_adj_steps; eauto).
  rewrite emit_lookup, decide_True.
  2:{ apply vrp_keys. left. apply adjacent_keys. by exists step, d1, d2. }
  f_equal. rewrite vrp_total, total_adjacent by done.
  rewrite !total_absent.
  - unfold dict_get. rewrite lookup_empty. cbn. ring.
  - intros (v' & d & _ & _ & [= ? _ ? _])%last_keys. lia.
  - intros (v' & d & _ & _ & [= ? _ ? _])%first_keys. lia.
Qed.

Lemma vrp_lookup_first (v d : Z) :
  (0 <= v < num_vehicles p)%Z -> d ∈ location_idx p ->
  emit ∅ (vrp_terms p distances cc)
      !! ((first_step p v, d), (first_step p v, d)) =
    Some (if decide (first_step p v = last_step p v)
          then entry distances (depot_idx p) d * cc
               + cc * entry distances d (depot_idx p)
          else entry distances (depot_idx p) d * cc).
Proof using Hnodup Hsize.
  intros Hv Hd. rewrite emit_lookup, decide_True.
  2:{ apply vrp_keys. right; left. apply first_keys. by exists v, d. }
  f_equal. rewrite vrp_total, total_first by done.
  rewrite (total_absent _ (adjacent_terms p distances cc)).
  2:{ intros (s & d1 & d2 & [= ? _ ? _] & _)%adjacent_keys. lia. }
  unfold dict_get. rewrite lookup_empty. cbn [default].
  destruct (decide (first_step p v = last_step p v)) as [Heq|Hne].
  - rewrite Heq at 1 2. rewrite total_last by done. ring.
  - rewrite total_absent; [ring|].
    intros (v' & d' & _ & _ & [= H _ _ _])%last_keys.
    apply first_last_step in H as [-> H]. apply Hne.
    by apply first_last_step.
Qed.

Lemma vrp_lookup_last (v d : Z) :
  (0 <= v < num_vehicles p)%Z -> d ∈ location_idx p ->
  emit ∅ (vrp_terms p distances cc)
      !! ((last_step p v, d), (last_step p v, d)) =
    Some (if decide (first_step p v = last_step p v)
          then entry distances (depot_idx p) d * cc
               + cc * entry distances d (depot_idx p)
          else cc * entry distances d (depot_idx p)).
Proof using Hnodup Hsize.
  intros Hv Hd.
  destruct (decide (first_step p v = last_step p v)) as [Heq|Hne].
  - rewrite <- Heq, vrp_lookup_first by done. by rewrite decide_True.
  - rewrite emit_lookup, decide_True.
    2:{ apply vrp_keys. right; right. apply last_keys. by exists v, d. }
    f_equal. rewrite vrp_total, total_last by done.
    rewrite !total_absent.
    + unfold dict_get. rewrite lookup_empty. cbn. ring.
    + intros (v' & d' & _ & _ & [= H _ _ _])%first_keys.
      symmetry in H. apply first_last_step in H as [-> H]. apply Hne.
      by apply first_last_step.
    + intros (s & d1 & d2 & [= ? _ ? _] & _)%adjacent_keys. lia.
Qed.

Lemma vrp_lookup_is_Some (k : key) :
  is_Some (emit ∅ (vrp_terms p distances cc) !! k) ->
  exists v d1 d2, (0 <= v < num_vehicles p)%Z /\
    d1 ∈ location_idx p /\ d2 ∈ location_idx p /\
    ((exists step, (first_step p v <= step < last_step p v)%Z /\
                   k = ((step, d1), ((step + 1)%Z, d2))) \/
     (d1 = d2 /\ k = ((first_step p v, d1), (first_step p v, d1))) \/
     (d1 = d2 /\ k = ((last_step p v, d1), (last_step p v, d1)))).
Proof.
  rewrite emit_lookup. destruct (decide _) as [Hk|Hk].
  2:{ rewrite lookup_empty. by intros [? ?]. }
  intros _. apply vrp_keys in Hk as [Hk|[Hk|Hk]].
  - apply adjacent_keys in Hk as (s & d1 & d2 & -> & Hs & H1 & H2).
    apply elem_of_adj_steps in Hs as (v & Hv & Hs).
    exists v, d1, d2. repeat (split; [done|]). left. eauto.
  - apply first_keys in Hk as (v & d & Hv & Hd & ->).
    exists v, d, d. repeat (split; [done|]). right; left. done.
  - apply last_keys in Hk as (v & d & Hv & Hd & ->).
    exists v, d, d. repeat (split; [done|]). right; right. done.
Qed.

End VrpEntries.

Lemma objective_steps_in_blocks (cd : list (Qc * Qc) -> list (list Qc))
    (p : CVRPProblem) (cc : Qc) (m : gmap key Qc) (k : key) :
  (2 <= num_locations p)%Z ->
  Forall (covers (cd (coords p))) (location_idx p) ->
  covers (cd (coords p)) (depot_idx p) ->
  vrp_objective_function cd p cc = Ok m ->
  is_Some (m !! k) ->
  (0 <= k.1.1 < num_vehicles p * (num_locations p - 1))%Z /\
  (0 <= k.2.1 < num_vehicles p * (num_locations p - 1))%Z.
Proof.
  intros Hsize Hloc Hdep Hm Hk.
  rewrite vrp_objective_function_emit in Hm by done. injection Hm as <-.
  apply vrp_lookup_is_Some in Hk
    as (v & d1 & d2 & Hv & _ & _ & [(s & Hs & ->)|[[_ ->]|[_ ->]]]);
    unfold last_step, first_step in *; cbn [fst snd]; nia.
Qed.

(** * The capacity terms *)

(** ** [cvrp_objective_function] adds [cvrp_terms] *)
Section CvrpEmit.

Variables (p : CVRPProblem) (cc : Qc).
Hypothesis Hdem :
  forall d, d ∈ drop 1 (location_idx p) -> indexable (demands p) d.

Lemma cvrp_vehicle_pass_emit (variables : gmap key Qc) (start vehicle : Z) :
  cvrp_vehicle_pass p cc (variables, start) vehicle =
    Ok (emit variables (cvrp_block_terms p cc start),
        (start + (num_locations p - 1))%Z).
Proof using Hdem.
  unfold cvrp_vehicle_pass, cvrp_block_terms, block_pairs, num_locations.
  set (steps := combinations2 (range start
                  (start + Z.of_nat (length (location_idx p)) - 2 + 1))).
  rewrite (for_loop_emit _ (fun dd => steps ≫= fun ss =>
             [capacity_term1 p cc (dd, ss); capacity_term2 p cc (dd, ss)])).
  2:{ intros d [d1 d2] [H1 H2]%combinations2_elem.
      apply for_loop_emit. intros d' [s1 s2] _.
      rewrite !demand_at_getitem by auto. done. }
  cbn [mbind result_bind]. rewrite product_bind.
  do 2 f_equal. lia.
Qed.

Lemma cvrp_loop_emit (variables : gmap key Qc) :
  exists stop,
  for_loop (cvrp_vehicle_pass p cc) (variables, 0%Z)
      (range 0 (num_vehicles p)) =
    Ok (emit variables (cvrp_terms p cc), stop).
Proof using Hdem.
  apply (block_loop_range _ (cvrp_block_terms p cc) (num_locations p - 1)).
  apply cvrp_vehicle_pass_emit.
Qed.

End CvrpEmit.

Lemma cvrp_objective_function_emit
    (compute_distances : list (Qc * Qc) -> list (list Qc))
    (p : CVRPProblem) (cc : Qc) :
  Forall (covers (compute_distances (coords p))) (location_idx p) ->
  (location_idx p ≠ [] -> covers (compute_distances (coords p)) (depot_idx p)) ->
  Forall (indexable (demands p)) (drop 1 (location_idx p)) ->
  cvrp_objective_function compute_distances p cc =
    Ok (emit (emit ∅ (vrp_terms p (compute_distances (coords p)) cc))
          (cvrp_terms p cc)).
Proof.
  intros Hloc Hdep Hdem. unfold cvrp_objective_function.
  rewrite vrp_objective_function_emit by done. cbn [mbind result_bind].
  destruct (cvrp_loop_emit p cc (proj1 (Forall_forall _ _) Hdem)
              (emit ∅ (vrp_terms p (compute_distances (coords p)) cc)))
    as [stop ->].
  done.
Qed.

(** ** The keys and the value of the capacity terms *)

Lemma cvrp_terms_families (p : CVRPProblem) (cc : Qc) :
  cvrp_terms p cc ≡ₚ
    (capacity_term1 p cc <$> all_pairs p) ++
    (capacity_term2 p cc <$> all_pairs p).
Proof.
  unfold cvrp_terms, cvrp_block_terms, all_pairs.
  rewrite <- bind_bind.
  change (fun x => [capacity_term1 p cc x; capacity_term2 p cc x])
    with (fun x => [capacity_term1 p cc x] ++ [capacity_term2 p cc x]).
  rewrite bind_app_perm. by rewrite !bind_ret_fmap.
Qed.

Lemma elem_of_all_pairs (p : CVRPProblem) (d1 d2 s1 s2 : Z) :
  ((d1, d2), (s1, s2)) ∈ all_pairs p <->
  (d1, d2) ∈ combinations2 (drop 1 (location_idx p)) /\ same_block p s1 s2.
Proof.
  unfold all_pairs, block_pairs, same_block. rewrite list_elem_of_bind.
  split.
  - intros (v & [Hd Hs%elem_of_combinations2_range]%elem_of_product
              & Hv%elem_of_range).
    split; [done|]. exists v. unfold last_step. lia.
  - intros [Hd (v & Hv & Hs)]. exists v. rewrite elem_of_product.
    rewrite elem_of_combinations2_range, elem_of_range.
    unfold last_step in Hs. split; [split; [done|lia]|done].
Qed.

Lemma NoDup_all_pairs (p : CVRPProblem) :
  NoDup (location_idx p) -> NoDup (all_pairs p).
Proof.
  intros Hnd. unfold all_pairs. apply NoDup_bind; [| |apply NoDup_range].
  - intros v1 v2 [[d1 d2] [s1 s2]] _ _
      [_ H1%elem_of_combinations2_range]%elem_of_product
      [_ H2%elem_of_combinations2_range]%elem_of_product.
    unfold first_step in *. nia.
  - intros v _. apply NoDup_product; apply combinations2_NoDup.
    + eapply sublist_NoDup; [exact Hnd|apply sublist_drop].
    + apply NoDup_range.
Qed.

Lemma capacity_cost_comm (p : CVRPProblem) (a b : Z) :
  capacity_cost p a b = capacity_cost p b a.
Proof. unfold capacity_cost. by rewrite Z.mul_comm. Qed.

Lemma elem_of_tail (p : CVRPProblem) (d : Z) :
  NoDup (location_idx p) -> head (location_idx p) = Some (depot_idx p) ->
  d ∈ drop 1 (location_idx p) <-> d ∈ location_idx p /\ d ≠ depot_idx p.
Proof.
  destruct (location_idx p) as [|x l]; [done|].
  intros [Hx _]%NoDup_cons [= ->]. cbn [drop]. rewrite drop_0, elem_of_cons.
  split.
  - intros Hd. split; [by right|]. by intros ->.
  - intros [[->|Hd] Hne]; done.
Qed.

Section CvrpEntries.

Variables (p : CVRPProblem) (cc : Qc).
Hypothesis Hnodup : NoDup (location_idx p).

Lemma cvrp_keys (k : key) :
  k ∈ (cvrp_terms p cc).*1 <-> capacity_pair p k.
Proof using Hnodup.
  rewrite (keys_perm k _ _ (cvrp_terms_families p cc)).
  rewrite fmap_app, elem_of_app, <- !list_fmap_compose, !list_elem_of_fmap.
  assert (Hnd : NoDup (drop 1 (location_idx p))).
  { eapply sublist_NoDup; [exact Hnodup|apply sublist_drop]. }
  split.
  - intros [([[d1 d2] [s1 s2]] & -> & [Hd Hs]%elem_of_all_pairs)
           |([[d1 d2] [s1 s2]] & -> & [Hd Hs]%elem_of_all_pairs)];
      destruct (combinations2_elem _ _ _ Hd) as [H1 H2];
      destruct (combinations2_distinct _ _ _ Hnd Hd) as [Hne _];
      cbn.
    + by exists s1, s2, d1, d2.
    + by exists s1, s2, d2, d1.
  - intros (s1 & s2 & a & b & -> & Hs & Ha & Hb & Hne).
    destruct (combinations2_total _ _ _ Ha Hb Hne) as [Hd|Hd].
    + left. exists ((a, b), (s1, s2)). split; [done|].
      by apply elem_of_all_pairs.
    + right. exists ((b, a), (s1, s2)). split; [done|].
      by apply elem_of_all_pairs.
Qed.

Lemma total_capacity (s1 s2 a b : Z) :
  same_block p s1 s2 ->
  a ∈ drop 1 (location_idx p) -> b ∈ drop 1 (location_idx p) -> a ≠ b ->
  total ((s1, a), (s2, b)) (cvrp_terms p cc) = cc * capacity_cost p a b.
Proof using Hnodup.
  intros Hs Ha Hb Hne.
  assert (Hnd : NoDup (drop 1 (location_idx p))).
  { eapply sublist_NoDup; [exact Hnodup|apply sublist_drop]. }
  rewrite (total_perm _ _ _ (cvrp_terms_families p cc)), total_app.
  destruct (combinations2_total _ _ _ Ha Hb Hne) as [Hd|Hd].
  - rewrite (total_hit (capacity_term1 p cc) _ ((a, b), (s1, s2))).
    + rewrite total_absent; [cbn; ring|].
      rewrite <- list_fmap_compose.
      intros ([[d1 d2] [s1' s2']] & [= -> -> -> ->]
              & [Hd' _]%elem_of_all_pairs)%list_elem_of_fmap.
      by destruct (combinations2_distinct _ _ _ Hnd Hd) as [_ ?].
    + by apply NoDup_all_pairs.
    + intros [[? ?] [? ?]] [[? ?] [? ?]] _ _ [= -> -> -> ->]. done.
    + by apply elem_of_all_pairs.
  - rewrite (total_hit (capacity_term2 p cc) _ ((b, a), (s1, s2))).
    + rewrite total_absent; [cbn; rewrite capacity_cost_comm; ring|].
      rewrite <- list_fmap_compose.
      intros ([[d1 d2] [s1' s2']] & [= -> -> -> ->]
              & [Hd' _]%elem_of_all_pairs)%list_elem_of_fmap.
      by destruct (combinations2_distinct _ _ _ Hnd Hd) as [_ ?].
    + by apply NoDup_all_pairs.
    + intros [[? ?] [? ?]] [[? ?] [? ?]] _ _ [= -> -> -> ->]. done.
    + by apply elem_of_all_pairs.
Qed.

Lemma cvrp_terms_zero :
  (forall d, d ∈ drop 1 (location_idx p) -> demand_at p d = 0%Z) ->
  Forall (fun kc => kc.2 = 0) (cvrp_terms p cc).
Proof.
  intros Hzero. unfold cvrp_terms, cvrp_block_terms, block_pairs.
  apply Forall_bind, Forall_forall. intros v _. cbn.
  apply Forall_bind, Forall_forall.
  intros [[d1 d2] ss] [[H1 H2]%combinations2_elem _]%elem_of_product.
  assert (Hc : capacity_cost p d1 d2 = 0).
  { unfold capacity_cost. rewrite (Hzero d1 H1), Z.mul_0_l.
    change (ZtoQc (wrap_int64 0)) with 0. unfold Qcdiv. ring. }
  change (Forall (fun kc : key * Qc => kc.2 = 0)
            [capacity_term1 p cc (d1, d2, ss);
             capacity_term2 p cc (d1, d2, ss)]).
  repeat constructor; unfold capacity_term1, capacity_term2; cbn [fst snd];
    rewrite Hc; ring.
Qed.

End CvrpEntries.

(** * The constraints *)

(** ** [constraints] adds [constraint_terms] *)

Lemma one_hot_emit (A : Qc) (d : gmap key Qc) (variables : list var) :
  one_hot A d variables = emit d (one_hot_terms A variables).
Proof.
  unfold one_hot, one_hot_terms. rewrite emit_app.
  rewrite (foldl_emit _ (fun v => [diagonal_term A v])) by done.
  rewrite (foldl_emit _ (fun vv => [pair_term A vv])) by done.
  by rewrite !bind_ret_fmap.
Qed.

Lemma constraints_emit (p : CVRPProblem) (A : Qc) :
  constraints p A = emit ∅ (constraint_terms p A).
Proof.
  unfold constraints, constraint_terms. rewrite emit_app.
  rewrite (foldl_emit _ (fun step =>
             one_hot_terms A (step_variables p step)))
    by (intros; apply one_hot_emit).
  by rewrite (foldl_emit _ (fun dest =>
             one_hot_terms A (dest_variables p dest)))
    by (intros; apply one_hot_emit).
Qed.

Lemma constraint_terms_families (p : CVRPProblem) (A : Qc) :
  constraint_terms p A ≡ₚ
    ((diagonal_term A <$> dest_vars p) ++ (pair_term A <$> dest_pairs p)) ++
    ((diagonal_term A <$> step_vars p) ++ (pair_term A <$> step_pairs p)).
Proof.
  unfold constraint_terms, one_hot_terms, dest_vars, dest_pairs, step_vars,
    step_pairs.
  by rewrite !bind_app_perm, !fmap_bind.
Qed.

Lemma elem_of_dest_variables (p : CVRPProblem) (dest s d : Z) :
  (s, d) ∈ dest_variables p dest <->
  d = dest /\ (0 <= s < num_steps p)%Z.
Proof.
  unfold dest_variables. rewrite list_elem_of_fmap. split.
  - intros (s' & [= -> ->] & Hs%elem_of_range). done.
  - intros [-> Hs]. exists s. by rewrite elem_of_range.
Qed.

Lemma elem_of_step_variables (p : CVRPProblem) (step s d : Z) :
  (s, d) ∈ step_variables p step <-> s = step /\ d ∈ location_idx p.
Proof.
  unfold step_variables. rewrite list_elem_of_fmap. split.
  - intros (d' & [= -> ->] & Hd). done.
  - intros [-> Hd]. by exists d.
Qed.

Lemma NoDup_dest_variables (p : CVRPProblem) (dest : Z) :
  NoDup (dest_variables p dest).
Proof.
  apply NoDup_fmap_2; [by intros ? ? [= ->]|apply NoDup_range].
Qed.

Lemma NoDup_step_variables (p : CVRPProblem) (step : Z) :
  NoDup (location_idx p) -> NoDup (step_variables p step).
Proof. intros H. apply NoDup_fmap_2; [by intros ? ? [= ->]|done]. Qed.

(** ** The two families of variables *)
Section ConstraintEntries.

Variables (p : CVRPProblem) (A : Qc).
Hypothesis Hnodup : NoDup (location_idx p).

Lemma NoDup_tail : NoDup (drop 1 (location_idx p)).
Proof using Hnodup. eapply sublist_NoDup; [exact Hnodup|apply sublist_drop]. Qed.

Lemma elem_of_dest_vars (s d : Z) :
  (s, d) ∈ dest_vars p <->
  d ∈ drop 1 (location_idx p) /\ (0 <= s < num_steps p)%Z.
Proof.
  unfold dest_vars. rewrite list_elem_of_bind. split.
  - intros (dest & [-> Hs]%elem_of_dest_variables & Hd). done.
  - intros [Hd Hs]. exists d. by rewrite elem_of_dest_variables.
Qed.

Lemma elem_of_step_vars (s d : Z) :
  (s, d) ∈ step_vars p <->
  d ∈ location_idx p /\ (0 <= s < num_steps p)%Z.
Proof.
  unfold step_vars. rewrite list_elem_of_bind. split.
  - intros (step & [-> Hd]%elem_of_step_variables & Hs%elem_of_range). done.
  - intros [Hd Hs]. exists s.
    by rewrite elem_of_step_variables, elem_of_range.
Qed.

Lemma elem_of_dest_pairs (s1 d1 s2 d2 : Z) :
  ((s1, d1), (s2, d2)) ∈ dest_pairs p <->
  d1 = d2 /\ d1 ∈ drop 1 (location_idx p) /\
  (0 <= s1 < num_steps p)%Z /\ (0 <= s2 < num_steps p)%Z.
Proof.
  unfold dest_pairs. rewrite list_elem_of_bind. split.
  - intros (dest & [[-> H1]%elem_of_dest_variables
                     [-> H2]%elem_of_dest_variables]%elem_of_product & Hd).
    done.
  - intros (-> & Hd & H1 & H2). exists d2.
    by rewrite elem_of_product, !elem_of_dest_variables.
Qed.

Lemma elem_of_step_pairs (s1 d1 s2 d2 : Z) :
  ((s1, d1), (s2, d2)) ∈ step_pairs p <->
  s1 = s2 /\ (0 <= s1 < num_steps p)%Z /\
  d1 ∈ location_idx p /\ d2 ∈ location_idx p.
Proof.
  unfold step_pairs. rewrite list_elem_of_bind. split.
  - intros (step & [[-> H1]%elem_of_step_variables
                     [-> H2]%elem_of_step_variables]%elem_of_product
                 & Hs%elem_of_range).
    done.
  - intros (-> & Hs & H1 & H2). exists s2.
    by rewrite elem_of_product, !elem_of_step_variables, elem_of_range.
Qed.

Lemma NoDup_dest_vars : NoDup (dest_vars p).
Proof using Hnodup.
  apply NoDup_bind; [| |apply NoDup_tail].
  - intros d1 d2 [s d] _ _ [-> _]%elem_of_dest_variables
      [-> _]%elem_of_dest_variables. done.
  - intros; apply NoDup_dest_variables.
Qed.

Lemma NoDup_step_vars : NoDup (step_vars p).
Proof using Hnodup.
  apply NoDup_bind; [| |apply NoDup_range].
  - intros s1 s2 [s d] _ _ [-> _]%elem_of_step_variables
      [-> _]%elem_of_step_variables. done.
  - intros; by apply NoDup_step_variables.
Qed.

Lemma NoDup_dest_pairs : NoDup (dest_pairs p).
Proof using Hnodup.
  apply NoDup_bind; [| |apply NoDup_tail].
  - intros d1 d2 [[s d] v2] _ _
      [[-> _]%elem_of_dest_variables _]%elem_of_product
      [[-> _]%elem_of_dest_variables _]%elem_of_product. done.
  - intros; apply NoDup_product; apply NoDup_dest_variables.
Qed.

Lemma NoDup_step_pairs : NoDup (step_pairs p).
Proof using Hnodup.
  apply NoDup_bind; [| |apply NoDup_range].
  - intros s1 s2 [[s d] v2] _ _
      [[-> _]%elem_of_step_variables _]%elem_of_product
      [[-> _]%elem_of_step_variables _]%elem_of_product. done.
  - intros; apply NoDup_product; by apply NoDup_step_variables.
Qed.

Lemma constraints_total (k : key) :
  total k (constraint_terms p A) =
    ((if decide (k ∈ (fun v => (v, v)) <$> dest_vars p)
      then - (2 * A) else 0)
     + (if decide (k ∈ dest_pairs p) then A else 0))
    + ((if decide (k ∈ (fun v => (v, v)) <$> step_vars p)
        then - (2 * A) else 0)
       + (if decide (k ∈ step_pairs p) then A else 0)).
Proof using Hnodup.
  rewrite (total_perm k _ _ (constraint_terms_families p A)), !total_app.
  unfold diagonal_term, pair_term.
  rewrite !total_const.
  - by rewrite !list_fmap_id.
  - apply NoDup_step_pairs.
  - done.
  - apply NoDup_step_vars.
  - by intros ? ? _ _ [= ->].
  - apply NoDup_dest_pairs.
  - done.
  - apply NoDup_dest_vars.
  - by intros ? ? _ _ [= ->].
Qed.

Lemma constraints_keys (k : key) :
  k ∈ (constraint_terms p A).*1 <-> k ∈ dest_pairs p \/ k ∈ step_pairs p.
Proof.
  rewrite (keys_perm k _ _ (constraint_terms_families p A)).
  rewrite !fmap_app, !elem_of_app, <- !list_fmap_compose.
  unfold diagonal_term, pair_term.
  change (fst ∘ (fun vv : key => (vv, A))) with (@id key).
  change (fst ∘ (fun v : var => ((v, v), - (2 * A))))
    with (fun v : var => (v, v)).
  rewrite !list_fmap_id, !list_elem_of_fmap.
  split; [|tauto].
  intros [[([s d] & -> & H)|H]|[([s d] & -> & H)|H]]; auto.
  - left. apply elem_of_dest_vars in H. apply elem_of_dest_pairs. tauto.
  - right. apply elem_of_step_vars in H. apply elem_of_step_pairs. tauto.
Qed.

End ConstraintEntries.

(** ** The coefficient of every pair *)
Section ConstraintClosedForm.

Variables (p : CVRPProblem) (A : Qc).
Hypothesis Hnodup : NoDup (location_idx p).
Hypothesis Hhead : head (location_idx p) = Some (depot_idx p).

Lemma elem_of_dest_diagonal (s1 d1 s2 d2 : Z) :
  ((s1, d1), (s2, d2)) ∈ (fun v : var => (v, v)) <$> dest_vars p <->
  s1 = s2 /\ d1 = d2 /\ (d1 ∈ location_idx p /\ d1 ≠ depot_idx p) /\
  (0 <= s1 < num_steps p)%Z.
Proof using Hnodup Hhead.
  rewrite list_elem_of_fmap. split.
  - intros ([s d] & [= -> -> -> ->] & [Hd Hs]%elem_of_dest_vars).
    apply elem_of_tail in Hd; done.
  - intros (-> & -> & Hd & Hs). exists (s2, d2). split; [done|].
    apply elem_of_dest_vars. split; [|done]. by apply elem_of_tail.
Qed.

Lemma elem_of_step_diagonal (s1 d1 s2 d2 : Z) :
  ((s1, d1), (s2, d2)) ∈ (fun v : var => (v, v)) <$> step_vars p <->
  s1 = s2 /\ d1 = d2 /\ d1 ∈ location_idx p /\ (0 <= s1 < num_steps p)%Z.
Proof.
  rewrite list_elem_of_fmap. split.
  - intros ([s d] & [= -> -> -> ->] & [Hd Hs]%elem_of_step_vars). done.
  - intros (-> & -> & Hd & Hs). exists (s2, d2). split; [done|].
    by apply elem_of_step_vars.
Qed.

Lemma elem_of_dest_pairs' (s1 d1 s2 d2 : Z) :
  ((s1, d1), (s2, d2)) ∈ dest_pairs p <->
  d1 = d2 /\ (d1 ∈ location_idx p /\ d1 ≠ depot_idx p) /\
  (0 <= s1 < num_steps p)%Z /\ (0 <= s2 < num_steps p)%Z.
Proof using Hnodup Hhead.
  rewrite elem_of_dest_pairs, elem_of_tail by done. tauto.
Qed.

Lemma depot_in_locations : depot_idx p ∈ location_idx p.
Proof using Hhead.
  clear Hnodup. destruct (location_idx p) as [|x l]; [done|].
  injection Hhead as ->. apply elem_of_cons; by left.
Qed.

Lemma constraints_lookup (s1 d1 s2 d2 : Z) :
  constraints p A !! ((s1, d1), (s2, d2)) =
    if decide (((s1, d1), (s2, d2)) ∈ dest_pairs p \/
               ((s1, d1), (s2, d2)) ∈ step_pairs p)
    then Some (((if decide (((s1, d1), (s2, d2)) ∈
                      (fun v : var => (v, v)) <$> dest_vars p)
                 then - (2 * A) else 0)
                + (if decide (((s1, d1), (s2, d2)) ∈ dest_pairs p)
                   then A else 0))
               + ((if decide (((s1, d1), (s2, d2)) ∈
                        (fun v : var => (v, v)) <$> step_vars p)
                   then - (2 * A) else 0)
                  + (if decide (((s1, d1), (s2, d2)) ∈ step_pairs p)
                     then A else 0)))
    else None.
Proof using Hnodup.
  rewrite constraints_emit, emit_lookup.
  destruct (decide (_ ∈ (constraint_terms p A).*1)) as [Hk|Hk].
  - rewrite decide_True by (by apply constraints_keys in Hk).
    f_equal. rewrite constraints_total by done.
    rewrite dict_get_empty. apply Qcplus_0_l.
  - rewrite decide_False; [done|]. by rewrite <- constraints_keys.
Qed.

(** Reads the coefficient of a pair off [constraints_lookup]: of the
    sixteen ways the four tests can turn out, all but one contradict what
    is known of the pair. *)
Ltac settle :=
  rewrite constraints_lookup;
  repeat case_decide;
  rewrite ?elem_of_dest_diagonal, ?elem_of_step_diagonal,
    ?elem_of_dest_pairs', ?elem_of_step_pairs in *;
  first [ exfalso; intuition (first [lia | congruence | done])
        | f_equal; ring ].

Lemma constraints_diagonal_delivery (s d : Z) :
  (0 <= s < num_steps p)%Z -> d ∈ location_idx p -> d ≠ depot_idx p ->
  constraints p A !! ((s, d), (s, d)) =
    Some ((- (2 * A) + A) + (- (2 * A) + A)).
Proof using Hnodup Hhead. intros Hs Hd Hne. settle. Qed.

Lemma constraints_diagonal_depot (s : Z) :
  (0 <= s < num_steps p)%Z ->
  constraints p A !! ((s, depot_idx p), (s, depot_idx p)) =
    Some (- (2 * A) + A).
Proof using Hnodup Hhead.
  intros Hs. pose proof depot_in_locations. settle.
Qed.

Lemma constraints_same_destination (s1 s2 d : Z) :
  (0 <= s1 < num_steps p)%Z -> (0 <= s2 < num_steps p)%Z -> s1 ≠ s2 ->
  d ∈ location_idx p -> d ≠ depot_idx p ->
  constraints p A !! ((s1, d), (s2, d)) = Some A.
Proof using Hnodup Hhead. intros H1 H2 Hne Hd Hdne. settle. Qed.

Lemma constraints_same_step (s d1 d2 : Z) :
  (0 <= s < num_steps p)%Z ->
  d1 ∈ location_idx p -> d2 ∈ location_idx p -> d1 ≠ d2 ->
  constraints p A !! ((s, d1), (s, d2)) = Some A.
Proof using Hnodup Hhead. intros Hs H1 H2 Hne. settle. Qed.

Lemma constraints_is_Some (k : key) :
  is_Some (constraints p A !! k) ->
  exists s1 d1 s2 d2, k = ((s1, d1), (s2, d2)) /\
    (0 <= s1 < num_steps p)%Z /\ (0 <= s2 < num_steps p)%Z /\
    d1 ∈ location_idx p /\ d2 ∈ location_idx p /\
    ((d1 = d2 /\ d1 ≠ depot_idx p) \/ s1 = s2).
Proof using Hnodup Hhead.
  destruct k as [[s1 d1] [s2 d2]]. rewrite constraints_lookup.
  destruct (decide _) as [Hk|Hk]; [|by intros [? ?]].
  intros _. exists s1, d1, s2, d2. split; [done|].
  rewrite elem_of_dest_pairs', elem_of_step_pairs in Hk.
  destruct Hk as [(-> & [? ?] & ? & ?)|(-> & ? & ? & ?)].
  - repeat (split; [first [done|lia]|]). by left.
  - repeat (split; [first [done|lia]|]). by right.
Qed.

End ConstraintClosedForm.

(** ** The steps of the two encoders

    [constraints] works on the steps [0 .. num_vehicles * max_deliveries - 1]
    and the objective encoders on
    [0 .. num_vehicles * (len(location_idx) - 1) - 1]; the two agree when
    [max_deliveries] is the number of deliveries, as [from_file] sets it. *)

Lemma constraint_steps_in_space (p : CVRPProblem) (A : Qc) (k : key) :
  is_Some (constraints p A !! k) ->
  (0 <= k.1.1 < num_steps p)%Z /\ (0 <= k.2.1 < num_steps p)%Z.
Proof.
  rewrite constraints_emit, emit_lookup.
  destruct (decide _) as [Hk|Hk]; [|rewrite lookup_empty; by intros [? ?]].
  intros _. destruct k as [[s1 d1] [s2 d2]].
  apply constraints_keys in Hk as [Hk|Hk].
  - apply elem_of_dest_pairs in Hk. cbn. tauto.
  - apply elem_of_step_pairs in Hk. cbn. lia.
Qed.

(** Property X1.  When [max_deliveries] is the number of locations minus
    one, there is at least one delivery and the location indices index the
    distance matrix, the objective and the constraints use the same steps:
    both steps of every key of either map lie in [0 .. num_vehicles *
    max_deliveries - 1], and the block of vehicle [v] in the objective is [v
    * max_deliveries .. v * max_deliveries + max_deliveries - 1]. *)
Lemma index_spaces_agree (cd : list (Qc * Qc) -> list (list Qc))
    (p : CVRPProblem) (cc A : Qc) (m : gmap key Qc) :
  max_deliveries p = (num_locations p - 1)%Z ->
  (2 <= num_locations p)%Z ->
  Forall (covers (cd (coords p))) (location_idx p) ->
  covers (cd (coords p)) (depot_idx p) ->
  vrp_objective_function cd p cc = Ok m ->
  (forall k, is_Some (m !! k) ->
     (0 <= k.1.1 < num_steps p)%Z /\ (0 <= k.2.1 < num_steps p)%Z) /\
  (forall k, is_Some (constraints p A !! k) ->
     (0 <= k.1.1 < num_steps p)%Z /\ (0 <= k.2.1 < num_steps p)%Z) /\
  (forall v, first_step p v = (v * max_deliveries p)%Z /\
             last_step p v = (first_step p v + max_deliveries p - 1)%Z).
Proof.
  intros HM Hsize Hloc Hdep Hm. split_and!.
  - intros k Hk. unfold num_steps. rewrite HM.
    by eapply objective_steps_in_blocks.
  - apply constraint_steps_in_space.
  - intros v. unfold last_step, first_step. lia.
Qed.

(** * The combiner *)

Lemma merge_repr_lookup (o c : gmap key Qc) (k : key) :
  merge_repr o c !! k =
    if decide (k ∈ dom o ∪ dom c) then Some (dict_get o k + dict_get c k)
    else None.
Proof.
  unfold merge_repr. destruct (decide _) as [Hk|Hk].
  - apply lookup_set_to_map; [by intros ? ? _ _ ?|]. by exists k.
  - apply eq_None_not_Some. intros [x Hx].
    apply lookup_set_to_map in Hx as (y & Hy & [= -> _]);
      [done|by intros ? ? _ _ ?].
Qed.

Lemma wrap_qubo_problem_merge
    (compute_distances : list (Qc * Qc) -> list (list Qc))
    (params : FullQuboParams) (p : CVRPProblem) (objective : gmap key Qc) :
  (vrp_objective_function compute_distances p (cost_const params)
     = Ok objective ->
   wrap_vrp_qubo_problem compute_distances params p =
     Ok (merge_repr objective (constraints p (constraint_const params)))) /\
  (cvrp_objective_function compute_distances p (cost_const params)
     = Ok objective ->
   wrap_cvrp_qubo_problem compute_distances params p =
     Ok (merge_repr objective (constraints p (constraint_const params)))).
Proof.
  unfold wrap_vrp_qubo_problem, wrap_cvrp_qubo_problem.
  split; intros ->; reflexivity.
Qed.

(** * The exceptions of the encoders *)

Lemma ok_index_errors_only {A : Type} (a : A) : index_errors_only (Ok a).
Proof. by intros e. Qed.

Lemma getitem_index_errors_only {A : Type} (l : list A) (i : Z) :
  index_errors_only (getitem l i).
Proof.
  intros e. unfold getitem. cbn zeta.
  destruct (decide _); [|by intros [= <-]].
  destruct (l !! _); [done|by intros [= <-]].
Qed.

Lemma bind_index_errors_only {A B : Type} (r : result A)
    (f : A -> result B) :
  index_errors_only r -> (forall a, index_errors_only (f a)) ->
  index_errors_only (r ≫= f).
Proof.
  intros Hr Hf e. destruct r as [a|e']; cbn.
  - apply Hf.
  - intros [= <-]. by apply Hr.
Qed.

Lemma getitem2_index_errors_only {A : Type} (m : list (list A)) (i j : Z) :
  index_errors_only (getitem2 m i j).
Proof.
  apply bind_index_errors_only; intros; apply getitem_index_errors_only.
Qed.

Lemma for_loop_index_errors_only {S A : Type} (body : S -> A -> result S)
    (l : list A) :
  (forall s a, index_errors_only (body s a)) ->
  forall s, index_errors_only (for_loop body s l).
Proof.
  intros Hbody. induction l as [|a l IH]; intros s.
  - apply ok_index_errors_only.
  - cbn [for_loop]. by apply bind_index_errors_only.
Qed.

Section EncoderExceptions.

Variable compute_distances : list (Qc * Qc) -> list (list Qc).

Lemma vrp_vehicle_pass_index_errors_only (p : CVRPProblem)
    (distances : list (list Qc)) (cc : Qc) (st : gmap key Qc * Z)
    (vehicle : Z) :
  index_errors_only (vrp_vehicle_pass p distances cc st vehicle).
Proof.
  destruct st as [variables start]. unfold vrp_vehicle_pass.
  apply bind_index_errors_only.
  - apply for_loop_index_errors_only. intros d step.
    apply for_loop_index_errors_only. intros d' [node1 node2].
    apply bind_index_errors_only; [apply getitem2_index_errors_only|].
    intros; apply ok_index_errors_only.
  - intros d. apply bind_index_errors_only;
      [|intros; apply ok_index_errors_only].
    apply for_loop_index_errors_only. intros d' destination.
    apply bind_index_errors_only; [apply getitem2_index_errors_only|].
    intros c. apply bind_index_errors_only;
      [apply getitem2_index_errors_only|].
    intros; apply ok_index_errors_only.
Qed.

Lemma vrp_objective_function_index_errors_only (p : CVRPProblem) (cc : Qc) :
  index_errors_only (vrp_objective_function compute_distances p cc).
Proof.
  unfold vrp_objective_function.
  apply bind_index_errors_only; [|intros; apply ok_index_errors_only].
  apply for_loop_index_errors_only. intros.
  apply vrp_vehicle_pass_index_errors_only.
Qed.

Lemma cvrp_vehicle_pass_index_errors_only (p : CVRPProblem) (cc : Qc)
    (st : gmap key Qc * Z) (vehicle : Z) :
  index_errors_only (cvrp_vehicle_pass p cc st vehicle).
Proof.
  destruct st as [variables start]. unfold cvrp_vehicle_pass.
  apply bind_index_errors_only; [|intros; apply ok_index_errors_only].
  apply for_loop_index_errors_only. intros d [d1 d2].
  apply for_loop_index_errors_only. intros d' [s1 s2].
  apply bind_index_errors_only; [apply getitem_index_errors_only|].
  intros x1. apply bind_index_errors_only;
    [apply getitem_index_errors_only|].
  intros; apply ok_index_errors_only.
Qed.

Lemma cvrp_objective_function_index_errors_only (p : CVRPProblem)
    (cc : Qc) :
  index_errors_only (cvrp_objective_function compute_distances p cc).
Proof.
  unfold cvrp_objective_function.
  apply bind_index_errors_only;
    [apply vrp_objective_function_index_errors_only|].
  intros variables.
  apply bind_index_errors_only; [|intros; apply ok_index_errors_only].
  apply for_loop_index_errors_only. intros.
  apply cvrp_vehicle_pass_index_errors_only.
Qed.

Lemma wrap_vrp_index_errors_only (params : FullQuboParams)
    (p : CVRPProblem) :
  index_errors_only (wrap_vrp_qubo_problem compute_distances params p).
Proof.
  unfold wrap_vrp_qubo_problem.
  apply bind_index_errors_only;
    [apply vrp_objective_function_index_errors_only|].
  intros; apply ok_index_errors_only.
Qed.

Lemma wrap_cvrp_index_errors_only (params : FullQuboParams)
    (p : CVRPProblem) :
  index_errors_only (wrap_cvrp_qubo_problem compute_distances params p).
Proof.
  unfold wrap_cvrp_qubo_problem.
  apply bind_index_errors_only;
    [apply cvrp_objective_function_index_errors_only|].
  intros; apply ok_index_errors_only.
Qed.

End EncoderExceptions.

(** * The encoders: claims *)
Section EncoderClaims.

Variable compute_distances : list (Qc * Qc) -> list (list Qc).

(** Claim C6.  For a problem with at least one delivery whose location
    indices are distinct and index the distance matrix,
    [vrp_objective_function] returns a map that holds, for every vehicle
    block: on the pair [((step, d1), (step + 1, d2))] of two adjacent steps
    of the block, [distance[d1][d2] * cost_const]; on the diagonal pair of
    the first step and [d], [distance[depot][d] * cost_const]; on the
    diagonal pair of the last step and [d], [cost_const *
    distance[d][depot]]; and no other entry.  Contributions to one pair add
    up, which happens when the block has a single step, first and last at
    once. *)
Theorem vrp_objective_entries (p : CVRPProblem) (cc : Qc) :
  NoDup (location_idx p) ->
  (2 <= num_locations p)%Z ->
  Forall (covers (compute_distances (coords p))) (location_idx p) ->
  covers (compute_distances (coords p)) (depot_idx p) ->
  exists m, vrp_objective_function compute_distances p cc = Ok m /\
    (forall v step d1 d2,
       (0 <= v < num_vehicles p)%Z ->
       (first_step p v <= step < last_step p v)%Z ->
       d1 ∈ location_idx p -> d2 ∈ location_idx p ->
       m !! ((step, d1), ((step + 1)%Z, d2)) =
         Some (entry (compute_distances (coords p)) d1 d2 * cc)) /\
    (forall v d,
       (0 <= v < num_vehicles p)%Z -> d ∈ location_idx p ->
       m !! ((first_step p v, d), (first_step p v, d)) =
         Some (if decide (first_step p v = last_step p v)
               then entry (compute_distances (coords p)) (depot_idx p) d * cc
                    + cc * entry (compute_distances (coords p)) d (depot_idx p)
               else entry (compute_distances (coords p)) (depot_idx p) d * cc)) /\
    (forall v d,
       (0 <= v < num_vehicles p)%Z -> d ∈ location_idx p ->
       m !! ((last_step p v, d), (last_step p v, d)) =
         Some (if decide (first_step p v = last_step p v)
               then entry (compute_distances (coords p)) (depot_idx p) d * cc
                    + cc * entry (compute_distances (coords p)) d (depot_idx p)
               else cc * entry (compute_distances (coords p)) d (depot_idx p))) /\
    (forall k, is_Some (m !! k) ->
       exists v d1 d2, (0 <= v < num_vehicles p)%Z /\
         d1 ∈ location_idx p /\ d2 ∈ location_idx p /\
         ((exists step, (first_step p v <= step < last_step p v)%Z /\
                        k = ((step, d1), ((step + 1)%Z, d2))) \/
          (d1 = d2 /\ k = ((first_step p v, d1), (first_step p v, d1))) \/
          (d1 = d2 /\ k = ((last_step p v, d1), (last_step p v, d1))))).
Proof.
  intros Hnd Hsize Hloc Hdep.
  eexists. split; [by apply vrp_objective_function_emit|].
  split_and!.
  - intros v step d1 d2 Hv Hs H1 H2.
    by apply (vrp_lookup_adjacent p _ cc Hnd Hsize v).
  - intros. by apply vrp_lookup_first.
  - intros. by apply vrp_lookup_last.
  - apply vrp_lookup_is_Some.
Qed.

(** Claim C3.  For a problem whose location indices are distinct, start
    with the depot and index the distance matrix and the demands, and whose
    capacity is not zero: [cvrp_objective_function] returns the map of
    [vrp_objective_function] with [cost_const * demand[a] * demand[b] /
    capacity ^ 2] added on [((s1, a), (s2, b))] for all steps [s1 < s2] of
    one vehicle block and all distinct destinations [a], [b] other than the
    depot whose product of demands is a 64-bit integer, that is on both
    cross pairs of every unordered pair, and unchanged elsewhere; when every
    demand off the depot is 0 the two maps hold the same coefficient at
    every pair, an absent pair counting as 0. *)
Theorem cvrp_objective_adds_capacity_terms (p : CVRPProblem) (cc : Qc) :
  NoDup (location_idx p) ->
  head (location_idx p) = Some (depot_idx p) ->
  Forall (covers (compute_distances (coords p))) (location_idx p) ->
  Forall (indexable (demands p)) (location_idx p) ->
  vehicle_capacity p ≠ 0%Z ->
  exists mv mc,
    vrp_objective_function compute_distances p cc = Ok mv /\
    cvrp_objective_function compute_distances p cc = Ok mc /\
    (forall s1 s2 a b,
       same_block p s1 s2 ->
       a ∈ location_idx p -> a ≠ depot_idx p ->
       b ∈ location_idx p -> b ≠ depot_idx p -> a ≠ b ->
       fits_int64 (demand_at p a * demand_at p b) ->
       mc !! ((s1, a), (s2, b)) =
         Some (dict_get mv ((s1, a), (s2, b))
               + cc * (ZtoQc (demand_at p a * demand_at p b)
                       / ZtoQc (vehicle_capacity p ^ 2)))) /\
    (forall s1 s2 a b,
       ~ (same_block p s1 s2 /\
          a ∈ location_idx p /\ a ≠ depot_idx p /\
          b ∈ location_idx p /\ b ≠ depot_idx p /\ a ≠ b) ->
       mc !! ((s1, a), (s2, b)) = mv !! ((s1, a), (s2, b))) /\
    ((forall d, d ∈ location_idx p -> d ≠ depot_idx p -> demand_at p d = 0%Z) ->
     forall k, dict_get mc k = dict_get mv k).
Proof.
  intros Hnd Hhead Hloc Hdem Hcap.
  assert (Hdep : location_idx p ≠ [] ->
                 covers (compute_distances (coords p)) (depot_idx p)).
  { intros _. rewrite Forall_forall in Hloc. apply Hloc.
    destruct (location_idx p) as [|x l]; [done|].
    injection Hhead as ->. apply elem_of_cons; by left. }
  assert (Hdem' : Forall (indexable (demands p)) (drop 1 (location_idx p))).
  { by apply Forall_drop. }
  eexists _, _.
  split; [by apply vrp_objective_function_emit|].
  split; [by apply cvrp_objective_function_emit|].
  split_and!.
  - intros s1 s2 a b Hs Ha Hane Hb Hbne Hab Hfits.
    assert (Ha' : a ∈ drop 1 (location_idx p)) by (by apply elem_of_tail).
    assert (Hb' : b ∈ drop 1 (location_idx p)) by (by apply elem_of_tail).
    rewrite emit_lookup, decide_True.
    + rewrite total_capacity by done. unfold capacity_cost.
      by rewrite wrap_int64_fits.
    + apply cvrp_keys; [done|]. by exists s1, s2, a, b.
  - intros s1 s2 a b Hnot. rewrite emit_lookup, decide_False; [done|].
    intros (s1' & s2' & a' & b' & [= <- <- <- <-] & Hs & Ha & Hb & Hab)
      %cvrp_keys; [|done].
    apply Hnot. apply elem_of_tail in Ha as [? ?]; [|done..].
    apply elem_of_tail in Hb as [? ?]; done.
  - intros Hzero k. unfold dict_get at 1. rewrite emit_lookup.
    destruct (decide _); [|done]. cbn [default from_option id].
    rewrite total_zero; [unfold id; ring|]. apply cvrp_terms_zero.
    intros d [? ?]%elem_of_tail; auto.
Qed.

(** Claim C2, as amended.  The encoders do not validate the problem.  An
    encoder raises nothing but the [IndexError] of a table lookup (for
    [wrap_cvrp_qubo_problem]: when the capacity is not 0, so that its
    quotients are defined).  For every problem, malformed or not, whose
    location indices and depot index the distance matrix,
    [wrap_vrp_qubo_problem] returns a QUBO, and so does
    [wrap_cvrp_qubo_problem] when the capacity is not 0 and the locations
    after the first index the demands; the lengths of the arrays and the
    sign of the capacity, of the number of vehicles and of the number of
    deliveries play no part. *)
Theorem encoding_without_validation (params : FullQuboParams)
    (p : CVRPProblem) :
  index_errors_only (wrap_vrp_qubo_problem compute_distances params p) /\
  (vehicle_capacity p ≠ 0%Z ->
   index_errors_only (wrap_cvrp_qubo_problem compute_distances params p)) /\
  (Forall (covers (compute_distances (coords p))) (location_idx p) ->
   (location_idx p ≠ [] ->
    covers (compute_distances (coords p)) (depot_idx p)) ->
   (exists q, wrap_vrp_qubo_problem compute_distances params p = Ok q) /\
   (vehicle_capacity p ≠ 0%Z ->
    Forall (indexable (demands p)) (drop 1 (location_idx p)) ->
    exists q, wrap_cvrp_qubo_problem compute_distances params p = Ok q)).
Proof.
  split; [apply wrap_vrp_index_errors_only|].
  split; [intros _; apply wrap_cvrp_index_errors_only|].
  intros Hloc Hdep. split.
  - unfold wrap_vrp_qubo_problem.
    rewrite vrp_objective_function_emit by done. cbn. eauto.
  - intros _ Hdem. unfold wrap_cvrp_qubo_problem.
    rewrite cvrp_objective_function_emit by done. cbn. eauto.
Qed.

End EncoderClaims.

(** Claim C7.  For a problem whose location indices are distinct and
    start with the depot, and with [num_steps = num_vehicles *
    max_deliveries]: the map of [constraints] is the sum of two one-hot
    families.  The family of a destination other than the depot gives
    [- 2 * constraint_const] to the diagonal of each of its variables and
    [constraint_const] to every ordered pair of them, equal pairs included;
    the family of a step does the same over the variables of the step,
    depot included.  So a diagonal off the depot holds both sums, a
    diagonal at the depot one, a pair of two steps with one delivery or of
    two destinations at one step holds [constraint_const], and no other
    pair has an entry. *)
Theorem constraints_one_hot_families (p : CVRPProblem) (A : Qc) :
  NoDup (location_idx p) ->
  head (location_idx p) = Some (depot_idx p) ->
  (forall s d,
     (0 <= s < num_steps p)%Z -> d ∈ location_idx p -> d ≠ depot_idx p ->
     constraints p A !! ((s, d), (s, d)) =
       Some ((- (2 * A) + A) + (- (2 * A) + A))) /\
  (forall s,
     (0 <= s < num_steps p)%Z ->
     constraints p A !! ((s, depot_idx p), (s, depot_idx p)) =
       Some (- (2 * A) + A)) /\
  (forall s1 s2 d,
     (0 <= s1 < num_steps p)%Z -> (0 <= s2 < num_steps p)%Z -> s1 ≠ s2 ->
     d ∈ location_idx p -> d ≠ depot_idx p ->
     constraints p A !! ((s1, d), (s2, d)) = Some A) /\
  (forall s d1 d2,
     (0 <= s < num_steps p)%Z ->
     d1 ∈ location_idx p -> d2 ∈ location_idx p -> d1 ≠ d2 ->
     constraints p A !! ((s, d1), (s, d2)) = Some A) /\
  (forall k, is_Some (constraints p A !! k) ->
     exists s1 d1 s2 d2, k = ((s1, d1), (s2, d2)) /\
       (0 <= s1 < num_steps p)%Z /\ (0 <= s2 < num_steps p)%Z /\
       d1 ∈ location_idx p /\ d2 ∈ location_idx p /\
       ((d1 = d2 /\ d1 ≠ depot_idx p) \/ s1 = s2)).
Proof.
  intros Hnd Hhead. split_and!.
  - intros. by apply constraints_diagonal_delivery.
  - intros. by apply constraints_diagonal_depot.
  - intros. by apply constraints_same_destination.
  - intros. by apply constraints_same_step.
  - by apply constraints_is_Some.
Qed.

(** Claim C8.  For all coefficient maps, empty ones included, the
    combined map has the union of the two key sets as its keys and holds at
    every key the sum of the two coefficients, a missing one counting as 0;
    the combiner is a total function and has no error case. *)
Theorem merge_repr_union_sum (objective_repr constraints_repr : gmap key Qc) :
  dom (merge_repr objective_repr constraints_repr) =
    dom objective_repr ∪ dom constraints_repr /\
  (forall k,
     merge_repr objective_repr constraints_repr !! k =
       if decide (k ∈ dom objective_repr ∪ dom constraints_repr)
       then Some (dict_get objective_repr k + dict_get constraints_repr k)
       else None) /\
  merge_repr ∅ ∅ = ∅.
Proof.
  split_and!.
  - apply set_eq. intros k. rewrite elem_of_dom, merge_repr_lookup.
    destruct (decide _) as [Hk|Hk]; split; try done; by intros [? ?].
  - apply merge_repr_lookup.
  - apply map_eq. intros k. rewrite merge_repr_lookup, lookup_empty.
    rewrite decide_False; [done|].
    rewrite dom_empty_L, (left_id_L ∅ (∪)). apply not_elem_of_empty.
Qed.

(** Claim C1, evaluated at a problem with a depot and two deliveries, two
    vehicles and one delivery each.  The claim gives the objective encoders
    and the constraint encoder the same [num_vehicles * max_deliveries]
    steps, here 2; [vrp_objective_function], whose blocks have
    [len(location_idx) - 1] steps whatever [max_deliveries] is, returns a
    coefficient at step 3. *)
Theorem objective_steps_leave_constraint_space :
  num_steps problem_one_each = 2%Z /\
  exists m,
    vrp_objective_function table_distances problem_one_each (ZtoQc 1)
      = Ok m /\
    is_Some (m !! ((3, 0), (3, 0))%Z).
Proof.
  split; [done|].
  rewrite vrp_objective_function_emit by (try intros _; compute_done).
  eexists. split; [done|].
  rewrite emit_lookup. rewrite decide_True; [done|]. compute_done.
Qed.

(** * The decoder: claims *)
Section DecoderClaims.

Local Open Scope Z_scope.

(** Claim C10.  For every sample, feasible or not: the routes of the
    decoded solution are the closed complete blocks of [max_deliveries]
    selected variables, a shorter rest being dropped, at most
    [num_vehicles] of them (one when [num_vehicles] is below 1); every
    route begins and ends with [depot_idx]; and [total_demands] has one
    entry per route.  The decoder returns a solution whenever the depot and
    the selected destinations index the cost and demand tables and the
    routes have one length, so that [np.array] takes them. *)
Theorem decoded_routes_closed_at_depot (p : CVRPProblem)
    (sample : list (var * Z)) :
  (forall sol, unwrap_qbsolv_solution p sample = Ok sol ->
     routes sol = decoded_routes p sample /\
     Forall (fun r => head r = Some (depot_idx p) /\
                      last r = Some (depot_idx p)) (routes sol) /\
     length (routes sol) =
       Nat.min (Z.to_nat (Z.max (num_vehicles p) 1))
         (length (selected sample) / Z.to_nat (max_deliveries p))%nat /\
     length (total_demands sol) = length (routes sol)) /\
  (tables_cover p sample -> rectangular (decoded_routes p sample) ->
     exists sol, unwrap_qbsolv_solution p sample = Ok sol).
Proof.
  split; [|apply unwrap_total].
  intros sol (Hr & _ & Htd)%unwrap_inv. rewrite Hr, Htd.
  split; [done|]. split; [|split].
  - rewrite Forall_forall. intros r (v & _ & ->)%decoded_routes_elem.
    apply close_route_ends.
  - apply decoded_routes_length.
  - by rewrite length_fmap.
Qed.

(** Claim C9.  With the depot at index 0 and [max_deliveries] positive:
    when [v] is one of the vehicles, the sample selects enough variables to
    fill the block of [v], and every destination selected in that block is
    the depot, the decoding loop closes the route of [v] as exactly
    [[depot_idx, depot_idx]], and the recomputation of cost and demands
    runs through all the routes, the depot and the selected destinations
    being indices of the tables: the decoder raises no [IndexError].  The
    route of [v] in a solution it returns is [[depot_idx, depot_idx]], and
    it returns one when the routes have one length, so that [np.array]
    takes them. *)
Theorem empty_block_closes_as_depot_pair (p : CVRPProblem)
    (sample : list (var * Z)) (v : nat) :
  depot_idx p = 0 ->
  0 < max_deliveries p ->
  Z.of_nat v < num_vehicles p ->
  ((v + 1) * Z.to_nat (max_deliveries p) <= length (selected sample))%nat ->
  Forall (fun d => d = depot_idx p)
    (block_of (Z.to_nat (max_deliveries p)) (selected sample) v) ->
  tables_cover p sample ->
  decode_loop p sample [] [] 0 0 !! v = Some [depot_idx p; depot_idx p] /\
  (exists st, for_loop (route_pass p) (0%Qc, [])
                (decode_loop p sample [] [] 0 0) = Ok st) /\
  unwrap_qbsolv_solution p sample ≠ Raise IndexError /\
  (forall sol, unwrap_qbsolv_solution p sample = Ok sol ->
     routes sol !! v = Some [depot_idx p; depot_idx p]) /\
  (rectangular (decode_loop p sample [] [] 0 0) ->
   exists sol, unwrap_qbsolv_solution p sample = Ok sol).
Proof.
  intros Hdep HM Hv Hfull Hblk Hcov.
  assert (Hroute : decoded_routes p sample !! v
                   = Some [depot_idx p; depot_idx p]).
  { rewrite decoded_routes_lookup.
    - f_equal. unfold close_route. rewrite filter_none; [done|].
      eapply Forall_impl; [exact Hblk|]. cbn. intros d -> Hd. lia.
    - lia.
    - apply Nat.div_le_lower_bound; lia. }
  split_and!.
  - by rewrite decode_loop_spec.
  - by apply recompute_total.
  - unfold unwrap_qbsolv_solution.
    destruct (recompute_total p sample Hcov) as [[c td] ->].
    cbn. destruct (np_array _) as [arr|e] eqn:E; [done|].
    apply np_array_raise in E as [-> _]. done.
  - intros sol (-> & _)%unwrap_inv. done.
  - rewrite decode_loop_spec. by apply unwrap_total.
Qed.

(** Claim C5.  When [costs[depot_idx][depot_idx]] and
    [demands[depot_idx]] are 0, a decoded solution has as [cost] the sum
    over its routes of [costs[prev][curr]] along consecutive entries, depot
    legs included, and as [total_demands] the sum per route of the demands
    of the interior stops, these sums being 64-bit integers; both are read
    from the tables of the problem, the decoder being given no energy.  The
    decoder returns a solution whenever the depot and the selected
    destinations index the tables and the routes have one length, so that
    [np.array] takes them. *)
Theorem recomputed_cost_and_demands (p : CVRPProblem)
    (sample : list (var * Z)) :
  getitem2 (costs p) (depot_idx p) (depot_idx p) = Ok 0%Qc ->
  getitem (demands p) (depot_idx p) = Ok 0 ->
  (forall sol, unwrap_qbsolv_solution p sample = Ok sol ->
     cost sol = sumQc (route_cost p <$> routes sol) /\
     (Forall (fun r => fits_int64 (route_demand p r)) (routes sol) ->
      total_demands sol = route_demand p <$> routes sol)) /\
  (tables_cover p sample -> rectangular (decoded_routes p sample) ->
   exists sol, unwrap_qbsolv_solution p sample = Ok sol).
Proof.
  intros Hdiag Hdem. split; [|apply unwrap_total].
  intros sol (-> & -> & ->)%unwrap_inv.
  rewrite (cost_at_ok _ _ _ _ Hdiag), (demand_at_ok _ _ _ Hdem).
  split.
  - f_equal. apply list_fmap_ext. intros _ r _. cbn. ring.
  - intros Hfits. apply list_fmap_ext. intros i r Hr. cbn.
    rewrite Z.add_0_r. apply wrap_int64_fits.
    rewrite Forall_forall in Hfits. apply Hfits.
    by eapply list_elem_of_lookup_2.
Qed.

(** Claim C4, as amended.  Decoding a perfect bit assignment closes
    exactly [num_vehicles] routes, each beginning and ending at
    [depot_idx]; the route of vehicle [v] has 2 entries more than its block
    selects stops other than destination 0, the depot, hence at most
    [max_deliveries + 2], and exactly [max_deliveries + 2] when no step
    selects the depot.  These are the routes of a solution the decoder
    returns; it returns one when the depot and the selected destinations
    index the cost and demand tables and the routes have one length, so
    that [np.array] takes them, as they have when no step selects the
    depot. *)
Theorem perfect_assignment_routes (p : CVRPProblem)
    (sample : list (var * Z)) :
  0 < max_deliveries p -> 0 <= num_vehicles p ->
  perfect p sample ->
  length (decode_loop p sample [] [] 0 0) = Z.to_nat (num_vehicles p) /\
  (forall (v : nat) (r : list Z),
     decode_loop p sample [] [] 0 0 !! v = Some r ->
     head r = Some (depot_idx p) /\ last r = Some (depot_idx p) /\
     length r =
       (2 + length (filter (fun d => d ≠ 0%Z)
                     (block_of (Z.to_nat (max_deliveries p))
                        (selected sample) v)))%nat /\
     (length r <= Z.to_nat (max_deliveries p) + 2)%nat /\
     (Forall (fun d => d ≠ 0) (selected sample) ->
      length r = (Z.to_nat (max_deliveries p) + 2)%nat)) /\
  (forall sol, unwrap_qbsolv_solution p sample = Ok sol ->
     routes sol = decode_loop p sample [] [] 0 0) /\
  (tables_cover p sample ->
   rectangular (decode_loop p sample [] [] 0 0) ->
   exists sol, unwrap_qbsolv_solution p sample = Ok sol) /\
  (tables_cover p sample ->
   Forall (fun d => d ≠ 0) (selected sample) ->
   exists sol, unwrap_qbsolv_solution p sample = Ok sol).
Proof.
  intros HM HV Hperf. rewrite decode_loop_spec.
  pose proof (perfect_selected_length p sample HM HV Hperf) as Hlen.
  assert (Hq : (length (selected sample) / Z.to_nat (max_deliveries p))%nat
               = Z.to_nat (num_vehicles p)).
  { rewrite Hlen. apply Nat.div_mul. lia. }
  assert (Hn : length (decoded_routes p sample) = Z.to_nat (num_vehicles p)).
  { rewrite decoded_routes_length, Hq. lia. }
  assert (Hroutes : forall (v : nat) (r : list Z),
     decoded_routes p sample !! v = Some r ->
     head r = Some (depot_idx p) /\ last r = Some (depot_idx p) /\
     length r =
       (2 + length (filter (fun d => d ≠ 0%Z)
                     (block_of (Z.to_nat (max_deliveries p))
                        (selected sample) v)))%nat /\
     (length r <= Z.to_nat (max_deliveries p) + 2)%nat /\
     (Forall (fun d => d ≠ 0) (selected sample) ->
      length r = (Z.to_nat (max_deliveries p) + 2)%nat)).
  { intros v r Hr.
    assert (Hv : (v < Z.to_nat (num_vehicles p))%nat).
    { rewrite <- Hn. by eapply lookup_lt_Some. }
    rewrite decoded_routes_lookup in Hr by lia. injection Hr as <-.
    assert (Hblk : length (block_of (Z.to_nat (max_deliveries p))
                             (selected sample) v)
                   = Z.to_nat (max_deliveries p)).
    { apply block_of_length. rewrite Hlen. nia. }
    destruct (close_route_ends p (block_of (Z.to_nat (max_deliveries p))
                                    (selected sample) v)) as [Hh Hl].
    rewrite close_route_length.
    split; [done|]. split; [done|]. split; [done|]. split.
    - pose proof (length_filter (fun d => d ≠ 0)
          (block_of (Z.to_nat (max_deliveries p)) (selected sample) v)). lia.
    - intros Hnz. rewrite filter_all; [lia|].
      rewrite Forall_forall in *. intros d Hd. apply Hnz.
      by eapply block_of_subseteq. }
  split; [done|]. split; [done|]. split; [|split].
  - by intros sol (-> & _)%unwrap_inv.
  - apply unwrap_total.
  - intros Hcov Hnz. apply unwrap_total; [done|].
    apply (rectangular_same_length _ (Z.to_nat (max_deliveries p) + 2)).
    rewrite Forall_lookup. intros v r Hr.
    by apply (Hroutes v r Hr).
Qed.

(** Claim C4 as stated fails: with two deliveries for two vehicles of two
    slots each, the perfect assignment keeps each vehicle at the depot for
    one step, and both routes have 3 entries, not [max_deliveries + 2]. *)
Lemma perfect_assignment_short_routes :
  perfect problem_two_by_two sample_with_depot_stays /\
  tables_cover problem_two_by_two sample_with_depot_stays /\
  exists sol,
    unwrap_qbsolv_solution problem_two_by_two sample_with_depot_stays
      = Ok sol /\
    routes sol = [[0; 1; 0]; [0; 2; 0]] /\
    ~ Forall (fun r => length r =
                (Z.to_nat (max_deliveries problem_two_by_two) + 2)%nat)
        (routes sol).
Proof.
  split; [compute_done|]. split; [compute_done|].
  destruct (unwrap_total problem_two_by_two sample_with_depot_stays)
    as [sol Hsol]; [compute_done..|].
  exists sol. split; [done|].
  apply unwrap_inv in Hsol as (-> & _).
  split; [by vm_compute|].
  intros H. apply Forall_cons_1 in H as [H _]. vm_compute in H. discriminate.
Qed.

Lemma perfect_assignment_routes_witness :
  exists sol,
    unwrap_qbsolv_solution problem_two_by_two sample_with_depot_stays
      = Ok sol /\
    length (routes sol) = Z.to_nat (num_vehicles problem_two_by_two) /\
    forall (v : nat) (r : list Z), routes sol !! v = Some r ->
      (length r <= Z.to_nat (max_deliveries problem_two_by_two) + 2)%nat.
Proof.
  destruct (perfect_assignment_routes problem_two_by_two
              sample_with_depot_stays)
    as (Hlen & Hroutes & Hsol & Hruns & _); [compute_done..|].
  destruct Hruns as [sol Hs]; [compute_done..|].
  exists sol. rewrite (Hsol sol Hs). split; [done|]. split; [done|].
  intros v r Hr. by destruct (Hroutes v r Hr) as (_ & _ & _ & Hle & _).
Defined.

End DecoderClaims.

(** Claim C2 as stated fails: a problem with three locations and one
    demand, a negative capacity and no delivery slot is encoded into a
    QUBO that is not empty by [wrap_vrp_qubo_problem]; a problem with a
    negative capacity and no delivery slot is encoded into a QUBO that is
    not empty by [wrap_cvrp_qubo_problem] as well. *)
Lemma malformed_problem_is_encoded :
  malformed problem_malformed /\
  (exists q,
     wrap_vrp_qubo_problem table_distances unit_params problem_malformed
       = Ok q /\
     q ≠ ∅) /\
  malformed problem_negative_capacity /\
  (exists q,
     wrap_cvrp_qubo_problem table_distances unit_params
       problem_negative_capacity = Ok q /\
     q ≠ ∅).
Proof.
  split; [right; left; compute_done|]. split.
  { destruct (wrap_vrp_qubo_problem table_distances unit_params
                problem_malformed) as [q|e] eqn:Hq; [|by vm_compute in Hq].
    exists q. split; [done|]. intros ->. by vm_compute in Hq. }
  split; [right; left; compute_done|].
  destruct (wrap_cvrp_qubo_problem table_distances unit_params
              problem_negative_capacity) as [q|e] eqn:Hq;
    [|by vm_compute in Hq].
  exists q. split; [done|]. intros ->. by vm_compute in Hq.
Qed.

(** * The theorems at concrete problems *)

Lemma vrp_objective_entries_witness :
  exists m, vrp_objective_function table_distances problem_two_by_two
              (ZtoQc 1) = Ok m /\
    m !! ((2, 1), (3, 2))%Z =
      Some (entry (table_distances []) 1 2 * ZtoQc 1).
Proof.
  destruct (vrp_objective_entries table_distances problem_two_by_two
              (ZtoQc 1)) as (m & Hm & Hadj & _);
    [compute_done..|].
  exists m. split; [done|].
  apply (Hadj 1%Z 2%Z 1%Z 2%Z); compute_done.
Defined.

Lemma cvrp_objective_adds_capacity_terms_witness :
  exists mv mc,
    vrp_objective_function table_distances problem_two_by_two (ZtoQc 1)
      = Ok mv /\
    cvrp_objective_function table_distances problem_two_by_two (ZtoQc 1)
      = Ok mc /\
    mc !! ((0, 1), (1, 2))%Z =
      Some (dict_get mv ((0, 1), (1, 2))%Z
            + ZtoQc 1 * (ZtoQc (3 * 4) / ZtoQc (10 ^ 2))).
Proof.
  destruct (cvrp_objective_adds_capacity_terms table_distances
              problem_two_by_two (ZtoQc 1)) as (mv & mc & Hv & Hc & Hadd & _);
    [compute_done..|].
  exists mv, mc. split; [done|]. split; [done|].
  apply (Hadd 0%Z 1%Z 1%Z 2%Z); [exists 0%Z|..]; compute_done.
Defined.

Lemma constraints_one_hot_families_witness :
  constraints problem_two_by_two (ZtoQc 10) !! ((0, 1), (0, 1))%Z =
    Some ((- (2 * ZtoQc 10) + ZtoQc 10) + (- (2 * ZtoQc 10) + ZtoQc 10)).
Proof.
  destruct (constraints_one_hot_families problem_two_by_two (ZtoQc 10))
    as (Hdiag & _); [compute_done..|].
  apply Hdiag; compute_done.
Defined.

Lemma encoding_without_validation_witness :
  index_errors_only (wrap_cvrp_qubo_problem table_distances unit_params
                       problem_negative_capacity) /\
  (exists q, wrap_vrp_qubo_problem table_distances unit_params
               problem_negative_capacity = Ok q) /\
  (exists q, wrap_cvrp_qubo_problem table_distances unit_params
               problem_negative_capacity = Ok q).
Proof.
  destruct (encoding_without_validation table_distances unit_params
              problem_negative_capacity) as (_ & Hraise & Hq).
  destruct Hq as [Hv Hc]; [compute_done|intros _; compute_done|].
  split; [apply Hraise; compute_done|].
  split; [exact Hv|]. apply Hc; compute_done.
Defined.

Lemma recomputed_cost_and_demands_witness :
  exists sol,
    unwrap_qbsolv_solution problem_two_by_two sample_with_depot_stays
      = Ok sol /\
    cost sol = sumQc (route_cost problem_two_by_two <$> routes sol) /\
    total_demands sol = route_demand problem_two_by_two <$> routes sol.
Proof.
  destruct (recomputed_cost_and_demands problem_two_by_two
              sample_with_depot_stays) as [Hprops Hruns]; [compute_done..|].
  destruct Hruns as [sol Hsol]; [compute_done..|].
  exists sol. split; [done|].
  destruct (Hprops sol Hsol) as [Hcost Hdem]. split; [done|].
  apply Hdem. apply unwrap_inv in Hsol as (-> & _). compute_done.
Defined.

Lemma empty_block_closes_as_depot_pair_witness :
  decode_loop problem_two_by_two sample_with_idle_vehicle [] [] 0%Z 0%Z
    !! 1%nat = Some [0; 0]%Z /\
  (exists st, for_loop (route_pass problem_two_by_two) (0, [])
                (decode_loop problem_two_by_two sample_with_idle_vehicle
                   [] [] 0%Z 0%Z) = Ok st) /\
  unwrap_qbsolv_solution problem_two_by_two sample_with_idle_vehicle
    ≠ Raise IndexError /\
  exists sol,
    unwrap_qbsolv_solution problem_two_by_two sample_all_idle = Ok sol /\
    routes sol !! 1%nat = Some [0; 0]%Z.
Proof.
  destruct (empty_block_closes_as_depot_pair problem_two_by_two
              sample_with_idle_vehicle 1) as (Hroute & Hruns & Hno & _);
    [compute_done..|].
  split; [exact Hroute|]. split; [exact Hruns|]. split; [exact Hno|].
  destruct (empty_block_closes_as_depot_pair problem_two_by_two
              sample_all_idle 1) as (_ & _ & _ & Hsol & Hret);
    [compute_done..|].
  destruct Hret as [sol Hs]; [compute_done|].
  exists sol. split; [exact Hs|]. exact (Hsol sol Hs).
Defined.

Lemma decoded_routes_closed_at_depot_witness :
  exists sol,
    unwrap_qbsolv_solution problem_two_by_two sample_with_depot_stays
      = Ok sol /\
    Forall (fun r => head r = Some 0%Z /\ last r = Some 0%Z) (routes sol) /\
    length (total_demands sol) = length (routes sol).
Proof.
  destruct (decoded_routes_closed_at_depot problem_two_by_two
              sample_with_depot_stays) as [Hprops Hruns].
  destruct Hruns as [sol Hsol]; [compute_done..|].
  exists sol. split; [done|].
  destruct (Hprops sol Hsol) as (_ & Hends & _ & Hlen). done.
Defined.

(** * Further properties of the encoders *)

Lemma index_error_of {A : Type} (r : result A) (e : exn) :
  index_errors_only r -> r = Raise e -> e = IndexError.
Proof. intros H. apply H. Qed.

Ltac index_errors :=
  repeat first
    [ apply ok_index_errors_only
    | apply getitem_index_errors_only
    | apply getitem2_index_errors_only
    | apply for_loop_index_errors_only; intros ? ?
    | apply bind_index_errors_only; [|intros ?]
    | match goal with
      | |- context [match ?x with _ => _ end] => is_var x; destruct x
      end ].

Lemma for_loop_raise {S A : Type} (body : S -> A -> result S) (a : A)
    (l : list A) :
  a ∈ l -> (forall s, body s a = Raise IndexError) ->
  (forall s x, index_errors_only (body s x)) ->
  forall s, for_loop body s l = Raise IndexError.
Proof.
  intros Ha Hraise Hbody. induction l as [|x l IH]; intros s.
  - by apply elem_of_nil in Ha.
  - cbn [for_loop]. destruct (body s x) as [s'|e] eqn:E.
    + cbn [mbind result_bind]. apply elem_of_cons in Ha as [->|Ha].
      * by rewrite Hraise in E.
      * by apply IH.
    + by apply index_error_of in E as ->.
Qed.

Lemma getitem_raise {A : Type} (l : list A) (i : Z) :
  ~ indexable l i -> getitem l i = Raise IndexError.
Proof.
  unfold indexable, getitem. intros H.
  destruct (decide (i < 0)%Z); rewrite decide_False by lia; done.
Qed.

(** ** Edge cases and errors *)

Lemma range_nil (a b : Z) : (b <= a)%Z -> range a b = [].
Proof.
  intros H. unfold range, seqZ. by replace (Z.to_nat (b - a)) with 0%nat by lia.
Qed.

Lemma product_nil_r {A B : Type} (xs : list A) :
  product xs (@nil B) = [].
Proof.
  unfold product. induction xs as [|x xs IH]; [done|].
  by rewrite bind_cons, IH.
Qed.

Lemma bind_nil_ext {A B : Type} (f : A -> list B) (l : list A) :
  (forall x, f x = []) -> l ≫= f = [].
Proof.
  intros H. induction l as [|x l IH]; [done|]. by rewrite bind_cons, IH, H.
Qed.

Lemma merge_repr_empty : merge_repr ∅ ∅ = ∅.
Proof.
  apply map_eq. intros k. rewrite merge_repr_lookup, lookup_empty.
  rewrite decide_False; [done|].
  rewrite dom_empty_L, (left_id_L ∅ (∪)). apply not_elem_of_empty.
Qed.

Lemma vrp_terms_no_location (p : CVRPProblem) (distances : list (list Qc))
    (cc : Qc) :
  location_idx p = [] -> vrp_terms p distances cc = [].
Proof.
  intros H. unfold vrp_terms. apply bind_nil_ext. intros v.
  unfold vrp_block_terms. rewrite H, !product_nil_r. done.
Qed.

Lemma cvrp_terms_no_location (p : CVRPProblem) (cc : Qc) :
  location_idx p = [] -> cvrp_terms p cc = [].
Proof.
  intros H. unfold cvrp_terms. apply bind_nil_ext. intros v.
  unfold cvrp_block_terms, block_pairs. rewrite H. done.
Qed.

Lemma constraint_terms_no_location (p : CVRPProblem) (A : Qc) :
  location_idx p = [] -> constraint_terms p A = [].
Proof.
  intros H. unfold constraint_terms. rewrite H.
  change (drop 1 [] ≫= _) with (@nil (key * Qc)). cbn [app].
  apply bind_nil_ext. intros step.
  unfold step_variables. by rewrite H.
Qed.

Lemma constraint_terms_no_step (p : CVRPProblem) (A : Qc) :
  (num_steps p <= 0)%Z -> constraint_terms p A = [].
Proof.
  intros H. unfold constraint_terms.
  rewrite (range_nil 0 (num_steps p)) by lia. cbn. rewrite app_nil_r.
  apply bind_nil_ext. intros dest. unfold dest_variables.
  by rewrite range_nil by lia.
Qed.

Section EncoderExtras.

Variable compute_distances : list (Qc * Qc) -> list (list Qc).

(** Property X2.  With no vehicle, or with no location, both wrappers return
    the empty QUBO: neither the objective nor the constraints add a term,
    and no entry of the distance matrix or of the demands is read. *)
Theorem encode_nothing (params : FullQuboParams) (p : CVRPProblem) :
  num_vehicles p = 0%Z \/ location_idx p = [] ->
  wrap_vrp_qubo_problem compute_distances params p = Ok ∅ /\
  wrap_cvrp_qubo_problem compute_distances params p = Ok ∅.
Proof.
  intros H.
  assert (Hv : vrp_objective_function compute_distances p (cost_const params)
               = Ok ∅).
  { destruct H as [H|H].
    - unfold vrp_objective_function. rewrite H. done.
    - rewrite vrp_objective_function_emit; [|by rewrite H..].
      by rewrite vrp_terms_no_location. }
  assert (Hc : cvrp_objective_function compute_distances p (cost_const params)
               = Ok ∅).
  { unfold cvrp_objective_function. rewrite Hv. cbn [mbind result_bind].
    destruct H as [H|H].
    - rewrite H. done.
    - destruct (cvrp_loop_emit p (cost_const params))
        with (variables := (∅ : gmap key Qc)) as [stop ->].
      + rewrite H. intros d Hd. by apply elem_of_nil in Hd.
      + by rewrite cvrp_terms_no_location. }
  assert (Hk : constraints p (constraint_const params) = ∅).
  { rewrite constraints_emit. destruct H as [H|H].
    - rewrite constraint_terms_no_step; [done|]. unfold num_steps. lia.
    - by rewrite constraint_terms_no_location. }
  unfold wrap_vrp_qubo_problem, wrap_cvrp_qubo_problem.
  rewrite Hv, Hc, Hk. cbn. by rewrite merge_repr_empty.
Qed.

End EncoderExtras.

Lemma for_loop_raise_all {S A : Type} (body : S -> A -> result S)
    (l : list A) :
  l ≠ [] -> (forall s a, a ∈ l -> body s a = Raise IndexError) ->
  forall s, for_loop body s l = Raise IndexError.
Proof.
  intros Hl Hraise s. destruct l as [|a l]; [done|].
  cbn [for_loop]. rewrite Hraise; [done|]. apply elem_of_cons; by left.
Qed.

Lemma getitem2_raise_row {A : Type} (m : list (list A)) (i j : Z) :
  ~ indexable m i -> getitem2 m i j = Raise IndexError.
Proof. intros H. unfold getitem2. by rewrite getitem_raise. Qed.

Lemma range_first (a b : Z) : (a < b)%Z -> a ∈ range a b.
Proof. intros H. apply elem_of_range. lia. Qed.

Lemma combinations2_partner {A : Type} (l : list A) (x : A) :
  x ∈ l -> (2 <= length l)%nat ->
  exists y, (x, y) ∈ combinations2 l \/ (y, x) ∈ combinations2 l.
Proof.
  destruct l as [|a l]; [by intros ?%elem_of_nil|].
  intros [->|Hx]%elem_of_cons Hlen.
  - destruct l as [|b l]; [cbn in Hlen; lia|]. exists b. left.
    apply elem_of_combinations2_cons. left. split; [done|].
    apply elem_of_cons; by left.
  - exists a. right. apply elem_of_combinations2_cons. by left.
Qed.

Section EncoderErrors.

Variable compute_distances : list (Qc * Qc) -> list (list Qc).

Lemma vrp_vehicle_pass_raise (p : CVRPProblem) (distances : list (list Qc))
    (cc : Qc) (d : Z) (st : gmap key Qc * Z) (vehicle : Z) :
  d ∈ location_idx p -> ~ indexable distances d ->
  vrp_vehicle_pass p distances cc st vehicle = Raise IndexError.
Proof.
  intros Hd Hidx. destruct st as [variables start].
  unfold vrp_vehicle_pass.
  destruct (for_loop _ variables (range _ _)) as [variables'|e] eqn:E.
  2: { apply index_error_of in E as ->; [done|]. index_errors. }
  cbn [mbind result_bind].
  rewrite (for_loop_raise _ d); [done|done| |].
  - intros s. destruct (getitem2 distances (depot_idx p) d) as [x|e] eqn:E'.
    + cbn [mbind result_bind]. by rewrite getitem2_raise_row.
    + apply index_error_of in E' as ->; [done|]. index_errors.
  - intros s x. index_errors.
Qed.

(** Property X3.  With at least one vehicle, a location index that is not a
    row index of the distance matrix makes both wrappers raise [IndexError];
    no QUBO is returned. *)
Theorem encode_raises_on_unknown_location (params : FullQuboParams)
    (p : CVRPProblem) (d : Z) :
  (1 <= num_vehicles p)%Z -> d ∈ location_idx p ->
  ~ indexable (compute_distances (coords p)) d ->
  wrap_vrp_qubo_problem compute_distances params p = Raise IndexError /\
  wrap_cvrp_qubo_problem compute_distances params p = Raise IndexError.
Proof.
  intros HV Hd Hidx.
  assert (Hv : vrp_objective_function compute_distances p (cost_const params)
               = Raise IndexError).
  { unfold vrp_objective_function.
    rewrite (for_loop_raise _ 0%Z); [done| | |].
    - apply range_first. lia.
    - intros st. by apply (vrp_vehicle_pass_raise p _ _ d).
    - intros st v. apply vrp_vehicle_pass_index_errors_only. }
  unfold wrap_vrp_qubo_problem, wrap_cvrp_qubo_problem,
    cvrp_objective_function.
  by rewrite Hv.
Qed.

Lemma cvrp_vehicle_pass_raise (p : CVRPProblem) (cc : Qc) (d : Z)
    (st : gmap key Qc * Z) (vehicle : Z) :
  (3 <= num_locations p)%Z ->
  d ∈ drop 1 (location_idx p) -> ~ indexable (demands p) d ->
  cvrp_vehicle_pass p cc st vehicle = Raise IndexError.
Proof.
  intros Hsize Hd Hidx. destruct st as [variables start].
  unfold cvrp_vehicle_pass.
  assert (Hlen : (2 <= length (drop 1 (location_idx p)))%nat).
  { rewrite length_drop. unfold num_locations in Hsize. lia. }
  destruct (combinations2_partner _ d Hd Hlen) as [y Hy].
  assert (Hinner : forall (d1 d2 : Z) (s : gmap key Qc),
            d1 = d \/ d2 = d ->
            for_loop (fun variables '(s1, s2) =>
              x1 ← getitem (demands p) d1;
              x2 ← getitem (demands p) d2;
              Ok (dict_add
                    (dict_add variables ((s1, d1), (s2, d2))
                       (cc * (ZtoQc (wrap_int64 (x1 * x2))
                              / ZtoQc (vehicle_capacity p ^ 2))))
                    ((s1, d2), (s2, d1))
                    (cc * (ZtoQc (wrap_int64 (x1 * x2))
                           / ZtoQc (vehicle_capacity p ^ 2)))))
              s (combinations2
                   (range start
                      (start + Z.of_nat (length (location_idx p)) - 2 + 1)))
            = Raise IndexError).
  { intros d1 d2 s Hd12. apply for_loop_raise_all.
    - intros Hnil.
      assert (Hin : (start, (start + 1)%Z) ∈
                combinations2 (range start
                  (start + Z.of_nat (length (location_idx p)) - 2 + 1))).
      { apply elem_of_combinations2_range. unfold num_locations in Hsize.
        lia. }
      rewrite Hnil in Hin. by apply elem_of_nil in Hin.
    - intros s' [s1 s2] _. destruct Hd12 as [->| ->].
      + by rewrite (getitem_raise (demands p) d).
      + destruct (getitem (demands p) d1) as [x1|e] eqn:E.
        * cbn [mbind result_bind]. by rewrite getitem_raise.
        * apply index_error_of in E as ->; [done|]. index_errors. }
  destruct Hy as [Hy|Hy].
  - rewrite (for_loop_raise _ (d, y)); [done|done| |].
    + intros s. apply Hinner. by left.
    + intros s x. index_errors.
  - rewrite (for_loop_raise _ (y, d)); [done|done| |].
    + intros s. apply Hinner. by right.
    + intros s x. index_errors.
Qed.

(** Property X4.  With at least one vehicle and at least three locations
    that all index the distance matrix, a delivery whose index is outside
    [demands] makes [wrap_cvrp_qubo_problem] raise [IndexError], while
    [wrap_vrp_qubo_problem], which never reads the demands, returns a QUBO
    for the same problem. *)
Theorem cvrp_raises_on_missing_demand (params : FullQuboParams)
    (p : CVRPProblem) (d : Z) :
  (1 <= num_vehicles p)%Z -> (3 <= num_locations p)%Z ->
  Forall (covers (compute_distances (coords p))) (location_idx p) ->
  covers (compute_distances (coords p)) (depot_idx p) ->
  d ∈ drop 1 (location_idx p) -> ~ indexable (demands p) d ->
  wrap_cvrp_qubo_problem compute_distances params p = Raise IndexError /\
  exists q, wrap_vrp_qubo_problem compute_distances params p = Ok q.
Proof.
  intros HV Hsize Hloc Hdep Hd Hidx. split.
  - unfold wrap_cvrp_qubo_problem, cvrp_objective_function.
    rewrite vrp_objective_function_emit by done. cbn [mbind result_bind].
    rewrite (for_loop_raise _ 0%Z); [done| | |].
    + apply range_first. lia.
    + intros st. by apply (cvrp_vehicle_pass_raise p _ d).
    + intros st v. apply cvrp_vehicle_pass_index_errors_only.
  - unfold wrap_vrp_qubo_problem.
    rewrite vrp_objective_function_emit by done. cbn. eauto.
Qed.

End EncoderErrors.

(** Property X5.  For distinct location indices the map of [constraints] is
    symmetric: the pairs [(u, v)] and [(v, u)] are both absent or hold the
    same coefficient. *)
Theorem constraints_symmetric (p : CVRPProblem) (A : Qc) (u v : var) :
  NoDup (location_idx p) ->
  constraints p A !! (u, v) = constraints p A !! (v, u).
Proof.
  intros Hnd. destruct u as [s1 d1], v as [s2 d2].
  assert (Hdp : ((s1, d1), (s2, d2)) ∈ dest_pairs p <->
                ((s2, d2), (s1, d1)) ∈ dest_pairs p).
  { rewrite !elem_of_dest_pairs. split; intros (-> & ? & ? & ?); done. }
  assert (Hsp : ((s1, d1), (s2, d2)) ∈ step_pairs p <->
                ((s2, d2), (s1, d1)) ∈ step_pairs p).
  { rewrite !elem_of_step_pairs. split; intros (-> & ? & ? & ?); done. }
  assert (Hdd : ((s1, d1), (s2, d2)) ∈ (fun v : var => (v, v)) <$> dest_vars p
                <-> ((s2, d2), (s1, d1)) ∈
                      (fun v : var => (v, v)) <$> dest_vars p).
  { rewrite !list_elem_of_fmap.
    split; intros (w & [= -> ->] & Hw); by exists w. }
  assert (Hsd : ((s1, d1), (s2, d2)) ∈ (fun v : var => (v, v)) <$> step_vars p
                <-> ((s2, d2), (s1, d1)) ∈
                      (fun v : var => (v, v)) <$> step_vars p).
  { rewrite !list_elem_of_fmap.
    split; intros (w & [= -> ->] & Hw); by exists w. }
  rewrite !constraints_lookup by done.
  repeat case_decide; try tauto; done.
Qed.

(** ** The value of the coefficient maps *)

Lemma sumQc_scale {A : Type} (c : Qc) (f : A -> Qc) (l : list A) :
  sumQc ((fun a => c * f a) <$> l) = c * sumQc (f <$> l).
Proof.
  induction l as [|a l IH]; cbn; [ring|].
  unfold sumQc in *. cbn. rewrite IH. ring.
Qed.

Lemma sumQc_plus {A : Type} (f g : A -> Qc) (l : list A) :
  sumQc ((fun a => f a + g a) <$> l) = sumQc (f <$> l) + sumQc (g <$> l).
Proof.
  induction l as [|a l IH]; cbn; [ring|].
  unfold sumQc in *. cbn. rewrite IH. ring.
Qed.

Lemma sumQc_ext {A : Type} (f g : A -> Qc) (l : list A) :
  (forall a, a ∈ l -> f a = g a) ->
  sumQc (f <$> l) = sumQc (g <$> l).
Proof.
  intros H. f_equal. apply list_fmap_ext. intros i a Ha. apply H.
  by eapply list_elem_of_lookup_2.
Qed.

Lemma sumQc_bind {A : Type} (g : A -> list Qc) (l : list A) :
  sumQc (l ≫= g) = sumQc ((fun a => sumQc (g a)) <$> l).
Proof.
  induction l as [|a l IH]; [done|].
  rewrite bind_cons, sumQc_app, IH. done.
Qed.

Lemma sumQc_product {A B : Type} (h : A * B -> Qc) (xs : list A)
    (ys : list B) :
  sumQc (h <$> product xs ys) =
    sumQc ((fun a => sumQc ((fun b => h (a, b)) <$> ys)) <$> xs).
Proof.
  unfold product. rewrite fmap_bind, sumQc_bind.
  apply sumQc_ext. intros a _. by rewrite <- list_fmap_compose.
Qed.

Lemma sumQc_const_zero {A : Type} (l : list A) :
  sumQc ((fun _ => 0) <$> l) = 0.
Proof.
  induction l as [|a l IH]; [done|].
  cbn. unfold sumQc in *. cbn. rewrite IH. ring.
Qed.

Lemma value_app (x : var -> Qc) (l1 l2 : list (key * Qc)) :
  value x (l1 ++ l2) = value x l1 + value x l2.
Proof. unfold value. by rewrite fmap_app, sumQc_app. Qed.

Lemma value_cons (x : var -> Qc) (kc : key * Qc) (l : list (key * Qc)) :
  value x (kc :: l) = term_value x kc + value x l.
Proof. done. Qed.

Lemma value_perm (x : var -> Qc) (l1 l2 : list (key * Qc)) :
  l1 ≡ₚ l2 -> value x l1 = value x l2.
Proof. intros H. unfold value. apply sumQc_perm. by rewrite H. Qed.

Lemma value_bind {A : Type} (x : var -> Qc) (g : A -> list (key * Qc))
    (l : list A) :
  value x (l ≫= g) = sumQc ((fun a => value x (g a)) <$> l).
Proof.
  induction l as [|a l IH]; [done|].
  rewrite bind_cons, value_app, IH. done.
Qed.

Lemma value_fmap {A : Type} (x : var -> Qc) (g : A -> key * Qc)
    (l : list A) :
  value x (g <$> l) = sumQc ((fun a => term_value x (g a)) <$> l).
Proof. unfold value. by rewrite <- list_fmap_compose. Qed.

Lemma energy_empty (x : var -> Qc) : energy ∅ x = 0.
Proof. unfold energy. by rewrite map_to_list_empty. Qed.

Lemma energy_insert (x : var -> Qc) (d : gmap key Qc) (k : key) (c : Qc) :
  d !! k = None ->
  energy (<[k := c]> d) x = c * x k.1 * x k.2 + energy d x.
Proof.
  intros H. unfold energy.
  by rewrite (value_perm _ _ _ (map_to_list_insert d k c H)).
Qed.

Lemma energy_dict_add (x : var -> Qc) (d : gmap key Qc) (k : key) (c : Qc) :
  energy (dict_add d k c) x = energy d x + c * x k.1 * x k.2.
Proof.
  unfold dict_add. destruct (d !! k) as [v|] eqn:E; cbn.
  - rewrite <- (insert_delete_eq d).
    rewrite <- (insert_delete_id d k v E) at 2.
    rewrite !energy_insert by apply lookup_delete_eq. ring.
  - rewrite energy_insert by done. ring.
Qed.

Lemma energy_emit (x : var -> Qc) (terms : list (key * Qc)) :
  forall d, energy (emit d terms) x = energy d x + value x terms.
Proof.
  induction terms as [|[k c] terms IH]; intros d.
  - cbn. unfold value. cbn. ring.
  - change (emit d ((k, c) :: terms)) with (emit (dict_add d k c) terms).
    rewrite IH, energy_dict_add, value_cons. unfold term_value. cbn. ring.
Qed.

Lemma one_hot_value (x : var -> Qc) (A : Qc) (vars : list var) :
  value x (one_hot_terms A vars) =
    A * (sumQc (x <$> vars) * sumQc (x <$> vars))
    - 2 * A * sumQc ((fun v => x v * x v) <$> vars).
Proof.
  unfold one_hot_terms. rewrite value_app, !value_fmap.
  rewrite (sumQc_product (A := var) (B := var)).
  unfold term_value, diagonal_term, pair_term. cbn [fst snd].
  rewrite (sumQc_ext _ (fun v => - (2 * A) * (x v * x v)))
    by (intros; ring).
  rewrite sumQc_scale.
  rewrite (sumQc_ext (fun a => sumQc ((fun b => A * x a * x b) <$> vars))
             (fun a => (A * sumQc (x <$> vars)) * x a)).
  2:{ intros a _. rewrite (sumQc_scale (A * x a) x). ring. }
  rewrite sumQc_scale. ring.
Qed.

Lemma binary_square (x : var -> Qc) (vars : list var) :
  binary x -> sumQc ((fun v => x v * x v) <$> vars) = sumQc (x <$> vars).
Proof.
  intros Hx. apply sumQc_ext. intros v _. destruct (Hx v) as [-> | ->]; ring.
Qed.

Lemma one_hot_value_binary (x : var -> Qc) (A : Qc) (vars : list var) :
  binary x ->
  value x (one_hot_terms A vars) =
    A * ((sumQc (x <$> vars) - 1) * (sumQc (x <$> vars) - 1) - 1).
Proof. intros Hx. rewrite one_hot_value, binary_square by done. ring. Qed.

Lemma ZtoQc_length {A : Type} (l : list A) :
  sumQc ((fun _ => 1) <$> l) = ZtoQc (Z.of_nat (length l)).
Proof.
  induction l as [|a l IH]; [done|].
  cbn [fmap list_fmap length]. unfold sumQc in *. cbn [foldr]. rewrite IH.
  unfold ZtoQc. apply Qc_is_canon. cbn -[Z.of_nat inject_Z].
  rewrite !Qred_correct. rewrite Nat2Z.inj_succ, <- Z.add_1_l.
  by rewrite inject_Z_plus.
Qed.

Lemma sumQc_minus_one {A : Type} (f : A -> Qc) (l : list A) :
  sumQc ((fun a => f a - 1) <$> l) =
    sumQc (f <$> l) - ZtoQc (Z.of_nat (length l)).
Proof.
  rewrite <- ZtoQc_length.
  induction l as [|a l IH]; cbn; [ring|].
  unfold sumQc in *. cbn. rewrite IH. ring.
Qed.

Lemma ZtoQc_add (a b : Z) : ZtoQc (a + b) = ZtoQc a + ZtoQc b.
Proof.
  unfold ZtoQc. apply Qc_is_canon. cbn -[inject_Z].
  rewrite !Qred_correct. by rewrite inject_Z_plus.
Qed.

Lemma constraints_energy_closed_form (p : CVRPProblem) (A : Qc)
    (x : var -> Qc) :
  binary x ->
  energy (constraints p A) x = A * (penalty p x - ZtoQc (num_families p)).
Proof.
  intros Hx. rewrite constraints_emit, energy_emit, energy_empty.
  unfold constraint_terms. rewrite value_app, !value_bind.
  rewrite (sumQc_ext _
            (fun d => A * ((visits p x d - 1) * (visits p x d - 1) - 1)))
    by (intros; by apply one_hot_value_binary).
  rewrite (sumQc_ext (fun s => value x _)
            (fun s => A * ((occupancy p x s - 1) * (occupancy p x s - 1) - 1)))
    by (intros; by apply one_hot_value_binary).
  rewrite !sumQc_scale, !sumQc_minus_one.
  unfold penalty, num_families. rewrite Nat2Z.inj_add, ZtoQc_add. ring.
Qed.

Lemma Qc_square_nonneg (a : Qc) : 0 <= a * a.
Proof.
  destruct (Qclt_le_dec a 0) as [H|H].
  - replace (a * a) with ((- a) * (- a)) by ring.
    assert (0 <= - a) as H'.
    { replace 0 with (- 0) by ring. apply Qcopp_le_compat.
      by apply Qclt_le_weak. }
    by apply Qcmult_nonneg_nonneg.
  - by apply Qcmult_nonneg_nonneg.
Qed.

Lemma Qc_square_zero (a : Qc) : a * a = 0 <-> a = 0.
Proof.
  split; [|intros ->; ring].
  intros H. by destruct (Qcmult_integral _ _ H).
Qed.

Lemma Qc_plus_zero (a b : Qc) :
  0 <= a -> 0 <= b -> a + b = 0 <-> a = 0 /\ b = 0.
Proof.
  intros Ha Hb. split; [|intros [-> ->]; ring].
  intros H.
  assert (a <= 0) as Ha'.
  { replace a with (- b) by (rewrite <- (Qcplus_0_l (- b)), <- H; ring).
    replace 0 with (- 0) by ring. by apply Qcopp_le_compat. }
  assert (a = 0) as -> by by apply Qcle_antisym.
  split; [done|]. rewrite <- H. ring.
Qed.

Lemma sumQc_nonneg {A : Type} (f : A -> Qc) (l : list A) :
  (forall a, a ∈ l -> 0 <= f a) -> 0 <= sumQc (f <$> l).
Proof.
  induction l as [|a l IH]; intros H; [apply Qcle_refl|].
  cbn. change (0 <= f a + sumQc (f <$> l)).
  apply Qcplus_nonneg_nonneg.
  - apply H, elem_of_cons; by left.
  - apply IH. intros; apply H, elem_of_cons; by right.
Qed.

Lemma sumQc_zero_iff {A : Type} (f : A -> Qc) (l : list A) :
  (forall a, a ∈ l -> 0 <= f a) ->
  sumQc (f <$> l) = 0 <-> forall a, a ∈ l -> f a = 0.
Proof.
  induction l as [|a l IH]; intros H.
  - split; [|done]. by intros _ a ?%elem_of_nil.
  - change (sumQc (f <$> a :: l)) with (f a + sumQc (f <$> l)).
    rewrite Qc_plus_zero.
    + rewrite IH by (intros; apply H, elem_of_cons; by right).
      split.
      * intros [Ha Hl] b [->|Hb]%elem_of_cons; [done|by apply Hl].
      * intros Hall. split; [apply Hall, elem_of_cons; by left|].
        intros; apply Hall, elem_of_cons; by right.
    + apply H, elem_of_cons; by left.
    + apply sumQc_nonneg. intros; apply H, elem_of_cons; by right.
Qed.

Lemma penalty_nonneg (p : CVRPProblem) (x : var -> Qc) : 0 <= penalty p x.
Proof.
  unfold penalty.
  apply Qcplus_nonneg_nonneg; apply sumQc_nonneg; intros;
    apply Qc_square_nonneg.
Qed.

Lemma penalty_zero (p : CVRPProblem) (x : var -> Qc) :
  penalty p x = 0 <-> feasible p x.
Proof.
  unfold penalty, feasible.
  rewrite Qc_plus_zero
    by (apply sumQc_nonneg; intros; apply Qc_square_nonneg).
  rewrite !sumQc_zero_iff by (intros; apply Qc_square_nonneg).
  assert (forall a : Qc, (a - 1) * (a - 1) = 0 <-> a = 1) as Hsq.
  { intros a. rewrite Qc_square_zero. split; [|intros ->; ring].
    intros H. replace a with ((a - 1) + 1) by ring. rewrite H. ring. }
  split; intros [H1 H2]; split; intros a Ha; apply Hsq; auto.
Qed.

(** Property X6.  At every 0/1 assignment the map of [constraints] has the
    value [constraint_const * (P - n)], where [P] sums, over the deliveries,
    the square of (number of steps that select the delivery minus 1) and,
    over the steps, the square of (number of locations selected at the step
    minus 1), and [n] is the number of deliveries plus the number of steps. *)
Theorem constraints_energy (p : CVRPProblem) (A : Qc) (x : var -> Qc) :
  binary x ->
  energy (constraints p A) x = A * (penalty p x - ZtoQc (num_families p)).
Proof. apply constraints_energy_closed_form. Qed.

(** Property X7.  For a positive [constraint_const] the value of the map of
    [constraints] at a 0/1 assignment is at least [- constraint_const * n],
    [n] the number of deliveries plus the number of steps, and it is equal
    to it exactly when every delivery is selected at exactly one step and
    every step selects exactly one location. *)
Theorem constraints_energy_minimum (p : CVRPProblem) (A : Qc)
    (x : var -> Qc) :
  0 < A -> binary x ->
  - (A * ZtoQc (num_families p)) <= energy (constraints p A) x /\
  (energy (constraints p A) x = - (A * ZtoQc (num_families p))
     <-> feasible p x).
Proof.
  intros HA Hx. rewrite constraints_energy_closed_form by done.
  rewrite <- penalty_zero. split.
  - apply Qcle_minus_iff.
    replace (A * (penalty p x - ZtoQc (num_families p)) +
             - - (A * ZtoQc (num_families p))) with (A * penalty p x) by ring.
    apply Qcmult_nonneg_nonneg; [by apply Qclt_le_weak|apply penalty_nonneg].
  - split.
    + intros H. assert (A * penalty p x = 0) as H0.
      { replace (A * penalty p x) with
          (A * (penalty p x - ZtoQc (num_families p))
             + A * ZtoQc (num_families p)) by ring.
        rewrite H. ring. }
      apply Qcmult_integral in H0 as [->|H0]; [|done].
      by apply Qclt_not_eq in HA.
    + intros ->. ring.
Qed.

Lemma sumQc_indicator_absent (f : Z -> Qc) (l : list Z) (a : Z) :
  a ∉ l ->
  sumQc ((fun d => f d * (if decide (d = a) then 1 else 0)) <$> l) = 0.
Proof.
  intros Ha. rewrite (sumQc_ext _ (fun _ => 0)); [apply sumQc_const_zero|].
  intros d Hd. rewrite decide_False; [ring|]. by intros ->.
Qed.

Lemma sumQc_indicator (f : Z -> Qc) (l : list Z) (a : Z) :
  NoDup l -> a ∈ l ->
  sumQc ((fun d => f d * (if decide (d = a) then 1 else 0)) <$> l) = f a.
Proof.
  induction 1 as [|d l Hd Hl IH]; [by intros ?%elem_of_nil|].
  intros Ha. cbn [fmap list_fmap].
  change (sumQc (?h :: ?t)) with (h + sumQc t).
  destruct (decide (d = a)) as [->|Hne].
  - unfold fmap. rewrite sumQc_indicator_absent by done. ring.
  - apply elem_of_cons in Ha as [->|Ha]; [done|].
    unfold fmap in *. rewrite IH by done. ring.
Qed.

Lemma path_cost_cons_head (m : list (list Qc)) (a b : Z) (l : list Z) :
  head l = Some b -> path_cost m (a :: l) = entry m a b + path_cost m l.
Proof. destruct l as [|b' l]; [done|]. by intros [= ->]. Qed.

Lemma path_cost_steps (m : list (list Qc)) (r : Z -> Z) (depot : Z) (n : nat) :
  forall start,
  path_cost m ((r <$> seqZ start (Z.of_nat (S n))) ++ [depot]) =
    sumQc ((fun s => entry m (r s) (r (s + 1)%Z)) <$> seqZ start (Z.of_nat n))
    + entry m (r (start + Z.of_nat n)%Z) depot.
Proof.
  induction n as [|n IH]; intros start.
  - rewrite seqZ_cons, !seqZ_nil by lia. rewrite Z.add_0_r.
    unfold path_cost. cbn. unfold sumQc. cbn. ring.
  - rewrite (seqZ_cons start (Z.of_nat (S (S n)))) by lia.
    replace (Z.pred (Z.of_nat (S (S n)))) with (Z.of_nat (S n)) by lia.
    cbn [fmap list_fmap app].
    rewrite (path_cost_cons_head m (r start) (r (Z.succ start))).
    2:{ rewrite seqZ_cons by lia. done. }
    change (list_fmap Z Z r) with (fmap (M := list) r).
    rewrite IH. rewrite (seqZ_cons start (Z.of_nat (S n))) by lia.
    replace (Z.pred (Z.of_nat (S n))) with (Z.of_nat n) by lia.
    cbn [fmap list_fmap].
    change (sumQc (?h :: ?t)) with (h + sumQc t).
    replace (Z.succ start + Z.of_nat n)%Z with (start + Z.of_nat (S n))%Z
      by lia.
    unfold Z.succ, fmap. ring.
Qed.

Lemma path_cost_tour (m : list (list Qc)) (r : Z -> Z) (depot start : Z)
    (n : Z) :
  (1 <= n)%Z ->
  path_cost m (depot :: (r <$> seqZ start n) ++ [depot]) =
    entry m depot (r start)
    + sumQc ((fun s => entry m (r s) (r (s + 1)%Z)) <$> seqZ start (n - 1))
    + entry m (r (start + n - 1)%Z) depot.
Proof.
  intros Hn.
  rewrite (path_cost_cons_head m depot (r start))
    by (rewrite seqZ_cons by lia; done).
  replace n with (Z.of_nat (S (Z.to_nat (n - 1)))) at 1 by lia.
  rewrite path_cost_steps.
  replace (Z.of_nat (Z.to_nat (n - 1))) with (n - 1)%Z by lia.
  replace (start + (n - 1))%Z with (start + n - 1)%Z by lia. ring.
Qed.

Section ObjectiveEnergy.

Variable compute_distances : list (Qc * Qc) -> list (list Qc).

Lemma adjacent_value (p : CVRPProblem) (dist : list (list Qc)) (cc : Qc)
    (x : var -> Qc) (r : Z -> Z) (step : Z) :
  NoDup (location_idx p) ->
  (forall d, d ∈ location_idx p ->
     x (step, d) = if decide (d = r step) then 1 else 0) ->
  (forall d, d ∈ location_idx p ->
     x ((step + 1)%Z, d) = if decide (d = r (step + 1)%Z) then 1 else 0) ->
  r step ∈ location_idx p -> r (step + 1)%Z ∈ location_idx p ->
  sumQc ((fun nn => term_value x (adjacent_term dist cc (step, nn)))
           <$> product (location_idx p) (location_idx p)) =
    cc * entry dist (r step) (r (step + 1)%Z).
Proof.
  intros Hnd Hx1 Hx2 H1 H2. rewrite sumQc_product.
  unfold term_value, adjacent_term. cbn [fst snd].
  rewrite (sumQc_ext _
    (fun n1 => (cc * entry dist n1 (r (step + 1)%Z)) *
               (if decide (n1 = r step) then 1 else 0))).
  - by rewrite sumQc_indicator.
  - intros n1 Hn1.
    rewrite (sumQc_ext _
      (fun n2 => entry dist n1 n2 * cc *
                 (if decide (n1 = r step) then 1 else 0) *
                 (if decide (n2 = r (step + 1)%Z) then 1 else 0))).
    2:{ intros n2 Hn2. by rewrite Hx1, Hx2. }
    rewrite (sumQc_indicator
      (fun n2 => entry dist n1 n2 * cc *
                 (if decide (n1 = r step) then 1 else 0))) by done.
    ring.
Qed.

Lemma vrp_block_value (p : CVRPProblem) (dist : list (list Qc)) (cc : Qc)
    (x : var -> Qc) (r : Z -> Z) (start : Z) :
  NoDup (location_idx p) -> (2 <= num_locations p)%Z ->
  (forall s d, (start <= s <= start + num_locations p - 2)%Z ->
     d ∈ location_idx p -> x (s, d) = if decide (d = r s) then 1 else 0) ->
  (forall s, (start <= s <= start + num_locations p - 2)%Z ->
             r s ∈ location_idx p) ->
  value x (vrp_block_terms p dist cc start) =
    cc * path_cost dist
           (depot_idx p ::
              (r <$> range start (start + num_locations p - 2 + 1)) ++
              [depot_idx p]).
Proof.
  intros Hnd HL Hx Hr. unfold vrp_block_terms. cbn zeta.
  rewrite value_app, value_fmap, value_bind.
  rewrite (sumQc_product (A := Z) (B := Z * Z)).
  rewrite (sumQc_ext _ (fun s => cc * entry dist (r s) (r (s + 1)%Z))).
  2:{ intros s [Hs1 Hs2]%elem_of_range.
      apply adjacent_value;
        [done|intros; apply Hx; [lia|done]..|apply Hr; lia|apply Hr; lia]. }
  rewrite sumQc_scale.
  rewrite (sumQc_ext _
    (fun d => (entry dist (depot_idx p) d * cc) *
                (if decide (d = r start) then 1 else 0) +
              (cc * entry dist d (depot_idx p)) *
                (if decide (d = r (start + num_locations p - 2)%Z)
                 then 1 else 0)) (location_idx p)).
  2:{ intros d Hd. cbv beta. rewrite !value_cons.
      unfold value, term_value, first_term, last_term. cbn.
      rewrite !Hx by (done || lia).
      do 2 destruct (decide _); unfold sumQc; cbn; ring. }
  rewrite sumQc_plus, !sumQc_indicator by (done || apply Hr; lia).
  unfold range. rewrite path_cost_tour by lia.
  replace (start + num_locations p - 2 + 1 - start - 1)%Z
    with (start + num_locations p - 2 - start)%Z by lia.
  replace (start + (start + num_locations p - 2 + 1 - start) - 1)%Z
    with (start + num_locations p - 2)%Z by lia.
  ring.
Qed.

Lemma objective_value_of_tours (p : CVRPProblem) (dist : list (list Qc))
    (cc : Qc) (x : var -> Qc) (r : Z -> Z) :
  NoDup (location_idx p) -> (2 <= num_locations p)%Z ->
  selects p x r ->
  (forall s, (0 <= s < num_vehicles p * (num_locations p - 1))%Z ->
             r s ∈ location_idx p) ->
  value x (vrp_terms p dist cc) =
    cc * sumQc ((fun v => path_cost dist (tour p r v))
                  <$> range 0 (num_vehicles p)).
Proof.
  intros Hnd HL Hx Hr. unfold vrp_terms.
  rewrite value_bind, <- sumQc_scale.
  apply sumQc_ext. intros v [Hv1 Hv2]%elem_of_range.
  rewrite (vrp_block_value p dist cc x r); [done..| |].
  - intros s d Hs Hd. apply Hx; [|done]. unfold first_step in Hs. nia.
  - intros s Hs. apply Hr. unfold first_step in Hs. nia.
Qed.

(** Property X8.  For distinct location indices within the distance matrix
    and at least one delivery, at an assignment that selects at every step
    [s] of the objective exactly the location [r s], the map of
    [vrp_objective_function] has the value [cost_const] times the sum over
    the vehicles of the length of the tour depot, [r] of the first step of
    the block, ..., [r] of its last step, depot. *)
Theorem objective_energy_of_tours (p : CVRPProblem) (cc : Qc)
    (x : var -> Qc) (r : Z -> Z) :
  NoDup (location_idx p) -> (2 <= num_locations p)%Z ->
  Forall (covers (compute_distances (coords p))) (location_idx p) ->
  covers (compute_distances (coords p)) (depot_idx p) ->
  selects p x r ->
  (forall s, (0 <= s < num_vehicles p * (num_locations p - 1))%Z ->
             r s ∈ location_idx p) ->
  exists m, vrp_objective_function compute_distances p cc = Ok m /\
    energy m x =
      cc * sumQc ((fun v => path_cost (compute_distances (coords p))
                              (tour p r v))
                    <$> range 0 (num_vehicles p)).
Proof.
  intros Hnd HL Hloc Hdep Hx Hr. eexists. split.
  { by apply vrp_objective_function_emit. }
  rewrite energy_emit, energy_empty, Qcplus_0_l.
  by apply objective_value_of_tours.
Qed.

End ObjectiveEnergy.

Lemma sumQc_select {A : Type} `{EqDecision A} (f : A -> Qc) (l : list A)
    (a : A) :
  NoDup l ->
  sumQc ((fun d => f d * (if decide (d = a) then 1 else 0)) <$> l) =
    if decide (a ∈ l) then f a else 0.
Proof.
  induction 1 as [|d l Hd Hl IH].
  - cbn. rewrite decide_False; [done|]. apply not_elem_of_nil.
  - cbn [fmap list_fmap]. change (sumQc (?h :: ?t)) with (h + sumQc t).
    unfold fmap in *. rewrite IH.
    destruct (decide (d = a)) as [->|Hne].
    + rewrite (decide_True (P := a ∈ a :: l))
        by (apply elem_of_cons; by left).
      rewrite decide_False by done. ring.
    + destruct (decide (a ∈ l)) as [Hin|Hnin].
      * rewrite (decide_True (P := a ∈ d :: l))
          by (apply elem_of_cons; by right). ring.
      * rewrite (decide_False (P := a ∈ d :: l)); [ring|].
        intros [->|?]%elem_of_cons; done.
Qed.

Lemma sumQc_swap {A B : Type} (g : A -> B -> Qc) (xs : list A)
    (ys : list B) :
  sumQc ((fun a => sumQc ((fun b => g a b) <$> ys)) <$> xs) =
  sumQc ((fun b => sumQc ((fun a => g a b) <$> xs)) <$> ys).
Proof.
  induction xs as [|a xs IH].
  - cbn. by rewrite sumQc_const_zero.
  - cbn [fmap list_fmap]. change (sumQc (?h :: ?t)) with (h + sumQc t).
    unfold fmap in *. rewrite IH.
    change (list_fmap ?X ?Y ?f ?l) with (f <$> l).
    rewrite <- sumQc_plus. done.
Qed.

Lemma combinations2_select (D : list Z) (f : Z -> Z -> Qc) (a b : Z) :
  NoDup D -> (forall u v, f u v = f v u) ->
  sumQc ((fun dd : Z * Z =>
            f dd.1 dd.2 *
            ((if decide (dd.1 = a) then 1 else 0) *
             (if decide (dd.2 = b) then 1 else 0) +
             (if decide (dd.2 = a) then 1 else 0) *
             (if decide (dd.1 = b) then 1 else 0)))
           <$> combinations2 D) =
    if decide (a ∈ D /\ b ∈ D /\ a ≠ b) then f a b else 0.
Proof.
  intros Hnd Hsym.
  rewrite (sumQc_ext _
    (fun dd : Z * Z =>
       f dd.1 dd.2 * (if decide (dd = (a, b)) then 1 else 0) +
       f dd.1 dd.2 * (if decide (dd = (b, a)) then 1 else 0))).
  2:{ intros [d1 d2] _. cbn [fst snd].
      repeat destruct (decide _); try congruence; ring. }
  rewrite sumQc_plus.
  rewrite !(sumQc_select (fun dd : Z * Z => f dd.1 dd.2))
    by by apply combinations2_NoDup.
  cbn [fst snd].
  destruct (decide ((a, b) ∈ combinations2 D)) as [H1|H1];
    destruct (decide ((b, a) ∈ combinations2 D)) as [H2|H2].
  - by destruct (combinations2_distinct D a b Hnd H1).
  - destruct (combinations2_distinct D a b Hnd H1) as [Hne _].
    destruct (combinations2_elem D a b H1).
    rewrite decide_True by done. ring.
  - destruct (combinations2_distinct D b a Hnd H2) as [Hne _].
    destruct (combinations2_elem D b a H2).
    rewrite decide_True by done. rewrite (Hsym b a). ring.
  - rewrite decide_False; [ring|]. intros (Ha & Hb & Hne).
    by destruct (combinations2_total D a b Ha Hb Hne).
Qed.

Lemma cvrp_block_value (p : CVRPProblem) (cc : Qc) (x : var -> Qc)
    (r : Z -> Z) (start : Z) :
  NoDup (location_idx p) ->
  (forall s d, (start <= s <= start + num_locations p - 2)%Z ->
     d ∈ location_idx p -> x (s, d) = if decide (d = r s) then 1 else 0) ->
  value x (cvrp_block_terms p cc start) =
    cc * sumQc ((fun ss => pair_load p (r ss.1) (r ss.2)) <$>
                  combinations2
                    (range start (start + num_locations p - 2 + 1))).
Proof.
  intros Hnd Hx. unfold cvrp_block_terms, block_pairs.
  rewrite value_bind.
  rewrite (sumQc_product (A := Z * Z) (B := Z * Z)).
  rewrite sumQc_swap, <- sumQc_scale.
  apply sumQc_ext. intros [s1 s2] [Hs1 Hs2]%elem_of_combinations2_range.
  cbn [fst snd].
  assert (NoDup (drop 1 (location_idx p))) as HndD
    by (eapply sublist_NoDup; [exact Hnd|apply sublist_drop]).
  rewrite (sumQc_ext _
    (fun dd : Z * Z =>
       (cc * capacity_cost p dd.1 dd.2) *
       ((if decide (dd.1 = r s1) then 1 else 0) *
        (if decide (dd.2 = r s2) then 1 else 0) +
        (if decide (dd.2 = r s1) then 1 else 0) *
        (if decide (dd.1 = r s2) then 1 else 0)))).
  2:{ intros [d1 d2] [Hd1 Hd2]%combinations2_elem.
      apply subseteq_drop in Hd1, Hd2.
      rewrite !value_cons. unfold value, term_value, capacity_term1,
        capacity_term2. cbn [fst snd fmap list_fmap].
      rewrite !Hx by (done || lia). unfold sumQc. cbn [foldr]. ring. }
  rewrite (combinations2_select _ (fun u v => cc * capacity_cost p u v))
    by (done || intros; by rewrite capacity_cost_comm).
  unfold pair_load. destruct (decide _); ring.
Qed.

Lemma capacity_value_of_loads (p : CVRPProblem) (cc : Qc) (x : var -> Qc)
    (r : Z -> Z) :
  NoDup (location_idx p) -> (2 <= num_locations p)%Z ->
  selects p x r ->
  value x (cvrp_terms p cc) =
    cc * sumQc (block_load p r <$> range 0 (num_vehicles p)).
Proof.
  intros Hnd HL Hx. unfold cvrp_terms.
  rewrite value_bind, <- sumQc_scale.
  apply sumQc_ext. intros v [Hv1 Hv2]%elem_of_range.
  rewrite (cvrp_block_value p cc x r); [done..|].
  intros s d Hs Hd. apply Hx; [|done]. unfold first_step in Hs. nia.
Qed.

Section CapacityEnergy.

Variable compute_distances : list (Qc * Qc) -> list (list Qc).

(** Property X9.  For distinct location indices within the distance matrix,
    at least one delivery, a capacity other than 0 and 64-bit demands for
    all deliveries, at an assignment that selects at every step [s] of the
    objective exactly the location [r s], the map of
    [cvrp_objective_function] has the value [cost_const] times (the sum of
    the tour lengths plus, for every vehicle and every two steps of its
    block whose stops are two different deliveries, the 64-bit product of
    the two demands, which is their product when that is a 64-bit integer,
    over the square of the capacity). *)
Theorem cvrp_objective_energy (p : CVRPProblem) (cc : Qc)
    (x : var -> Qc) (r : Z -> Z) :
  NoDup (location_idx p) -> (2 <= num_locations p)%Z ->
  vehicle_capacity p ≠ 0%Z ->
  Forall fits_int64 (demands p) ->
  Forall (covers (compute_distances (coords p))) (location_idx p) ->
  covers (compute_distances (coords p)) (depot_idx p) ->
  Forall (indexable (demands p)) (drop 1 (location_idx p)) ->
  selects p x r ->
  (forall s, (0 <= s < num_vehicles p * (num_locations p - 1))%Z ->
             r s ∈ location_idx p) ->
  exists m, cvrp_objective_function compute_distances p cc = Ok m /\
    energy m x =
      cc * (sumQc ((fun v => path_cost (compute_distances (coords p))
                               (tour p r v))
                     <$> range 0 (num_vehicles p)) +
            sumQc (block_load p r <$> range 0 (num_vehicles p))).
Proof.
  intros Hnd HL _ _ Hloc Hdep Hdem Hx Hr. eexists. split.
  { by apply cvrp_objective_function_emit. }
  rewrite !energy_emit, energy_empty, Qcplus_0_l.
  rewrite (objective_value_of_tours p _ cc x r) by done.
  rewrite (capacity_value_of_loads p cc x r) by done. ring.
Qed.

End CapacityEnergy.

Lemma energy_as_sum (x : var -> Qc) (q : gmap key Qc) :
  forall K : list key, NoDup K -> (forall k, is_Some (q !! k) -> k ∈ K) ->
  energy q x = sumQc ((fun k => dict_get q k * x k.1 * x k.2) <$> K).
Proof.
  induction q as [|i c m Hi IH] using map_ind; intros K Hnd Hdom.
  - rewrite energy_empty. rewrite (sumQc_ext _ (fun _ => 0)).
    + by rewrite sumQc_const_zero.
    + intros k _. rewrite dict_get_empty. ring.
  - assert (i ∈ K) as HiK by (apply Hdom; rewrite lookup_insert_eq; eauto).
    apply elem_of_Permutation in HiK as [K' HK].
    rewrite energy_insert by done.
    rewrite (sumQc_perm _ _ (fmap_Permutation _ _ _ HK)).
    rewrite HK in Hnd. apply NoDup_cons in Hnd as [HiK' Hnd'].
    cbn [fmap list_fmap].
    change (sumQc (?h :: ?t)) with (h + sumQc t).
    unfold dict_get at 1. rewrite lookup_insert_eq. cbn [default].
    f_equal. rewrite (IH K' Hnd').
    + apply sumQc_ext. intros k Hk. unfold dict_get.
      rewrite lookup_insert_ne; [done|]. by intros ->.
    + intros k Hk. assert (k ∈ K) as HkK.
      { apply Hdom. rewrite lookup_insert_ne; [done|].
        intros ->. rewrite Hi in Hk. by destruct Hk. }
      rewrite HK in HkK. apply elem_of_cons in HkK as [->|]; [|done].
      rewrite Hi in Hk. by destruct Hk.
Qed.

Lemma merge_repr_energy_sum (o c : gmap key Qc) (x : var -> Qc) :
  energy (merge_repr o c) x = energy o x + energy c x.
Proof.
  pose (K := elements (dom o ∪ dom c)).
  assert (NoDup K) as Hnd by apply NoDup_elements.
  rewrite (energy_as_sum x (merge_repr o c) K Hnd).
  2:{ intros k Hk. rewrite merge_repr_lookup in Hk.
      destruct (decide _) as [Hin|]; [|by destruct Hk].
      by apply elem_of_elements. }
  rewrite (energy_as_sum x o K Hnd).
  2:{ intros k Hk. apply elem_of_elements, elem_of_union. left.
      by apply elem_of_dom. }
  rewrite (energy_as_sum x c K Hnd).
  2:{ intros k Hk. apply elem_of_elements, elem_of_union. right.
      by apply elem_of_dom. }
  rewrite <- sumQc_plus. apply sumQc_ext. intros k Hk.
  apply elem_of_elements in Hk.
  unfold dict_get at 1. rewrite merge_repr_lookup, decide_True by done.
  cbn. ring.
Qed.

(** Property X10.  At every assignment the value of the combined map is the
    value of the objective map plus the value of the constraint map. *)
Theorem merge_repr_energy (o c : gmap key Qc) (x : var -> Qc) :
  energy (merge_repr o c) x = energy o x + energy c x.
Proof. apply merge_repr_energy_sum. Qed.

(** * Further properties of the decoder *)

Section DecoderExtras.

Local Open Scope Z_scope.

Lemma decoded_routes_nil (p : CVRPProblem) (sample : list (var * Z)) :
  Z.of_nat (length (selected sample)) < max_deliveries p \/
  max_deliveries p <= 0 ->
  decoded_routes p sample = [].
Proof.
  intros H. unfold decoded_routes, full_blocks.
  replace (length (selected sample) / Z.to_nat (max_deliveries p))%nat
    with 0%nat; [cbn; by rewrite take_nil|].
  destruct H as [H|H].
  - rewrite Nat.div_small; lia.
  - replace (Z.to_nat (max_deliveries p)) with 0%nat by lia. done.
Qed.

(** Property X11.  When the sample selects fewer than [max_deliveries]
    variables, or [max_deliveries] is not positive, the decoder returns the
    solution with no route, cost 0 and no demand; it does not raise. *)
Theorem decode_without_full_block (p : CVRPProblem)
    (sample : list (var * Z)) :
  Z.of_nat (length (selected sample)) < max_deliveries p \/
  max_deliveries p <= 0 ->
  unwrap_qbsolv_solution p sample =
    Ok {| solution_identifier := problem_identifier p;
          routes := [];
          cost := 0%Qc;
          total_demands := [] |}.
Proof.
  intros H. unfold unwrap_qbsolv_solution.
  by rewrite decode_loop_spec, decoded_routes_nil.
Qed.

(** Property X12.  The decoder reads of a sample only the destinations of
    the variables set to 1, in the order of the sample: two samples that
    agree on them decode alike, whatever their steps and their variables set
    to 0. *)
Theorem decode_reads_selected_destinations_only (p : CVRPProblem)
    (sample1 sample2 : list (var * Z)) :
  selected sample1 = selected sample2 ->
  unwrap_qbsolv_solution p sample1 = unwrap_qbsolv_solution p sample2.
Proof.
  intros H. unfold unwrap_qbsolv_solution.
  rewrite !decode_loop_spec. unfold decoded_routes. by rewrite H.
Qed.

Lemma selected_app (s1 s2 : list (var * Z)) :
  selected (s1 ++ s2) = selected s1 ++ selected s2.
Proof. unfold selected. by rewrite filter_app, fmap_app. Qed.

Lemma block_of_app (n : nat) (l l' : list Z) (i : nat) :
  ((i + 1) * n <= length l)%nat ->
  block_of n (l ++ l') i = block_of n l i.
Proof.
  intros H. unfold block_of.
  rewrite drop_app_le by lia. rewrite take_app_le; [done|].
  rewrite length_drop. lia.
Qed.

Lemma full_blocks_take_app (n k : nat) (l l' : list Z) :
  (0 < n)%nat -> (k * n <= length l)%nat ->
  take k (full_blocks n (l ++ l')) = take k (full_blocks n l).
Proof.
  intros Hn Hk. apply list_eq. intros i.
  destruct (decide (i < k)%nat) as [Hi|Hi].
  - rewrite !lookup_take_lt by done.
    assert (i < length l / n)%nat.
    { apply Nat.div_le_lower_bound; [lia|]. nia. }
    assert (i < length (l ++ l') / n)%nat.
    { apply Nat.div_le_lower_bound; [lia|]. rewrite length_app. nia. }
    rewrite !full_blocks_lookup by done. f_equal.
    apply block_of_app. nia.
  - rewrite !lookup_take_ge by lia. done.
Qed.

(** Property X13.  Once [num_vehicles * max_deliveries] variables set to 1
    have been read, the rest of the sample is ignored: appending any items
    to such a sample does not change the result. *)
Theorem decode_ignores_surplus (p : CVRPProblem)
    (sample surplus : list (var * Z)) :
  0 < max_deliveries p -> 0 < num_vehicles p ->
  num_vehicles p * max_deliveries p <= Z.of_nat (length (selected sample)) ->
  unwrap_qbsolv_solution p (sample ++ surplus) =
    unwrap_qbsolv_solution p sample.
Proof.
  intros HM HV Hlen. unfold unwrap_qbsolv_solution.
  rewrite !decode_loop_spec. unfold decoded_routes.
  rewrite selected_app, full_blocks_take_app; [done|lia|].
  replace (Z.max (num_vehicles p) 1) with (num_vehicles p) by lia.
  apply Nat2Z.inj_le. rewrite Nat2Z.inj_mul, !Z2Nat.id by lia. done.
Qed.

Lemma route_pass_index_errors_only (p : CVRPProblem) (st : Qc * list Z)
    (r : list Z) :
  index_errors_only (route_pass p st r).
Proof.
  destruct st as [c td]. unfold route_pass.
  destruct r as [|prev rest]; index_errors.
Qed.

(** Property X14.  If a decoded route holds, after its first entry, a stop
    that does not index [demands], the decoder raises [IndexError] and
    returns no solution. *)
Theorem decode_raises_on_unknown_stop (p : CVRPProblem)
    (sample : list (var * Z)) (r : list Z) (d : Z) :
  r ∈ decoded_routes p sample -> d ∈ drop 1 r ->
  ~ indexable (demands p) d ->
  unwrap_qbsolv_solution p sample = Raise IndexError.
Proof.
  intros Hr Hd Hidx. unfold unwrap_qbsolv_solution.
  rewrite decode_loop_spec.
  rewrite (for_loop_raise (route_pass p) r); [done|done| |].
  2: { intros. apply route_pass_index_errors_only. }
  intros [c td]. unfold route_pass.
  destruct r as [|prev rest]; [by apply elem_of_nil in Hd|].
  cbn [drop] in Hd. rewrite drop_0 in Hd.
  rewrite (for_loop_raise _ d); [done|done| |].
  - intros [[c' ds] prev']. destruct (getitem2 _ _ _) as [x|e] eqn:E.
    + cbn [mbind result_bind]. by rewrite getitem_raise.
    + apply index_error_of in E as ->; [done|]. index_errors.
  - intros s x. index_errors.
Qed.

End DecoderExtras.

Section DecoderPartition.

Local Open Scope Z_scope.

Lemma concat_full_blocks (n : nat) :
  forall (k : nat) (l : list Z),
  (0 < n)%nat -> length l = (k * n)%nat ->
  concat (full_blocks n l) = l.
Proof.
  induction k as [|k IH]; intros l Hn Hl.
  - destruct l; [|done]. by rewrite full_blocks_short by (cbn; lia).
  - rewrite <- (take_drop n l) at 1.
    rewrite full_blocks_app; [|done|rewrite length_take; lia].
    cbn [concat]. rewrite IH; [apply take_drop|done|].
    rewrite length_drop. lia.
Qed.

Lemma concat_filter {A : Type} (P : A -> Prop) `{!forall x, Decision (P x)}
    (ls : list (list A)) :
  concat (filter P <$> ls) = filter P (concat ls).
Proof.
  induction ls as [|l ls IH]; [done|].
  cbn [fmap list_fmap concat]. by rewrite filter_app, <- IH.
Qed.

Lemma interiors_decoded_routes (p : CVRPProblem) (blks : list (list Z)) :
  concat (interior <$> (close_route p <$> blks)) =
    filter (fun d => d ≠ 0) (concat blks).
Proof.
  rewrite <- list_fmap_compose, <- concat_filter. f_equal.
  apply list_fmap_ext. intros _ blk _. apply interior_close_route.
Qed.

Lemma NoDup_count {A : Type} `{EqDecision A} (l : list A) :
  (forall x, x ∈ l -> length (filter (fun y => y = x) l) = 1%nat) ->
  NoDup l.
Proof.
  induction l as [|a l IH]; intros H; [constructor|].
  assert (Ha : a ∉ l).
  { specialize (H a ltac:(apply elem_of_cons; by left)).
    rewrite filter_cons_True in H by done. cbn in H.
    intros Hin. assert (a ∈ filter (fun y => y = a) l)
      by (by apply list_elem_of_filter).
    destruct (filter (fun y => y = a) l) as [|? ?] eqn:E;
      [by apply elem_of_nil in H0|done]. }
  constructor; [done|]. apply IH. intros x Hx.
  specialize (H x ltac:(apply elem_of_cons; by right)).
  rewrite filter_cons_False in H; [done|]. by intros ->.
Qed.

Lemma count_filter_ne (d : Z) (l : list Z) :
  d ≠ 0 ->
  filter (fun y => y = d) (filter (fun y => y ≠ 0) l) =
    filter (fun y => y = d) l.
Proof.
  intros Hd. induction l as [|a l IH]; [done|].
  destruct (decide (a ≠ 0)) as [Ha|Ha].
  - rewrite (filter_cons_True (fun y => y ≠ 0)) by done.
    destruct (decide (a = d)) as [->|Hne].
    + rewrite !(filter_cons_True (fun y => y = d)) by done. by rewrite IH.
    + rewrite !(filter_cons_False (fun y => y = d)) by done. done.
  - rewrite (filter_cons_False (fun y => y ≠ 0)) by done.
    rewrite (filter_cons_False (fun y => y = d)); [done|]. intros ->. done.
Qed.

Lemma perfect_selected_in_locations (p : CVRPProblem)
    (sample : list (var * Z)) (d : Z) :
  perfect p sample -> d ∈ selected sample -> d ∈ location_idx p.
Proof.
  intros (Hvars & _) Hd. unfold selected in Hd.
  apply list_elem_of_fmap in Hd as (x & -> & Hx).
  apply list_elem_of_filter in Hx as [_ Hx].
  rewrite Forall_forall in Hvars. by apply Hvars.
Qed.

Lemma perfect_deliveries_permutation (p : CVRPProblem)
    (sample : list (var * Z)) :
  perfect p sample -> depot_idx p = 0 ->
  NoDup (location_idx p) -> head (location_idx p) = Some (depot_idx p) ->
  filter (fun d => d ≠ 0) (selected sample) ≡ₚ drop 1 (location_idx p).
Proof.
  intros Hperf Hdep Hnd Hhead.
  pose proof Hperf as (_ & _ & _ & Honce). rewrite Forall_forall in Honce.
  apply NoDup_Permutation.
  - apply NoDup_count. intros x [Hx0 Hx]%list_elem_of_filter.
    rewrite count_filter_ne by done. apply Honce.
    + by eapply perfect_selected_in_locations.
    + by rewrite Hdep.
  - eapply sublist_NoDup; [exact Hnd|apply sublist_drop].
  - intros x. rewrite list_elem_of_filter, elem_of_tail by done.
    rewrite Hdep. split.
    + intros [Hx0 Hx]. split; [|done].
      by eapply perfect_selected_in_locations.
    + intros [Hx Hx0]. split; [done|].
      assert (Hc := Honce x Hx). rewrite Hdep in Hc. specialize (Hc Hx0).
      destruct (filter (fun y => y = x) (selected sample)) as [|y ?] eqn:E;
        [done|].
      assert (Hy : y ∈ filter (fun y => y = x) (selected sample))
        by (rewrite E; left).
      apply list_elem_of_filter in Hy as [-> ?]. done.
Qed.

(** Property X15.  For a depot with index 0 listed first among distinct
    locations, a positive [max_deliveries] and tables that cover the
    selected destinations, the routes the decoding loop closes for a perfect
    assignment hold between their depot ends, taken together, every delivery
    exactly once, and so do the routes of a solution the decoder returns; it
    returns one when the routes have one length, so that [np.array] takes
    them. *)
Theorem perfect_assignment_visits_each_delivery_once (p : CVRPProblem)
    (sample : list (var * Z)) :
  0 < max_deliveries p -> 0 <= num_vehicles p ->
  depot_idx p = 0 ->
  NoDup (location_idx p) -> head (location_idx p) = Some (depot_idx p) ->
  perfect p sample -> tables_cover p sample ->
  concat (interior <$> decode_loop p sample [] [] 0 0)
    ≡ₚ drop 1 (location_idx p) /\
  (forall sol, unwrap_qbsolv_solution p sample = Ok sol ->
     concat (interior <$> routes sol) ≡ₚ drop 1 (location_idx p)) /\
  (rectangular (decode_loop p sample [] [] 0 0) ->
   exists sol, unwrap_qbsolv_solution p sample = Ok sol).
Proof.
  intros HM HV Hdep Hnd Hhead Hperf Hcov. rewrite decode_loop_spec.
  assert (Hperm : concat (interior <$> decoded_routes p sample)
                    ≡ₚ drop 1 (location_idx p)).
  { unfold decoded_routes. rewrite interiors_decoded_routes.
    pose proof (perfect_selected_length p sample HM HV Hperf) as Hlen.
    rewrite take_ge.
    - rewrite (concat_full_blocks _ (Z.to_nat (num_vehicles p))) by lia.
      by apply perfect_deliveries_permutation.
    - rewrite full_blocks_length, Hlen, Nat.div_mul by lia. lia. }
  split; [done|]. split.
  - by intros sol (-> & _)%unwrap_inv.
  - by apply unwrap_total.
Qed.

End DecoderPartition.

(** * Encoding and decoding together *)

Lemma elem_of_one_hot_sample (p : CVRPProblem) (choice : list Z)
    (s d b : Z) :
  ((s, d), b) ∈ one_hot_sample p choice <->
  exists c, (0 <= s)%Z /\ choice !! Z.to_nat s = Some c /\
    d ∈ location_idx p /\ b = if decide (d = c) then 1%Z else 0%Z.
Proof.
  unfold one_hot_sample. rewrite list_elem_of_bind. split.
  - intros ([s' c] & (d' & Hin & Hd')%list_elem_of_bind & Hzip).
    apply list_elem_of_singleton in Hin as [= -> -> ->].
    apply list_elem_of_lookup in Hzip as [i Hi].
    apply lookup_zip_with_Some in Hi as (s'' & c' & [= <- <-] & Hs & Hc).
    apply lookup_seqZ in Hs as [-> Hs]. exists c. cbn.
    replace (Z.to_nat (0 + Z.of_nat i)) with i by lia.
    split_and!; [lia|done..].
  - intros (c & Hs & Hc & Hd & ->). exists (s, c). split.
    + apply list_elem_of_bind. exists d. split; [|done].
      by apply list_elem_of_singleton.
    + apply list_elem_of_lookup. exists (Z.to_nat s).
      apply lookup_zip_with_Some. exists s, c. split_and!; [done| |done].
      apply lookup_seqZ. apply lookup_lt_Some in Hc. lia.
Qed.

Lemma bits_one_hot_sample (p : CVRPProblem) (choice : list Z) (s d : Z) :
  (0 <= s < Z.of_nat (length choice))%Z -> d ∈ location_idx p ->
  bits (one_hot_sample p choice) (s, d) =
    if decide (d = chosen choice s) then 1 else 0.
Proof.
  intros Hs Hd. unfold bits, chosen.
  destruct (lookup_lt_is_Some_2 choice (Z.to_nat s)) as [c Hc]; [lia|].
  rewrite Hc. cbn. destruct (decide (d = c)) as [->|Hne].
  - rewrite decide_True; [done|]. apply elem_of_one_hot_sample.
    exists c. split_and!; [lia|done..|]. by rewrite decide_True.
  - rewrite decide_False; [done|].
    intros (c' & _ & Hc' & _ & H)%elem_of_one_hot_sample.
    rewrite Hc in Hc'. injection Hc' as <-. by rewrite decide_False in H.
Qed.

Lemma filter_eq_NoDup (l : list Z) (c : Z) :
  NoDup l -> c ∈ l -> filter (fun d => d = c) l = [c].
Proof.
  induction 1 as [|d l Hd Hl IH]; [by intros ?%elem_of_nil|].
  intros Hc. destruct (decide (d = c)) as [->|Hne].
  - rewrite filter_cons_True by done. f_equal.
    apply filter_none, Forall_forall. by intros x Hx ->.
  - rewrite filter_cons_False by done.
    apply elem_of_cons in Hc as [->|Hc]; [done|]. by apply IH.
Qed.

Lemma selected_bind {A : Type} (g : A -> list (var * Z)) (l : list A) :
  selected (l ≫= g) = l ≫= fun a => selected (g a).
Proof.
  induction l as [|a l IH]; [done|].
  by rewrite !bind_cons, selected_app, IH.
Qed.

Lemma selected_one_hot_row (l : list Z) (s c : Z) :
  selected (l ≫= fun d => [((s, d), if decide (d = c) then 1%Z else 0%Z)]) =
    filter (fun d => d = c) l.
Proof.
  induction l as [|d l IH]; [done|].
  rewrite bind_cons. change ([?a] ++ ?t) with (a :: t).
  destruct (decide (d = c)) as [->|Hne].
  - rewrite selected_cons_1, filter_cons_True by done. by rewrite IH.
  - rewrite selected_cons_0, filter_cons_False by done. done.
Qed.

Lemma selected_one_hot_rows (p : CVRPProblem) (l : list (Z * Z)) :
  NoDup (location_idx p) -> Forall (fun sc => sc.2 ∈ location_idx p) l ->
  selected (sc ← l; d ← location_idx p;
            [((sc.1, d), if decide (d = sc.2) then 1%Z else 0%Z)]) = l.*2.
Proof.
  intros Hnd H. rewrite selected_bind.
  induction H as [|[s c] l Hc _ IH]; [done|].
  rewrite bind_cons, fmap_cons, selected_one_hot_row, IH.
  by rewrite filter_eq_NoDup.
Qed.

Lemma selected_one_hot_sample (p : CVRPProblem) (choice : list Z) :
  NoDup (location_idx p) -> Forall (fun d => d ∈ location_idx p) choice ->
  selected (one_hot_sample p choice) = choice.
Proof.
  intros Hnd Hch. unfold one_hot_sample.
  rewrite selected_one_hot_rows; [|done|].
  - apply snd_zip. rewrite length_seqZ. lia.
  - apply Forall_forall. intros [s c] Hsc. cbn.
    apply elem_of_zip_r in Hsc. rewrite Forall_forall in Hch. auto.
Qed.

Lemma chosen_block (choice : list Z) (a n : nat) :
  (a + n <= length choice)%nat ->
  chosen choice <$> seqZ (Z.of_nat a) (Z.of_nat n) = take n (drop a choice).
Proof.
  intros H. apply list_eq. intros i. rewrite list_lookup_fmap.
  destruct (decide (i < n)%nat) as [Hi|Hi].
  - rewrite lookup_seqZ_lt by lia. rewrite lookup_take_lt, lookup_drop by done.
    cbn. unfold chosen.
    replace (Z.to_nat (Z.of_nat a + Z.of_nat i)) with (a + i)%nat by lia.
    destruct (lookup_lt_is_Some_2 choice (a + i)) as [c ->]; [lia|done].
  - rewrite lookup_seqZ_ge by lia. by rewrite lookup_take_ge by lia.
Qed.

Lemma decoded_routes_tours (p : CVRPProblem) (choice : list Z) :
  NoDup (location_idx p) ->
  (2 <= num_locations p)%Z ->
  max_deliveries p = (num_locations p - 1)%Z ->
  (1 <= num_vehicles p)%Z ->
  Z.of_nat (length choice) = (num_vehicles p * max_deliveries p)%Z ->
  Forall (fun d => d ∈ location_idx p /\ d ≠ 0%Z) choice ->
  decoded_routes p (one_hot_sample p choice) =
    tour p (chosen choice) <$> range 0 (num_vehicles p).
Proof.
  intros Hnd HL HM HV Hlen Hch. unfold decoded_routes.
  rewrite selected_one_hot_sample;
    [|done|by eapply Forall_impl; [exact Hch|intros ? []]].
  assert (length choice =
          (Z.to_nat (num_vehicles p) * Z.to_nat (max_deliveries p))%nat)
    as Hlen' by nia.
  unfold full_blocks. rewrite Hlen', Nat.div_mul by lia.
  rewrite take_ge by (rewrite length_fmap, length_seq; lia).
  unfold range, seqZ. rewrite Z.sub_0_r.
  rewrite <- !list_fmap_compose. apply list_fmap_ext.
  intros i v [Hv Hi]%lookup_seq. assert (i = v) as -> by lia. clear Hv. cbn.
  unfold close_route, tour, block_of.
  rewrite filter_all.
  2:{ apply Forall_forall. intros d Hd.
      apply subseteq_take, subseteq_drop in Hd.
      rewrite Forall_forall in Hch. by apply Hch. }
  do 2 f_equal. unfold range.
  replace (last_step p (Z.of_nat v + 0) + 1 - first_step p (Z.of_nat v + 0))%Z
    with (Z.of_nat (Z.to_nat (max_deliveries p)))
    by (unfold last_step, first_step; lia).
  replace (first_step p (Z.of_nat v + 0))
    with (Z.of_nat (v * Z.to_nat (max_deliveries p)))
    by (unfold first_step; nia).
  rewrite chosen_block; [done|]. nia.
Qed.

Section RoundTrip.

Variable compute_distances : list (Qc * Qc) -> list (list Qc).

Lemma decoded_cost_energy (p : CVRPProblem) (cc : Qc) (choice : list Z) :
  NoDup (location_idx p) ->
  (2 <= num_locations p)%Z ->
  max_deliveries p = (num_locations p - 1)%Z ->
  (1 <= num_vehicles p)%Z ->
  costs p = compute_distances (coords p) ->
  Forall (in_tables p) (location_idx p) ->
  in_tables p (depot_idx p) ->
  cost_at p (depot_idx p) (depot_idx p) = 0 ->
  Z.of_nat (length choice) = (num_vehicles p * max_deliveries p)%Z ->
  Forall (fun d => d ∈ location_idx p /\ d ≠ 0%Z) choice ->
  exists m sol,
    vrp_objective_function compute_distances p cc = Ok m /\
    unwrap_qbsolv_solution p (one_hot_sample p choice) = Ok sol /\
    energy m (bits (one_hot_sample p choice)) = cc * cost sol.
Proof.
  intros Hnd HL HM HV Hcosts Hloc Hdep H00 Hlen Hch.
  assert (Forall (fun d => d ∈ location_idx p) choice) as Hch'
    by (eapply Forall_impl; [exact Hch|by intros ? []]).
  destruct (unwrap_total p (one_hot_sample p choice)) as [sol Hsol].
  { split; [done|]. rewrite selected_one_hot_sample by done.
    rewrite Forall_forall in *. auto. }
  { apply decoded_routes_rectangular.
    rewrite selected_one_hot_sample by done.
    eapply Forall_impl; [exact Hch|by intros ? []]. }
  exists (emit ∅ (vrp_terms p (compute_distances (coords p)) cc)), sol.
  split_and!; [|done|].
  - apply vrp_objective_function_emit; rewrite <- Hcosts.
    + eapply Forall_impl; [exact Hloc|by intros ? []].
    + intros _. apply Hdep.
  - apply unwrap_inv in Hsol as (_ & -> & _).
    rewrite energy_emit, energy_empty, Qcplus_0_l.
    rewrite (objective_value_of_tours p _ cc _ (chosen choice)); [|done..| |].
    + f_equal. rewrite decoded_routes_tours by done.
      rewrite <- list_fmap_compose. apply sumQc_ext. intros v _. cbn.
      rewrite H00, <- Hcosts. unfold route_cost, path_cost, cost_at. ring.
    + intros s d Hs Hd. apply bits_one_hot_sample; [|done]. lia.
    + intros s Hs. unfold chosen.
      destruct (lookup_lt_is_Some_2 choice (Z.to_nat s)) as [c Hc]; [lia|].
      rewrite Hc. cbn. rewrite Forall_forall in Hch'. apply Hch'.
      by eapply list_elem_of_lookup_2.
Qed.

(** Property X16.  Encoding and decoding agree on the cost. Let the location
    indices be distinct and index the tables, with at least one delivery and
    one vehicle, [max_deliveries] the number of locations minus one, and the
    decoder's cost table the encoder's distance matrix with a zero entry at
    the depot. For the sample [one_hot_sample] that lists its variables step
    by step in increasing order and selects at each of the [num_vehicles *
    max_deliveries] steps one location other than 0, the decoder returns a
    solution, and the value of the map of [vrp_objective_function] at the
    sample is [cost_const] times the cost of that solution. *)
Theorem objective_energy_is_decoded_cost (p : CVRPProblem) (cc : Qc)
    (choice : list Z) :
  NoDup (location_idx p) ->
  (2 <= num_locations p)%Z ->
  max_deliveries p = (num_locations p - 1)%Z ->
  (1 <= num_vehicles p)%Z ->
  costs p = compute_distances (coords p) ->
  Forall (in_tables p) (location_idx p) ->
  in_tables p (depot_idx p) ->
  cost_at p (depot_idx p) (depot_idx p) = 0 ->
  Z.of_nat (length choice) = (num_vehicles p * max_deliveries p)%Z ->
  Forall (fun d => d ∈ location_idx p /\ d ≠ 0%Z) choice ->
  exists m sol,
    vrp_objective_function compute_distances p cc = Ok m /\
    unwrap_qbsolv_solution p (one_hot_sample p choice) = Ok sol /\
    energy m (bits (one_hot_sample p choice)) = cc * cost sol.
Proof. apply decoded_cost_energy. Qed.

End RoundTrip.

Lemma sumQc_count_one (l : list Z) (d : Z) :
  NoDup l -> d ∈ l ->
  sumQc ((fun c => if decide (d = c) then 1 else 0) <$> l) = 1.
Proof.
  intros Hnd Hd.
  rewrite (sumQc_ext _ (fun c => 1 * (if decide (c = d) then 1 else 0))).
  - by rewrite (sumQc_indicator (fun _ => 1)).
  - intros c _. do 2 destruct (decide _); try congruence; ring.
Qed.

Lemma one_hot_sample_feasible (p : CVRPProblem) (choice : list Z) :
  NoDup (location_idx p) ->
  num_steps p = Z.of_nat (length choice) ->
  choice ≡ₚ drop 1 (location_idx p) ->
  feasible p (bits (one_hot_sample p choice)).
Proof.
  intros Hnd Hsteps Hperm.
  assert (forall d, d ∈ choice -> d ∈ location_idx p) as Hsub.
  { intros d Hd. rewrite Hperm in Hd. by eapply subseteq_drop. }
  assert (NoDup choice) as Hndc.
  { rewrite Hperm. eapply sublist_NoDup; [exact Hnd|apply sublist_drop]. }
  split.
  - intros d Hd. unfold visits, dest_variables.
    rewrite <- list_fmap_compose, Hsteps.
    rewrite (sumQc_ext _
      ((fun c => if decide (d = c) then 1 else 0) ∘ chosen choice)).
    2:{ intros s [Hs1 Hs2]%elem_of_range. cbn.
        apply bits_one_hot_sample; [lia|]. by eapply subseteq_drop. }
    rewrite list_fmap_compose. unfold range. rewrite Z.sub_0_r.
    pose proof (chosen_block choice 0 (length choice)) as Hcb.
    rewrite Nat2Z.inj_0 in Hcb. rewrite Hcb by lia.
    rewrite drop_0, firstn_all.
    apply sumQc_count_one; [done|]. by rewrite Hperm.
  - intros s [Hs1 Hs2]%elem_of_range. unfold occupancy, step_variables.
    rewrite <- list_fmap_compose.
    rewrite (sumQc_ext _
      (fun d => if decide (d = chosen choice s) then 1 else 0)).
    2:{ intros d Hd. cbn. apply bits_one_hot_sample; [lia|done]. }
    rewrite (sumQc_ext _
      (fun d => 1 * (if decide (d = chosen choice s) then 1 else 0)))
      by (intros; ring).
    rewrite (sumQc_indicator (fun _ => 1)); [done..|].
    unfold chosen.
    destruct (lookup_lt_is_Some_2 choice (Z.to_nat s)) as [c Hc]; [lia|].
    rewrite Hc. cbn. apply Hsub. by eapply list_elem_of_lookup_2.
Qed.

Lemma bits_binary (sample : list (var * Z)) : binary (bits sample).
Proof. intros v. unfold bits. destruct (decide _); auto. Qed.

Section SingleVehicle.

Variable compute_distances : list (Qc * Qc) -> list (list Qc).

Lemma single_vehicle_energy (params : FullQuboParams)
    (p : CVRPProblem) (choice : list Z) :
  NoDup (location_idx p) ->
  (2 <= num_locations p)%Z ->
  max_deliveries p = (num_locations p - 1)%Z ->
  num_vehicles p = 1%Z ->
  costs p = compute_distances (coords p) ->
  Forall (in_tables p) (location_idx p) ->
  in_tables p (depot_idx p) ->
  cost_at p (depot_idx p) (depot_idx p) = 0 ->
  0%Z ∉ drop 1 (location_idx p) ->
  choice ≡ₚ drop 1 (location_idx p) ->
  exists q sol,
    wrap_vrp_qubo_problem compute_distances params p = Ok q /\
    unwrap_qbsolv_solution p (one_hot_sample p choice) = Ok sol /\
    feasible p (bits (one_hot_sample p choice)) /\
    energy q (bits (one_hot_sample p choice)) =
      cost_const params * cost sol
      - constraint_const params * ZtoQc (num_families p).
Proof.
  intros Hnd HL HM HV Hcosts Hloc Hdep H00 H0 Hperm.
  assert (Z.of_nat (length choice) = (num_vehicles p * max_deliveries p)%Z)
    as Hlen.
  { rewrite Hperm, length_drop, HV, HM. unfold num_locations in *. lia. }
  assert (Forall (fun d => d ∈ location_idx p /\ d ≠ 0%Z) choice) as Hch.
  { apply Forall_forall. intros d Hd. rewrite Hperm in Hd. split.
    - by eapply subseteq_drop.
    - by intros ->. }
  destruct (decoded_cost_energy compute_distances p (cost_const params)
              choice Hnd HL HM ltac:(lia) Hcosts Hloc Hdep H00 Hlen Hch)
    as (m & sol & Hm & Hsol & HE).
  assert (feasible p (bits (one_hot_sample p choice))) as Hfeas.
  { apply one_hot_sample_feasible; [done|by unfold num_steps|done]. }
  pose proof (proj2 (penalty_zero p _) Hfeas) as Hpen.
  exists (merge_repr m (constraints p (constraint_const params))), sol.
  split_and!; [|done..|].
  - unfold wrap_vrp_qubo_problem. by rewrite Hm.
  - rewrite merge_repr_energy_sum, HE.
    rewrite constraints_energy_closed_form by apply bits_binary.
    rewrite Hpen. ring.
Qed.

(** Property X17.  Let the location indices be distinct and index the
    tables, with one vehicle, [max_deliveries] the number of deliveries,
    none of them 0, and the decoder's cost table the encoder's distance
    matrix with a zero entry at the depot. A sample that visits the
    deliveries in any order, one per step, is decoded without error,
    satisfies every one-hot constraint, and the QUBO of
    [wrap_vrp_qubo_problem] has at it the value [cost_const * cost -
    constraint_const * n], [cost] the cost of the decoded solution and [n]
    the number of deliveries plus the number of steps. *)
Theorem single_vehicle_qubo_energy (params : FullQuboParams)
    (p : CVRPProblem) (choice : list Z) :
  NoDup (location_idx p) ->
  (2 <= num_locations p)%Z ->
  max_deliveries p = (num_locations p - 1)%Z ->
  num_vehicles p = 1%Z ->
  costs p = compute_distances (coords p) ->
  Forall (in_tables p) (location_idx p) ->
  in_tables p (depot_idx p) ->
  cost_at p (depot_idx p) (depot_idx p) = 0 ->
  0%Z ∉ drop 1 (location_idx p) ->
  choice ≡ₚ drop 1 (location_idx p) ->
  exists q sol,
    wrap_vrp_qubo_problem compute_distances params p = Ok q /\
    unwrap_qbsolv_solution p (one_hot_sample p choice) = Ok sol /\
    feasible p (bits (one_hot_sample p choice)) /\
    energy q (bits (one_hot_sample p choice)) =
      cost_const params * cost sol
      - constraint_const params * ZtoQc (num_families p).
Proof. apply single_vehicle_energy. Qed.

End SingleVehicle.

Lemma fmap_NoDup_inj {A B : Type} (f : A -> B) (l : list A) (x y : A) :
  NoDup (f <$> l) -> x ∈ l -> y ∈ l -> f x = f y -> x = y.
Proof.
  induction l as [|a l IH]; [by intros _ ?%elem_of_nil|].
  rewrite fmap_cons, NoDup_cons, !elem_of_cons.
  intros [Ha Hnd] [->|Hx] [->|Hy] Hf; [done| | |by apply IH].
  - destruct Ha. rewrite Hf. by apply list_elem_of_fmap_2.
  - destruct Ha. rewrite <- Hf. by apply list_elem_of_fmap_2.
Qed.

Lemma filter_one_unique {A : Type} (g : A -> Z) (d : Z) (l : list A)
    (e1 e2 : A) :
  length (filter (fun y => y = d) (g <$> l)) = 1%nat ->
  e1 ∈ l -> e2 ∈ l -> g e1 = d -> g e2 = d -> e1 = e2.
Proof.
  induction l as [|a l IH]; [by intros _ ?%elem_of_nil|].
  rewrite fmap_cons, !elem_of_cons.
  destruct (decide (g a = d)) as [Ha|Ha].
  - rewrite filter_cons_True by done. cbn [length]. intros Hlen.
    assert (forall e, e ∈ l -> g e ≠ d) as Hnone.
    { intros e He Hge.
      assert (g e ∈ filter (fun y => y = d) (g <$> l)) as Hin
        by (apply list_elem_of_filter; split;
            [done|by apply list_elem_of_fmap_2]).
      destruct (filter (fun y => y = d) (g <$> l)); [|done].
      by apply elem_of_nil in Hin. }
    intros [->|H1] [->|H2] Hg1 Hg2; try done.
    + by destruct (Hnone e2).
    + by destruct (Hnone e1).
    + by destruct (Hnone e1).
  - rewrite filter_cons_False by done. intros Hlen [->|H1] [->|H2] Hg1 Hg2;
      try done. by apply IH.
Qed.

Lemma perfect_feasible (p : CVRPProblem) (sample : list (var * Z)) :
  NoDup (location_idx p) -> head (location_idx p) = Some (depot_idx p) ->
  perfect p sample -> feasible p (bits sample).
Proof.
  intros Hnd Hhead (Hvars & _ & Hsteps & Honce).
  rewrite Forall_forall in Hvars. rewrite Forall_forall in Honce.
  set (ones := filter (fun x : var * Z => x.2 = 1%Z) sample) in *.
  assert (forall s d, ((s, d), 1%Z) ∈ sample <-> ((s, d), 1%Z) ∈ ones)
    as Hones.
  { intros s d. unfold ones. rewrite list_elem_of_filter. cbn. tauto. }
  assert (NoDup ((fun x : var * Z => x.1.1) <$> ones)) as Hnds.
  { change (NoDup (selected_steps sample)). rewrite Hsteps.
    apply NoDup_seqZ. }
  split.
  - intros d Hd. apply elem_of_tail in Hd as [Hd Hdep]; [|done..].
    specialize (Honce d Hd Hdep).
    change (length (filter (fun x => x = d)
                      ((fun x : var * Z => x.1.2) <$> ones)) = 1%nat)
      in Honce.
    assert (exists e0, e0 ∈ ones /\ e0.1.2 = d) as ([[s0 d0] b0] & He0 & Hd0).
    { destruct (filter (fun x => x = d)
                  ((fun x : var * Z => x.1.2) <$> ones)) as [|y l] eqn:E;
        [done|].
      assert (y ∈ filter (fun x => x = d)
                ((fun x : var * Z => x.1.2) <$> ones)) as Hy
        by (rewrite E; apply elem_of_cons; by left).
      apply list_elem_of_filter in Hy as [-> Hy].
      apply list_elem_of_fmap in Hy as (e0 & ? & ?). eauto. }
    cbn in Hd0. subst d0.
    assert (b0 = 1%Z) as ->
      by (by apply list_elem_of_filter in He0 as [? _]).
    assert (s0 ∈ range 0 (num_steps p)) as Hs0.
    { unfold range, num_steps. rewrite Z.sub_0_r, <- Hsteps.
      change (s0 ∈ (fun x : var * Z => x.1.1) <$> ones).
      by apply (list_elem_of_fmap_2 (fun x : var * Z => x.1.1) _ _ He0). }
    unfold visits, dest_variables. rewrite <- list_fmap_compose.
    rewrite (sumQc_ext _ (fun s => 1 * (if decide (s = s0) then 1 else 0))).
    { rewrite (sumQc_indicator (fun _ => 1)); [done|apply NoDup_range|done]. }
    intros s _. cbn. unfold bits.
    destruct (decide (s = s0)) as [->|Hne].
    + rewrite decide_True by by apply Hones. ring.
    + rewrite decide_False; [ring|]. intros Hin%Hones. apply Hne.
      by injection (filter_one_unique (fun x : var * Z => x.1.2) d ones
                      _ _ Honce Hin He0 eq_refl eq_refl).
  - intros s Hs.
    assert (exists e, e ∈ ones /\ e.1.1 = s) as ([[s' ds] b] & He & Hs').
    { unfold range, num_steps in Hs. rewrite Z.sub_0_r, <- Hsteps in Hs.
      change (s ∈ (fun x : var * Z => x.1.1) <$> ones) in Hs.
      apply list_elem_of_fmap in Hs as (e & ? & ?). eauto. }
    cbn in Hs'. subst s'.
    assert (b = 1%Z) as -> by (by apply list_elem_of_filter in He as [? _]).
    assert (ds ∈ location_idx p) as Hds.
    { apply list_elem_of_filter in He as [_ He].
      by destruct (Hvars _ He) as (_ & _ & ?). }
    unfold occupancy, step_variables. rewrite <- list_fmap_compose.
    rewrite (sumQc_ext _ (fun d => 1 * (if decide (d = ds) then 1 else 0))).
    { by rewrite (sumQc_indicator (fun _ => 1)). }
    intros d _. cbn. unfold bits.
    destruct (decide (d = ds)) as [->|Hne].
    + rewrite decide_True by by apply Hones. ring.
    + rewrite decide_False; [ring|]. intros Hin%Hones. apply Hne.
      by injection (fmap_NoDup_inj (fun x : var * Z => x.1.1) ones
                      _ _ Hnds Hin He eq_refl).
Qed.

(** Property X18.  For a depot listed first among distinct locations, the
    assignment of a perfect sample selects every delivery once and one
    location per step; the map of [constraints] has there the value [-
    constraint_const * n], [n] the number of deliveries plus the number of
    steps, which for a [constraint_const] that is not negative no 0/1
    assignment undercuts. *)
Theorem perfect_assignment_minimises_constraints (p : CVRPProblem) (A : Qc)
    (sample : list (var * Z)) :
  NoDup (location_idx p) -> head (location_idx p) = Some (depot_idx p) ->
  perfect p sample ->
  feasible p (bits sample) /\
  energy (constraints p A) (bits sample) = - (A * ZtoQc (num_families p)) /\
  forall x, binary x -> 0 <= A ->
    energy (constraints p A) (bits sample) <= energy (constraints p A) x.
Proof.
  intros Hnd Hhead Hperf.
  pose proof (perfect_feasible p sample Hnd Hhead Hperf) as Hfeas.
  pose proof (proj2 (penalty_zero p _) Hfeas) as Hpen.
  split; [done|]. split.
  - rewrite constraints_energy_closed_form by apply bits_binary.
    rewrite Hpen. ring.
  - intros x Hx HA.
    rewrite !constraints_energy_closed_form by (done || apply bits_binary).
    rewrite Hpen. apply Qcmult_le_mono_nonneg_l; [done|].
    apply Qcplus_le_mono_r. apply penalty_nonneg.
Qed.

Lemma combinations2_fmap {A B : Type} (f : A -> B) (l : list A) :
  combinations2 (f <$> l) = (fun ss => (f ss.1, f ss.2)) <$> combinations2 l.
Proof.
  induction l as [|a l IH]; [done|].
  cbn [fmap list_fmap combinations2].
  change (list_fmap ?X ?Y ?g ?k) with (g <$> k).
  rewrite fmap_app, IH, <- !list_fmap_compose. done.
Qed.

Lemma sumQc_combinations2_cons (g : Z * Z -> Qc) (a : Z) (l : list Z) :
  sumQc (g <$> combinations2 (a :: l)) =
    sumQc ((fun b => g (a, b)) <$> l) + sumQc (g <$> combinations2 l).
Proof.
  cbn [combinations2]. rewrite fmap_app, sumQc_app.
  by rewrite <- list_fmap_compose.
Qed.

Lemma sumQc_combinations2_perm (g : Z * Z -> Qc) (l1 l2 : list Z) :
  (forall a b, g (a, b) = g (b, a)) -> l1 ≡ₚ l2 ->
  sumQc (g <$> combinations2 l1) = sumQc (g <$> combinations2 l2).
Proof.
  intros Hsym. induction 1 as [|x l l' Hp IH|x y l|l l' l'' _ IH1 _ IH2].
  - done.
  - rewrite !sumQc_combinations2_cons, IH. f_equal.
    apply sumQc_perm. by rewrite Hp.
  - rewrite !sumQc_combinations2_cons. cbn [fmap list_fmap].
    change (sumQc (?h :: ?t)) with (h + sumQc t).
    change (list_fmap ?X ?Y ?f ?k) with (f <$> k).
    rewrite (Hsym y x). ring.
  - by rewrite IH1.
Qed.

Lemma pair_load_comm (p : CVRPProblem) (a b : Z) :
  pair_load p a b = pair_load p b a.
Proof.
  unfold pair_load. rewrite capacity_cost_comm.
  destruct (decide (a ∈ _ /\ _)) as [H|H];
    destruct (decide (b ∈ _ /\ _)) as [H'|H']; try done.
  - destruct H'. destruct H as (? & ? & ?). split_and!; done.
  - destruct H. destruct H' as (? & ? & ?). split_and!; done.
Qed.

Lemma block_load_single (p : CVRPProblem) (choice : list Z) :
  NoDup (location_idx p) ->
  Z.of_nat (length choice) = (num_locations p - 1)%Z ->
  choice ≡ₚ drop 1 (location_idx p) ->
  block_load p (chosen choice) 0 = pairs_load p.
Proof.
  intros Hnd Hlen Hperm. unfold block_load, pairs_load.
  assert (NoDup (drop 1 (location_idx p))) as HndD
    by (eapply sublist_NoDup; [exact Hnd|apply sublist_drop]).
  replace (range (first_step p 0) (last_step p 0 + 1))
    with (seqZ 0 (Z.of_nat (length choice)))
    by (unfold range, last_step, first_step; f_equal; lia).
  rewrite (list_fmap_compose (fun ss : Z * Z =>
             (chosen choice ss.1, chosen choice ss.2))
             (fun dd : Z * Z => pair_load p dd.1 dd.2)).
  rewrite <- combinations2_fmap.
  pose proof (chosen_block choice 0 (length choice)) as Hcb.
  rewrite Nat2Z.inj_0 in Hcb. rewrite Hcb by lia.
  rewrite drop_0, firstn_all.
  rewrite (sumQc_combinations2_perm _ choice (drop 1 (location_idx p)))
    by (done || intros; apply pair_load_comm).
  apply sumQc_ext. intros [d1 d2] Hdd. cbn [fst snd].
  destruct (combinations2_distinct _ _ _ HndD Hdd) as [Hne _].
  destruct (combinations2_elem _ _ _ Hdd) as [H1 H2].
  unfold pair_load. by rewrite decide_True.
Qed.

Section SingleVehicleCapacity.

Variable compute_distances : list (Qc * Qc) -> list (list Qc).

(** Property X19.  With one vehicle, distinct location indices within the
    distance matrix, 64-bit demands for all deliveries and a capacity other
    than 0, at the assignment of a sample that visits the deliveries in any
    order, one per step, the value of the map of [cvrp_objective_function]
    is that of the map of [vrp_objective_function] plus [cost_const] times
    the sum over all pairs of deliveries of the 64-bit product of their
    demands, which is their product when that is a 64-bit integer, over the
    square of the capacity: the capacity terms add the same amount whatever
    the order of the visits. *)
Theorem single_vehicle_capacity_is_constant (p : CVRPProblem) (cc : Qc)
    (choice : list Z) :
  NoDup (location_idx p) -> (2 <= num_locations p)%Z ->
  num_vehicles p = 1%Z ->
  vehicle_capacity p ≠ 0%Z ->
  Forall fits_int64 (demands p) ->
  Forall (covers (compute_distances (coords p))) (location_idx p) ->
  covers (compute_distances (coords p)) (depot_idx p) ->
  Forall (indexable (demands p)) (drop 1 (location_idx p)) ->
  choice ≡ₚ drop 1 (location_idx p) ->
  exists mv mc,
    vrp_objective_function compute_distances p cc = Ok mv /\
    cvrp_objective_function compute_distances p cc = Ok mc /\
    energy mc (bits (one_hot_sample p choice)) =
      energy mv (bits (one_hot_sample p choice)) + cc * pairs_load p.
Proof.
  intros Hnd HL HV _ _ Hloc Hdep Hdem Hperm.
  assert (Z.of_nat (length choice) = (num_locations p - 1)%Z) as Hlen.
  { rewrite Hperm, length_drop. unfold num_locations in *. lia. }
  eexists _, _. split_and!.
  - by apply vrp_objective_function_emit.
  - by apply cvrp_objective_function_emit.
  - rewrite (energy_emit _ (cvrp_terms p cc)). f_equal.
    rewrite (capacity_value_of_loads p cc _ (chosen choice)); [|done..|].
    + rewrite HV. change (range 0 1) with [0%Z]. cbn [fmap list_fmap].
      unfold sumQc. cbn [foldr]. rewrite block_load_single by done. ring.
    + intros s d Hs Hd. apply bits_one_hot_sample; [lia|done].
Qed.

End SingleVehicleCapacity.

(** * Problems built by [from_file] *)

Lemma square_covers (m : list (list Qc)) (n : nat) (d : Z) :
  square m n -> (0 <= d < Z.of_nat n)%Z -> covers m d.
Proof.
  intros [Hm Hrows] Hd. split.
  - unfold indexable. lia.
  - eapply Forall_impl; [exact Hrows|]. intros row Hrow. cbv beta in Hrow.
    unfold indexable. lia.
Qed.

Section FromFileFacts.

Variable sample : list Package -> Z -> option (list Package).

Lemma from_file_inv (data : InstanceData)
    (build : list (list Qc) -> CVRPProblem) (cs : list (list Qc))
    (p : CVRPProblem) :
  from_file sample data = Some build -> p = build cs ->
  exists sampled,
    sample (data_deliveries data) INSTANCE_MAX_SIZE = Some sampled /\
    location_idx p = range 0 (Z.of_nat (length sampled) + 1) /\
    coords p = data_origin data ::
      ((fun pk => (point_lat pk, point_lng pk)) <$> sampled) /\
    demands p = 0%Z :: (package_size <$> sampled) /\
    num_vehicles p = 1%Z /\
    max_deliveries p = Z.of_nat (length sampled) /\
    depot_idx p = 0%Z /\ costs p = cs /\
    vehicle_capacity p = data_vehicle_capacity data.
Proof.
  unfold from_file. destruct (sample _ _) as [sampled|]; [|done].
  cbn. intros [= <-] ->. exists sampled. by cbn.
Qed.

(** Property X20.  A problem built by [from_file], whatever cost table it
    is given afterwards, has the locations [0 .. n - 1], as many coordinates
    and demands as locations, [max_deliveries = n - 1], one vehicle, the
    depot as its first location with demand 0, and every location indexes
    [demands]. *)
Theorem from_file_tables_agree (data : InstanceData)
    (build : list (list Qc) -> CVRPProblem) (cs : list (list Qc))
    (p : CVRPProblem) :
  from_file sample data = Some build -> p = build cs ->
  location_idx p = seqZ 0 (num_locations p) /\
  length (coords p) = length (location_idx p) /\
  length (demands p) = length (location_idx p) /\
  max_deliveries p = (num_locations p - 1)%Z /\
  num_vehicles p = 1%Z /\
  head (location_idx p) = Some (depot_idx p) /\
  demand_at p (depot_idx p) = 0%Z /\
  Forall (indexable (demands p)) (location_idx p).
Proof.
  intros Hbuild Hp.
  destruct (from_file_inv data build cs p Hbuild Hp)
    as (sampled & _ & Hloc & Hco & Hdem & HV & HM & Hdep & _).
  assert (length (location_idx p) = S (length sampled)) as Hlen.
  { rewrite Hloc. unfold range. rewrite length_seqZ. lia. }
  unfold num_locations. rewrite Hlen.
  split_and!.
  - rewrite Hloc. unfold range. f_equal. lia.
  - rewrite Hco. cbn. by rewrite length_fmap.
  - rewrite Hdem. cbn. by rewrite length_fmap.
  - lia.
  - done.
  - rewrite Hloc, Hdep. unfold range. rewrite seqZ_cons by lia. done.
  - unfold demand_at. by rewrite Hdep, Hdem.
  - rewrite Hloc. apply Forall_forall. intros d [Hd1 Hd2]%elem_of_range.
    unfold indexable. rewrite Hdem. cbn. rewrite length_fmap. lia.
Qed.

Variable compute_distances : list (Qc * Qc) -> list (list Qc).

(** The sampler returns as many packages as it is asked for, and the
    distance provider a square matrix over the coordinates it is given. *)
Hypothesis sample_size :
  forall l k r, sample l k = Some r -> Z.of_nat (length r) = k.

Hypothesis distances_square :
  forall c, square (compute_distances c) (length c).

Lemma from_file_size (data : InstanceData)
    (build : list (list Qc) -> CVRPProblem) (cs : list (list Qc))
    (p : CVRPProblem) :
  from_file sample data = Some build -> p = build cs ->
  location_idx p = seqZ 0 6 /\ num_vehicles p = 1%Z /\
  max_deliveries p = 5%Z /\ depot_idx p = 0%Z /\ costs p = cs /\
  length (demands p) = 6%nat /\ demand_at p 0 = 0%Z /\
  Forall (covers (compute_distances (coords p))) (location_idx p).
Proof using sample_size distances_square.
  intros Hbuild Hp.
  destruct (from_file_inv data build cs p Hbuild Hp)
    as (sampled & Hs & Hloc & Hco & Hdem & HV & HM & Hdep & Hcs & _).
  apply sample_size in Hs. unfold INSTANCE_MAX_SIZE in Hs.
  rewrite Hs in *. split_and!; try done.
  - rewrite Hdem. cbn. rewrite length_fmap. lia.
  - unfold demand_at. by rewrite Hdem.
  - rewrite Hloc. apply Forall_forall. intros d [Hd1 Hd2]%elem_of_range.
    eapply square_covers; [apply distances_square|].
    rewrite Hco. cbn [length]. rewrite length_fmap. lia.
Qed.

Lemma cvrp_lookup_is_Some (p : CVRPProblem) (cc : Qc) (d : gmap key Qc)
    (k : key) :
  NoDup (location_idx p) ->
  is_Some (emit d (cvrp_terms p cc) !! k) ->
  is_Some (d !! k) \/
  (0 <= k.1.1 < num_vehicles p * (num_locations p - 1))%Z /\
  (0 <= k.2.1 < num_vehicles p * (num_locations p - 1))%Z.
Proof.
  intros Hnd. rewrite emit_lookup.
  destruct (decide _) as [Hk|Hk]; [|by left].
  intros _. right.
  apply cvrp_keys in Hk as (s1 & s2 & a & b & -> & (v & Hv & H1 & H2 & H3) & _);
    [|done].
  unfold last_step, first_step in *. cbn [fst snd]. nia.
Qed.

(** Property X21.  For a sampler that returns as many packages as asked and
    a distance provider that returns a square matrix over the coordinates,
    both wrappers return a QUBO for a problem built by [from_file], whatever
    cost table it is given afterwards, and both steps of every key of either
    QUBO lie in [0 .. 4], the steps of [constraints] and of the decoder. *)
Theorem from_file_qubo_in_constraint_space (params : FullQuboParams)
    (data : InstanceData) (build : list (list Qc) -> CVRPProblem)
    (cs : list (list Qc)) (p : CVRPProblem) :
  from_file sample data = Some build -> p = build cs ->
  num_steps p = 5%Z /\
  exists qv qc,
    wrap_vrp_qubo_problem compute_distances params p = Ok qv /\
    wrap_cvrp_qubo_problem compute_distances params p = Ok qc /\
    forall k, is_Some (qv !! k) \/ is_Some (qc !! k) ->
      (0 <= k.1.1 < num_steps p)%Z /\ (0 <= k.2.1 < num_steps p)%Z.
Proof using sample_size distances_square.
  intros Hbuild Hp.
  destruct (from_file_size data build cs p Hbuild Hp)
    as (Hloc & HV & HM & Hdep & _ & Hdem & _ & Hcov).
  assert (Hsteps : num_steps p = 5%Z) by (unfold num_steps; lia).
  assert (HL : num_locations p = 6%Z)
    by (unfold num_locations; by rewrite Hloc).
  assert (Hcd : covers (compute_distances (coords p)) (depot_idx p)).
  { rewrite Forall_forall in Hcov. apply Hcov. rewrite Hloc, Hdep.
    rewrite seqZ_cons by lia. apply elem_of_cons. by left. }
  assert (Hnd : NoDup (location_idx p)) by (rewrite Hloc; apply NoDup_seqZ).
  split; [done|].
  pose proof (vrp_objective_function_emit compute_distances p
                (cost_const params) Hcov (fun _ => Hcd)) as Hv.
  assert (Forall (indexable (demands p)) (drop 1 (location_idx p))) as Hdm.
  { apply Forall_forall. intros d Hd%subseteq_drop.
    rewrite Hloc in Hd. apply elem_of_seqZ in Hd.
    unfold indexable. lia. }
  pose proof (cvrp_objective_function_emit compute_distances p
                (cost_const params) Hcov (fun _ => Hcd) Hdm) as Hc.
  eexists _, _. split_and!.
  - unfold wrap_vrp_qubo_problem. by rewrite Hv.
  - unfold wrap_cvrp_qubo_problem. by rewrite Hc.
  - assert (forall k, is_Some (emit ∅ (vrp_terms p
                (compute_distances (coords p)) (cost_const params)) !! k) ->
              (0 <= k.1.1 < num_steps p)%Z /\ (0 <= k.2.1 < num_steps p)%Z)
      as Hobj.
    { intros k Hk. rewrite Hsteps.
      replace 5%Z with (num_vehicles p * (num_locations p - 1))%Z by lia.
      eapply objective_steps_in_blocks; [| | |exact Hv|exact Hk];
        [lia|done..]. }
    intros k [Hk|Hk]; rewrite merge_repr_lookup in Hk;
      (destruct (decide _) as [Hin|]; [|by destruct Hk]);
      apply elem_of_union in Hin as [Hin|Hin];
      try (by eapply constraint_steps_in_space, elem_of_dom).
    + by apply Hobj, elem_of_dom.
    + apply elem_of_dom in Hin.
      apply (cvrp_lookup_is_Some p _ _ k Hnd) in Hin as [Hin|Hin].
      * by apply Hobj.
      * rewrite Hsteps. rewrite HV, HL in Hin.
        destruct k as [[s1 d1] [s2 d2]]. cbn [fst snd] in *. lia.
Qed.

(** Property X22.  [from_file] sets no [costs].  For a problem built by
    [from_file] whose [costs] has afterwards been set to the distance matrix
    of its coordinates, zero at the depot, the sample [one_hot_sample] of
    every order of the five deliveries, one per step, is decoded to a
    solution, and the QUBO of [wrap_vrp_qubo_problem] has at that sample the
    value [cost_const * cost - constraint_const * 10]. *)
Theorem from_file_round_trip (params : FullQuboParams)
    (data : InstanceData) (build : list (list Qc) -> CVRPProblem)
    (cs : list (list Qc)) (p : CVRPProblem) (choice : list Z) :
  from_file sample data = Some build -> p = build cs ->
  cs = compute_distances (coords p) ->
  entry cs 0 0 = 0 ->
  choice ≡ₚ seqZ 1 5 ->
  exists q sol,
    wrap_vrp_qubo_problem compute_distances params p = Ok q /\
    unwrap_qbsolv_solution p (one_hot_sample p choice) = Ok sol /\
    energy q (bits (one_hot_sample p choice)) =
      cost_const params * cost sol - constraint_const params * ZtoQc 10.
Proof using sample_size distances_square.
  intros Hbuild Hp Hcd H00 Hperm.
  destruct (from_file_size data build cs p Hbuild Hp)
    as (Hloc & HV & HM & Hdep & Hcs & Hdem & _ & Hcov).
  assert (HL : num_locations p = 6%Z)
    by (unfold num_locations; by rewrite Hloc).
  assert (Hdrop : drop 1 (location_idx p) = seqZ 1 5).
  { rewrite Hloc. by rewrite seqZ_cons by lia. }
  assert (Htab : Forall (in_tables p) (location_idx p)).
  { rewrite Forall_forall in *. intros d Hd. split.
    - rewrite Hloc in Hd. apply elem_of_seqZ in Hd. unfold indexable. lia.
    - rewrite Hcs, Hcd. by apply Hcov. }
  destruct (single_vehicle_energy compute_distances params p choice)
    as (q & sol & Hq & Hsol & _ & HE).
  - rewrite Hloc. apply NoDup_seqZ.
  - lia.
  - lia.
  - done.
  - by rewrite Hcs.
  - done.
  - rewrite Forall_forall in Htab. apply Htab. rewrite Hloc, Hdep.
    rewrite seqZ_cons by lia. apply elem_of_cons. by left.
  - unfold cost_at. by rewrite Hdep, Hcs.
  - rewrite Hdrop. intros H%elem_of_seqZ. lia.
  - by rewrite Hdrop.
  - exists q, sol. split_and!; [done..|]. rewrite HE.
    unfold num_families, num_steps. rewrite Hdrop, HV, HM.
    done.
Qed.

End FromFileFacts.

(** * The further theorems at concrete problems *)

Lemma take_sample_size (l : list Package) (k : Z) (r : list Package) :
  take_sample l k = Some r -> Z.of_nat (length r) = k.
Proof.
  unfold take_sample. destruct (decide _) as [H|]; [|done].
  intros [= <-]. rewrite length_take. lia.
Qed.

Lemma squared_distances_square (cs : list (Qc * Qc)) :
  square (squared_distances cs) (length cs).
Proof.
  unfold square, squared_distances. rewrite length_fmap. split; [done|].
  apply Forall_fmap, Forall_forall. intros a _. cbn. by rewrite length_fmap.
Qed.

Lemma selects_one_hot_sample (p : CVRPProblem) (choice : list Z) :
  Z.of_nat (length choice) = (num_vehicles p * (num_locations p - 1))%Z ->
  selects p (bits (one_hot_sample p choice)) (chosen choice).
Proof. intros Hlen s d Hs Hd. apply bits_one_hot_sample; [lia|done]. Qed.

Lemma chosen_in_locations (p : CVRPProblem) (choice : list Z) (n : Z) :
  Z.of_nat (length choice) = n ->
  Forall (fun d => d ∈ location_idx p) choice ->
  forall s, (0 <= s < n)%Z -> chosen choice s ∈ location_idx p.
Proof.
  intros Hlen Hch s Hs. unfold chosen.
  destruct (lookup_lt_is_Some_2 choice (Z.to_nat s)) as [c Hc]; [lia|].
  rewrite Hc. cbn. rewrite Forall_forall in Hch. apply Hch.
  by eapply list_elem_of_lookup_2.
Qed.

Lemma decode_without_full_block_witness :
  unwrap_qbsolv_solution problem_two_by_two
      (one_hot_sample problem_two_by_two [1%Z]) =
    Ok {| solution_identifier := "two-by-two"; routes := [];
          cost := 0; total_demands := [] |}.
Proof.
  apply (decode_without_full_block problem_two_by_two
           (one_hot_sample problem_two_by_two [1%Z])).
  left. compute_done.
Defined.

Lemma decode_reads_selected_destinations_only_witness :
  unwrap_qbsolv_solution problem_two_by_two sample_with_depot_stays =
  unwrap_qbsolv_solution problem_two_by_two
    [((0, 1), 1); ((1, 0), 1); ((2, 2), 1); ((3, 0), 1)]%Z.
Proof.
  apply decode_reads_selected_destinations_only. compute_done.
Defined.

Lemma decode_ignores_surplus_witness :
  unwrap_qbsolv_solution problem_two_by_two
      (sample_with_depot_stays ++ [((4, 1), 1)]%Z) =
    unwrap_qbsolv_solution problem_two_by_two sample_with_depot_stays.
Proof.
  apply decode_ignores_surplus; compute_done.
Defined.

Lemma decode_raises_on_unknown_stop_witness :
  unwrap_qbsolv_solution problem_short_demands
      (one_hot_sample problem_short_demands [1; 2]%Z) = Raise IndexError.
Proof.
  apply (decode_raises_on_unknown_stop problem_short_demands
           (one_hot_sample problem_short_demands [1; 2]%Z)
           [0; 1; 2; 0]%Z 1%Z); compute_done.
Defined.

Lemma perfect_assignment_visits_each_delivery_once_witness :
  exists sol,
    unwrap_qbsolv_solution problem_two_by_two sample_with_depot_stays
      = Ok sol /\
    concat (interior <$> routes sol) ≡ₚ [1; 2]%Z.
Proof.
  destruct (perfect_assignment_visits_each_delivery_once problem_two_by_two
              sample_with_depot_stays) as (_ & Hsol & Hruns);
    [compute_done..|].
  destruct Hruns as [sol Hs]; [compute_done|].
  exists sol. split; [exact Hs|]. exact (Hsol sol Hs).
Defined.

Lemma encode_nothing_witness :
  wrap_vrp_qubo_problem table_distances unit_params problem_no_vehicle
    = Ok ∅ /\
  wrap_cvrp_qubo_problem table_distances unit_params problem_no_vehicle
    = Ok ∅.
Proof.
  apply (encode_nothing table_distances unit_params problem_no_vehicle).
  left. reflexivity.
Defined.

Lemma encode_raises_on_unknown_location_witness :
  wrap_vrp_qubo_problem no_distances unit_params problem_two_by_two
    = Raise IndexError /\
  wrap_cvrp_qubo_problem no_distances unit_params problem_two_by_two
    = Raise IndexError.
Proof.
  apply (encode_raises_on_unknown_location no_distances unit_params
           problem_two_by_two 0%Z); compute_done.
Defined.

Lemma cvrp_raises_on_missing_demand_witness :
  wrap_cvrp_qubo_problem table_distances unit_params problem_short_demands
    = Raise IndexError /\
  exists q, wrap_vrp_qubo_problem table_distances unit_params
              problem_short_demands = Ok q.
Proof.
  apply (cvrp_raises_on_missing_demand table_distances unit_params
           problem_short_demands 1%Z); compute_done.
Defined.

Lemma constraints_symmetric_witness :
  constraints problem_two_by_two (ZtoQc 10) !! ((0, 1), (1, 1))%Z =
  constraints problem_two_by_two (ZtoQc 10) !! ((1, 1), (0, 1))%Z.
Proof.
  apply (constraints_symmetric problem_two_by_two (ZtoQc 10)). compute_done.
Defined.

Lemma index_spaces_agree_witness :
  exists m,
    vrp_objective_function table_distances problem_two_by_two (ZtoQc 1)
      = Ok m /\
    (forall k, is_Some (m !! k) ->
       (0 <= k.1.1 < 4)%Z /\ (0 <= k.2.1 < 4)%Z) /\
    (forall k, is_Some (constraints problem_two_by_two (ZtoQc 10) !! k) ->
       (0 <= k.1.1 < 4)%Z /\ (0 <= k.2.1 < 4)%Z).
Proof.
  eexists. split.
  { apply vrp_objective_function_emit; compute_done. }
  destruct (index_spaces_agree table_distances problem_two_by_two
              (ZtoQc 1) (ZtoQc 10)
              (emit ∅ (vrp_terms problem_two_by_two
                         (table_distances (coords problem_two_by_two))
                         (ZtoQc 1))))
    as (Ho & Hc & _); [compute_done..| |].
  { apply vrp_objective_function_emit; compute_done. }
  split; [exact Ho|exact Hc].
Defined.

Lemma constraints_energy_witness :
  energy (constraints problem_two_by_two (ZtoQc 10))
         (bits sample_with_depot_stays) =
    ZtoQc 10 * (penalty problem_two_by_two (bits sample_with_depot_stays)
                - ZtoQc 6).
Proof.
  apply (constraints_energy problem_two_by_two (ZtoQc 10)
           (bits sample_with_depot_stays)).
  intros v. unfold bits. destruct (decide _); auto.
Defined.

Lemma constraints_energy_minimum_witness :
  - (ZtoQc 10 * ZtoQc 6) <=
    energy (constraints problem_two_by_two (ZtoQc 10))
           (bits sample_with_depot_stays).
Proof.
  apply (constraints_energy_minimum problem_two_by_two (ZtoQc 10)
           (bits sample_with_depot_stays)).
  - reflexivity.
  - intros v. unfold bits. destruct (decide _); auto.
Defined.

Lemma objective_energy_of_tours_witness :
  exists m,
    vrp_objective_function table_distances problem_two_by_two (ZtoQc 1)
      = Ok m /\
    energy m (bits (one_hot_sample problem_two_by_two [1; 2; 2; 1]%Z)) =
      ZtoQc 1 *
      (path_cost (table_distances []) [0; 1; 2; 0]%Z +
       (path_cost (table_distances []) [0; 2; 1; 0]%Z + 0)).
Proof.
  apply (objective_energy_of_tours table_distances problem_two_by_two
           (ZtoQc 1) (bits (one_hot_sample problem_two_by_two [1; 2; 2; 1]%Z))
           (chosen [1; 2; 2; 1]%Z)).
  - compute_done.
  - compute_done.
  - compute_done.
  - compute_done.
  - apply selects_one_hot_sample. reflexivity.
  - apply chosen_in_locations; [reflexivity|compute_done].
Defined.

Lemma objective_energy_is_decoded_cost_witness :
  exists m sol,
    vrp_objective_function table_distances problem_two_by_two (ZtoQc 1)
      = Ok m /\
    unwrap_qbsolv_solution problem_two_by_two
      (one_hot_sample problem_two_by_two [1; 2; 2; 1]%Z) = Ok sol /\
    energy m (bits (one_hot_sample problem_two_by_two [1; 2; 2; 1]%Z)) =
      ZtoQc 1 * cost sol.
Proof.
  apply (objective_energy_is_decoded_cost table_distances
           problem_two_by_two (ZtoQc 1) [1; 2; 2; 1]%Z); compute_done.
Defined.

Lemma single_vehicle_qubo_energy_witness :
  exists q sol,
    wrap_vrp_qubo_problem table_distances unit_params problem_single_vehicle
      = Ok q /\
    unwrap_qbsolv_solution problem_single_vehicle
      (one_hot_sample problem_single_vehicle [2; 1]%Z) = Ok sol /\
    feasible problem_single_vehicle
      (bits (one_hot_sample problem_single_vehicle [2; 1]%Z)) /\
    energy q (bits (one_hot_sample problem_single_vehicle [2; 1]%Z)) =
      ZtoQc 1 * cost sol - ZtoQc 10 * ZtoQc 4.
Proof.
  apply (single_vehicle_qubo_energy table_distances unit_params
           problem_single_vehicle [2; 1]%Z); compute_done.
Defined.

Lemma cvrp_objective_energy_witness :
  exists m,
    cvrp_objective_function table_distances problem_two_by_two (ZtoQc 1)
      = Ok m /\
    energy m (bits (one_hot_sample problem_two_by_two [1; 2; 2; 1]%Z)) =
      ZtoQc 1 *
      (sumQc ((fun v => path_cost (table_distances [])
                          (tour problem_two_by_two
                             (chosen [1; 2; 2; 1]%Z) v))
                <$> [0; 1]%Z) +
       sumQc (block_load problem_two_by_two (chosen [1; 2; 2; 1]%Z)
                <$> [0; 1]%Z)).
Proof.
  apply (cvrp_objective_energy table_distances problem_two_by_two
           (ZtoQc 1) (bits (one_hot_sample problem_two_by_two [1; 2; 2; 1]%Z))
           (chosen [1; 2; 2; 1]%Z)).
  - compute_done.
  - compute_done.
  - compute_done.
  - compute_done.
  - compute_done.
  - compute_done.
  - compute_done.
  - apply selects_one_hot_sample. reflexivity.
  - apply chosen_in_locations; [reflexivity|compute_done].
Defined.

Lemma from_file_tables_agree_witness :
  exists build,
    from_file take_sample instance_six_deliveries = Some build /\
    length (coords (build [])) = length (location_idx (build [])) /\
    length (demands (build [])) = length (location_idx (build [])) /\
    max_deliveries (build []) = (num_locations (build []) - 1)%Z.
Proof.
  eexists. split; [reflexivity|].
  destruct (from_file_tables_agree take_sample instance_six_deliveries
              _ [] _ eq_refl eq_refl) as (_ & Hc & Hd & HM & _).
  split; [exact Hc|]. split; [exact Hd|exact HM].
Defined.

Lemma from_file_qubo_in_constraint_space_witness :
  exists build qv qc,
    from_file take_sample instance_six_deliveries = Some build /\
    wrap_vrp_qubo_problem squared_distances unit_params (build []) = Ok qv /\
    wrap_cvrp_qubo_problem squared_distances unit_params (build [])
      = Ok qc /\
    forall k, is_Some (qv !! k) \/ is_Some (qc !! k) ->
      (0 <= k.1.1 < 5)%Z /\ (0 <= k.2.1 < 5)%Z.
Proof.
  eexists.
  destruct (from_file_qubo_in_constraint_space take_sample squared_distances
              take_sample_size squared_distances_square unit_params
              instance_six_deliveries _ [] _ eq_refl eq_refl)
    as (_ & qv & qc & Hv & Hc & Hk).
  exists qv, qc. split; [reflexivity|]. split; [exact Hv|].
  split; [exact Hc|exact Hk].
Defined.

Lemma from_file_round_trip_witness :
  exists build q sol,
    from_file take_sample instance_six_deliveries = Some build /\
    wrap_vrp_qubo_problem squared_distances unit_params
      (build instance_costs) = Ok q /\
    unwrap_qbsolv_solution (build instance_costs)
      (one_hot_sample (build instance_costs) [3; 1; 5; 2; 4]%Z) = Ok sol /\
    energy q (bits (one_hot_sample (build instance_costs)
                      [3; 1; 5; 2; 4]%Z)) =
      ZtoQc 1 * cost sol - ZtoQc 10 * ZtoQc 10.
Proof.
  eexists.
  destruct (from_file_round_trip take_sample squared_distances
              take_sample_size squared_distances_square unit_params
              instance_six_deliveries _ instance_costs _
              [3; 1; 5; 2; 4]%Z eq_refl eq_refl)
    as (q & sol & Hq & Hsol & HE).
  - reflexivity.
  - compute_done.
  - compute_done.
  - exists q, sol. split; [reflexivity|]. split; [exact Hq|].
    split; [exact Hsol|exact HE].
Defined.

Lemma perfect_assignment_minimises_constraints_witness :
  feasible problem_two_by_two (bits sample_with_depot_stays) /\
  energy (constraints problem_two_by_two (ZtoQc 10))
         (bits sample_with_depot_stays) = - (ZtoQc 10 * ZtoQc 6).
Proof.
  destruct (perfect_assignment_minimises_constraints problem_two_by_two
              (ZtoQc 10) sample_with_depot_stays) as (Hf & HE & _);
    [compute_done..|].
  split; [exact Hf|exact HE].
Defined.

Lemma single_vehicle_capacity_is_constant_witness :
  exists mv mc,
    vrp_objective_function table_distances problem_single_vehicle (ZtoQc 1)
      = Ok mv /\
    cvrp_objective_function table_distances problem_single_vehicle (ZtoQc 1)
      = Ok mc /\
    energy mc (bits (one_hot_sample problem_single_vehicle [2; 1]%Z)) =
      energy mv (bits (one_hot_sample problem_single_vehicle [2; 1]%Z))
      + ZtoQc 1 * pairs_load problem_single_vehicle.
Proof.
  apply (single_vehicle_capacity_is_constant table_distances
           problem_single_vehicle (ZtoQc 1) [2; 1]%Z); compute_done.
Defined.
